(** * Depth-layered graph and its random generator (kuznetsov_sirbu/graph.cpp)

    A shallow embedding of [class Graph] and [class GraphGenerator], and the
    properties of the depth / edge-colour bookkeeping.

    Modelling conventions.
    - [int] (VertexId, EdgeId, Depth) is a [Z]; an arithmetic result outside
      the 32-bit signed range is undefined behaviour in C++ and is modelled
      as the error [UndefinedBehaviour].
    - [std::unordered_map] is a [gmap]; [m.at(k)] raises [OutOfRange] on a
      missing key, [m[k]] reads the default value (and the write that
      follows creates the entry).
    - [std::vector] is a [list]; [v[i]] out of bounds is undefined
      behaviour, [v.at(i)] out of bounds raises [OutOfRange].
    - [assert] is active (no NDEBUG): a failed assertion aborts, modelled as
      the error [AssertionFailed].
    - [double] is IEEE binary64, through the Standard Library's executable
      specification [spec_float] with [prec = 53] and [emax = 1024].
    - The two library random draws are oracles over an abstract generator
      state.
    - [std::string] is a [list ascii]; [back] and [pop_back] on the empty
      string are undefined behaviour. *)

From Stdlib Require Import ZArith Bool Lia.
From Stdlib Require Import Floats.SpecFloat.
From Stdlib Require DecimalString.
From stdpp Require Import base option list gmap relations strings.

Local Open Scope Z_scope.

(** ** Failure outcomes *)

Inductive error : Type :=
| AssertionFailed      (* assert(...) failed: abort *)
| OutOfRange           (* std::out_of_range thrown by .at() *)
| RuntimeError         (* std::runtime_error("Failed to determine color") *)
| UndefinedBehaviour.  (* signed overflow, vector index out of bounds,
                          a library precondition that does not hold *)

Inductive result (A : Type) : Type :=
| Ok (a : A)
| Err (e : error).
Arguments Ok {A} a.
Arguments Err {A} e.

Definition bind {A B : Type} (m : result A) (f : A -> result B) : result B :=
  match m with
  | Ok a => f a
  | Err e => Err e
  end.

Notation "'let*' p ':=' c1 'in' c2" :=
  (bind c1 (fun p => c2))
  (at level 10, p pattern, c1 at level 100, c2 at level 200).

(** ** C++ primitives *)

Definition INT_MAX : Z := 2147483647.
Definition INT_MIN : Z := -2147483648.

(** The value of a signed [int] expression: defined only inside the range. *)
Definition int_checked (z : Z) : result Z :=
  if (INT_MIN <=? z) && (z <=? INT_MAX) then Ok z else Err UndefinedBehaviour.

(** [static_cast<int>] of an unsigned size: reduction modulo 2^32 into the
    signed range. *)
Definition int_of_size (n : nat) : Z :=
  (Z.of_nat n + 2147483648) mod 4294967296 - 2147483648.

(** [m.at(k)] on an unordered_map. *)
Definition map_at {V : Type} (m : gmap Z V) (k : Z) : result V :=
  match m !! k with
  | Some v => Ok v
  | None => Err OutOfRange
  end.

(** The vector read through [m[k]], a fresh empty vector when [k] is absent. *)
Definition map_index {V : Type} (m : gmap Z (list V)) (k : Z) : list V :=
  default [] (m !! k).

(** [v[i]] on a vector, the index converted from [int]. *)
Definition vector_index {A : Type} (v : list A) (i : Z) : result A :=
  if i <? 0 then Err UndefinedBehaviour
  else match v !! Z.to_nat i with
       | Some a => Ok a
       | None => Err UndefinedBehaviour
       end.

(** [v.at(i)] on a vector, the index converted from [int]. *)
Definition vector_at {A : Type} (v : list A) (i : Z) : result A :=
  if i <? 0 then Err OutOfRange
  else match v !! Z.to_nat i with
       | Some a => Ok a
       | None => Err OutOfRange
       end.

(** [v.erase(std::find(v.begin(), v.end(), x))] when [x] is found: the first
    occurrence is removed; otherwise [v] is unchanged. *)
Fixpoint erase_first (x : Z) (v : list Z) : list Z :=
  match v with
  | [] => []
  | y :: r => if y =? x then r else y :: erase_first x r
  end.

(** A range-for loop whose body may fail. *)
Fixpoint for_each {A S : Type} (body : S -> A -> result S) (l : list A) (s : S)
  : result S :=
  match l with
  | [] => Ok s
  | x :: r => let* s' := body s x in for_each body r s'
  end.

(** [for (int i = 0; i < n; ++i) body]. *)
Fixpoint repeat_n {S : Type} (n : nat) (body : S -> result S) (s : S) : result S :=
  match n with
  | O => Ok s
  | S k => let* s' := body s in repeat_n k body s'
  end.

(** ** class Graph *)

Module Graph.

Abbreviation VertexId := Z (only parsing).
Abbreviation EdgeId := Z (only parsing).
Abbreviation Depth := Z (only parsing).

Definition kBaseDepth : Depth := 1.
Definition kDifferenceRedEdge : Depth := 2.
Definition kDifferenceYellowEdge : Depth := 1.

Module Vertex.
Record t : Type := mk { id_ : VertexId }.
End Vertex.

Module Edge.
Inductive Color : Type := Grey | Green | Yellow | Red.

Definition Color_eqb (a b : Color) : bool :=
  match a, b with
  | Grey, Grey | Green, Green | Yellow, Yellow | Red, Red => true
  | _, _ => false
  end.

Record t : Type := mk {
  id_ : EdgeId;
  from_vertex_id_ : VertexId;
  to_vertex_id_ : VertexId;
  color_ : Color
}.
End Edge.

Record t : Type := mk {
  vertex_id_counter_ : VertexId;
  edge_id_counter_ : EdgeId;
  vertices_ : list Vertex.t;
  edges_ : list Edge.t;
  adjacency_list_ : gmap Z (list Z);
  vertex_depths_ : gmap Z Z;
  depth_to_vertices_ : gmap Z (list Z)
}.

(** [Graph()] *)
Definition empty : t :=
  mk 0 0 [] [] ∅ ∅ ∅.

(** [vertex_id_counter_++]: the old value is the new id. *)
Definition get_new_vertex_id (g : t) : result (VertexId * t) :=
  let id := vertex_id_counter_ g in
  let* next := int_checked (id + 1) in
  Ok (id, mk next (edge_id_counter_ g) (vertices_ g) (edges_ g)
            (adjacency_list_ g) (vertex_depths_ g) (depth_to_vertices_ g)).

(** [edge_id_counter_++] *)
Definition get_new_edge_id (g : t) : result (EdgeId * t) :=
  let id := edge_id_counter_ g in
  let* next := int_checked (id + 1) in
  Ok (id, mk (vertex_id_counter_ g) next (vertices_ g) (edges_ g)
            (adjacency_list_ g) (vertex_depths_ g) (depth_to_vertices_ g)).

(** graph.cpp 49-57 *)
Definition add_vertex (g : t) : result (VertexId * t) :=
  let* (new_vertex_id, g) := get_new_vertex_id g in
  Ok (new_vertex_id,
      mk (vertex_id_counter_ g) (edge_id_counter_ g)
         (vertices_ g ++ [Vertex.mk new_vertex_id])
         (edges_ g)
         (<[new_vertex_id := []]> (adjacency_list_ g))
         (<[new_vertex_id := kBaseDepth]> (vertex_depths_ g))
         (<[kBaseDepth :=
              map_index (depth_to_vertices_ g) kBaseDepth ++ [new_vertex_id]]>
            (depth_to_vertices_ g))).

(** graph.cpp 78-80 *)
Definition has_vertex (g : t) (vertex_id : VertexId) : bool :=
  bool_decide (is_Some (adjacency_list_ g !! vertex_id)).

Definition get_vertices (g : t) : list Vertex.t := vertices_ g.

Definition get_edges (g : t) : list Edge.t := edges_ g.

(** graph.cpp 86-92 *)
Definition connected_edges_ids (g : t) (vertex_id : VertexId)
  : result (list EdgeId) :=
  if negb (has_vertex g vertex_id) then Ok []
  else map_at (adjacency_list_ g) vertex_id.

(** graph.cpp 94-102: push into the bucket of [depth], then erase the first
    occurrence from the base bucket (which [operator[]] creates when it is
    missing), then record the depth. *)
Definition set_vertex_depth (g : t) (vertex_id : VertexId) (depth : Depth) : t :=
  let d2v := <[depth := map_index (depth_to_vertices_ g) depth ++ [vertex_id]]>
               (depth_to_vertices_ g) in
  let d2v := <[kBaseDepth := erase_first vertex_id (map_index d2v kBaseDepth)]>
               d2v in
  mk (vertex_id_counter_ g) (edge_id_counter_ g) (vertices_ g) (edges_ g)
     (adjacency_list_ g)
     (<[vertex_id := depth]> (vertex_depths_ g))
     d2v.

(** graph.cpp 104-114: the scan of [adjacency_list_.at(from_vertex_id)],
    leaving at the first edge that has [to_vertex_id] at either end. *)
Fixpoint is_connected_loop (edges : list Edge.t) (to_vertex_id : VertexId)
         (edges_ids : list EdgeId) : result bool :=
  match edges_ids with
  | [] => Ok false
  | edge_id :: rest =>
      let* edge := vector_index edges edge_id in
      if (Edge.from_vertex_id_ edge =? to_vertex_id)
         || (Edge.to_vertex_id_ edge =? to_vertex_id)
      then Ok true
      else is_connected_loop edges to_vertex_id rest
  end.

Definition is_connected (g : t) (from_vertex_id to_vertex_id : VertexId)
  : result bool :=
  let* edges_ids := map_at (adjacency_list_ g) from_vertex_id in
  is_connected_loop (edges_ g) to_vertex_id edges_ids.

(** graph.cpp 116-135 *)
Definition get_edge_color (g : t) (from_vertex_id to_vertex_id : VertexId)
  : result Edge.Color :=
  let* from_vertex_depth := map_at (vertex_depths_ g) from_vertex_id in
  let* to_vertex_depth := map_at (vertex_depths_ g) to_vertex_id in
  if from_vertex_id =? to_vertex_id then Ok Edge.Green
  else
    let* to_edges := map_at (adjacency_list_ g) to_vertex_id in
    if Nat.eqb (length to_edges) 0 then Ok Edge.Grey
    else
      let* diff := int_checked (to_vertex_depth - from_vertex_depth) in
      let* yellow :=
        (if diff =? kDifferenceYellowEdge
         then let* c := is_connected g from_vertex_id to_vertex_id in
              Ok (negb c)
         else Ok false) in
      if yellow then Ok Edge.Yellow
      else if diff =? kDifferenceRedEdge then Ok Edge.Red
      else Err RuntimeError.

(** graph.cpp 137-139 *)
Definition vertex_depth (g : t) (vertex_id : VertexId) : result Depth :=
  map_at (vertex_depths_ g) vertex_id.

(** graph.cpp 141-148 *)
Definition get_vertices_with_depth (g : t) (depth : Depth)
  : result (list VertexId) :=
  if bool_decide (is_Some (depth_to_vertices_ g !! depth))
  then map_at (depth_to_vertices_ g) depth
  else Ok [].

(** graph.cpp 150: the number of buckets, narrowed to [int]. *)
Definition depth (g : t) : Depth := int_of_size (size (depth_to_vertices_ g)).

(** graph.cpp 59-76. The guard of the first push is the source's
    [from_vertex_id != edge_id]. *)
Definition add_edge (g : t) (from_vertex_id to_vertex_id : VertexId)
  : result (EdgeId * t) :=
  if negb (has_vertex g from_vertex_id) then Err AssertionFailed
  else if negb (has_vertex g to_vertex_id) then Err AssertionFailed
  else
    let* color := get_edge_color g from_vertex_id to_vertex_id in
    let* g :=
      (if Edge.Color_eqb color Edge.Grey
       then let* d := vertex_depth g from_vertex_id in
            let* d' := int_checked (d + 1) in
            Ok (set_vertex_depth g to_vertex_id d')
       else Ok g) in
    let* (edge_id, g) := get_new_edge_id g in
    let edges := edges_ g ++ [Edge.mk edge_id from_vertex_id to_vertex_id color] in
    let adj := adjacency_list_ g in
    let adj :=
      if negb (from_vertex_id =? edge_id)
      then <[from_vertex_id := map_index adj from_vertex_id ++ [edge_id]]> adj
      else adj in
    let adj := <[to_vertex_id := map_index adj to_vertex_id ++ [edge_id]]> adj in
    Ok (edge_id,
        mk (vertex_id_counter_ g) (edge_id_counter_ g) (vertices_ g) edges
           adj (vertex_depths_ g) (depth_to_vertices_ g)).

End Graph.

(** ** IEEE binary64 arithmetic *)

Definition double : Type := spec_float.

(** [static_cast<double>(n)], and the implicit conversion of an [int]
    operand of a [double] operation: exact for every 32-bit integer. *)
Definition double_of_int (n : Z) : double := binary_normalize 53 1024 n 0 false.

Definition double_sub (x y : double) : double := SFsub 53 1024 x y.
Definition double_div (x y : double) : double := SFdiv 53 1024 x y.

(** The literals [1.0] and [0.0]. *)
Definition double_one : double := S754_finite false 4503599627370496 (-52).
Definition double_zero : double := S754_zero false.

(** ** class GraphGenerator *)

Module GraphGenerator.

(** The literals [0.33] and [0.1]: the binary64 numbers nearest to 33/100
    and to 1/10, which is what the correctly rounded quotients are. *)
Definition kProbabilityRed : double :=
  double_div (double_of_int 33) (double_of_int 100).
Definition kProbabilityGreen : double :=
  double_div (double_of_int 1) (double_of_int 10).

Module Params.
Record t : Type := mk { depth_ : Graph.Depth; new_vertices_count_ : Z }.
Definition depth (p : t) : Graph.Depth := depth_ p.
Definition new_vertices_count (p : t) : Z := new_vertices_count_ p.
End Params.

Section Generator.

(** The entropy consumed by [std::random_device] and the two
    distributions drawn from it. *)
Context {RNG : Type}.
Variable bernoulli_distribution : double -> RNG -> bool * RNG.
Variable uniform_int_distribution : Z -> Z -> RNG -> Z * RNG.

Variable params_ : Params.t.

(** [std::bernoulli_distribution distribution(chance)] requires
    [0 <= chance <= 1]; any other parameter, NaN among them, is undefined
    behaviour. *)
Definition check_probability (chance : double) (rng : RNG)
  : result (bool * RNG) :=
  if SFleb double_zero chance && SFleb chance double_one
  then Ok (bernoulli_distribution chance rng)
  else Err UndefinedBehaviour.

Definition probaility_generate_grey_edge
           (current_depth graph_depth : Graph.Depth) : result double :=
  if graph_depth =? 0 then Ok double_one
  else
    let* num := int_checked (current_depth - Graph.kBaseDepth) in
    let* den := int_checked (graph_depth - Graph.kBaseDepth) in
    Ok (double_sub double_one
                   (double_div (double_of_int num) (double_of_int den))).

Definition get_random_vertex_id (size : Z) (rng : RNG)
  : result (Graph.VertexId * RNG) :=
  let* hi := int_checked (size - 1) in
  Ok (uniform_int_distribution 0 hi rng).

Definition get_unconnected_vertex_ids
           (graph : Graph.t) (vertex_from_id : Graph.VertexId)
           (vertex_ids : list Graph.VertexId) : result (list Graph.VertexId) :=
  for_each
    (fun not_connected_vertex_ids vertex_to_id =>
       let* c := Graph.is_connected graph vertex_from_id vertex_to_id in
       Ok (if negb c
           then not_connected_vertex_ids ++ [vertex_to_id]
           else not_connected_vertex_ids))
    vertex_ids [].

Definition try_generate_grey_edge
           (s : Graph.t * RNG) (current_depth : Graph.Depth)
           (vertex_id : Graph.VertexId) : result (Graph.t * RNG) :=
  let (graph, rng) := s in
  let* probability :=
    probaility_generate_grey_edge current_depth (Params.depth params_) in
  let* (success, rng) := check_probability probability rng in
  if success then
    let* (next_vertex_id, graph) := Graph.add_vertex graph in
    let* (_, graph) := Graph.add_edge graph vertex_id next_vertex_id in
    Ok (graph, rng)
  else Ok (graph, rng).

Fixpoint generate_grey_edges_loop
         (depths : list Graph.Depth) (s : Graph.t * RNG)
  : result (Graph.t * RNG) :=
  match depths with
  | [] => Ok s
  | current_depth :: rest =>
      let* vertices_with_last_depth :=
        Graph.get_vertices_with_depth (fst s) current_depth in
      if negb (Graph.depth (fst s) =? current_depth) then Ok s
      else
        let* s :=
          for_each
            (fun s vertex_id =>
               repeat_n (Z.to_nat (Params.new_vertices_count params_))
                        (fun s => try_generate_grey_edge s current_depth vertex_id)
                        s)
            vertices_with_last_depth s in
        let* _ := int_checked (current_depth + 1) in
        generate_grey_edges_loop rest s
  end.

(** [current_depth] runs over [kBaseDepth .. params_.depth()]. *)
Definition generate_grey_edges (s : Graph.t * RNG) : result (Graph.t * RNG) :=
  generate_grey_edges_loop (seqZ Graph.kBaseDepth (Params.depth params_)) s.

Definition try_generate_yellow_edge
           (graph : Graph.t) (vertex_from_id vertex_to_id : Graph.VertexId)
  : result Graph.t :=
  let* vertex_from_depth := Graph.vertex_depth graph vertex_from_id in
  let* (_, graph) := Graph.add_edge graph vertex_from_id vertex_to_id in
  Ok graph.

Definition generate_yellow_edges (s : Graph.t * RNG) : result (Graph.t * RNG) :=
  for_each
    (fun (s : Graph.t * RNG) vertex_from =>
       let (graph, rng) := s in
       let vertex_from_id := Graph.Vertex.id_ vertex_from in
       let* vertex_depth := Graph.vertex_depth graph vertex_from_id in
       let* num := int_checked (vertex_depth - Graph.kBaseDepth) in
       let* den := int_checked (Graph.depth graph - Graph.kBaseDepth) in
       let probability_generate :=
         double_sub double_one
                    (double_div (double_of_int num) (double_of_int den)) in
       let* (success, rng) := check_probability probability_generate rng in
       if negb success then
         let* next_depth :=
           int_checked (vertex_depth + Graph.kDifferenceYellowEdge) in
         let* vertex_ids := Graph.get_vertices_with_depth graph next_depth in
         let* not_connected_vertex_ids :=
           get_unconnected_vertex_ids graph vertex_from_id vertex_ids in
         match not_connected_vertex_ids with
         | [] => Ok (graph, rng)
         | _ :: _ =>
             let* (index, rng) :=
               get_random_vertex_id
                 (int_of_size (length not_connected_vertex_ids)) rng in
             let* vertex_to_id := vector_at not_connected_vertex_ids index in
             let* graph :=
               try_generate_yellow_edge graph vertex_from_id vertex_to_id in
             Ok (graph, rng)
         end
       else Ok (graph, rng))
    (Graph.get_vertices (fst s)) s.

Definition try_generate_red_edge
           (graph : Graph.t) (vertex_from_id vertex_to_id : Graph.VertexId)
  : result Graph.t :=
  let* vertex_from_depth := Graph.vertex_depth graph vertex_from_id in
  let* (_, graph) := Graph.add_edge graph vertex_from_id vertex_to_id in
  Ok graph.

Definition generate_red_edges (s : Graph.t * RNG) : result (Graph.t * RNG) :=
  for_each
    (fun (s : Graph.t * RNG) vertex_from =>
       let (graph, rng) := s in
       let* (success, rng) := check_probability kProbabilityRed rng in
       if negb success then Ok (graph, rng)
       else
         let vertex_from_id := Graph.Vertex.id_ vertex_from in
         let* vertex_depth := Graph.vertex_depth graph vertex_from_id in
         let* next_depth :=
           int_checked (vertex_depth + Graph.kDifferenceRedEdge) in
         let* vertex_ids := Graph.get_vertices_with_depth graph next_depth in
         match vertex_ids with
         | [] => Ok (graph, rng)
         | _ :: _ =>
             let* (index, rng) :=
               get_random_vertex_id (int_of_size (length vertex_ids)) rng in
             let* vertex_to_id := vector_at vertex_ids index in
             let* graph :=
               try_generate_red_edge graph vertex_from_id vertex_to_id in
             Ok (graph, rng)
         end)
    (Graph.get_vertices (fst s)) s.

Definition try_generate_green_edge
           (s : Graph.t * RNG) (vertex_id : Graph.VertexId)
  : result (Graph.t * RNG) :=
  let (graph, rng) := s in
  let* (success, rng) := check_probability kProbabilityGreen rng in
  if success then
    let* (_, graph) := Graph.add_edge graph vertex_id vertex_id in
    Ok (graph, rng)
  else Ok (graph, rng).

Definition generate_green_edges (s : Graph.t * RNG) : result (Graph.t * RNG) :=
  for_each
    (fun s vertex => try_generate_green_edge s (Graph.Vertex.id_ vertex))
    (Graph.get_vertices (fst s)) s.

Definition generate (rng : RNG) : result (Graph.t * RNG) :=
  let graph := Graph.empty in
  if Params.depth params_ >? 0 then
    let* (_, graph) := Graph.add_vertex graph in
    let* s := generate_grey_edges (graph, rng) in
    let* s := generate_green_edges s in
    let* s := generate_yellow_edges s in
    let* s := generate_red_edges s in
    Ok s
  else Ok (graph, rng).

End Generator.

End GraphGenerator.

(** ** namespace printing::json *)

Module printing.
Module json.

Abbreviation std_string := (list Ascii.ascii) (only parsing).

(** A string literal of the source. *)
Definition lit (s : string) : std_string := String.list_ascii_of_string s.

(** The escaped double quote of the source literals, and the newline. *)
Definition dquote : std_string := [Ascii.ascii_of_nat 34].
Definition newline : std_string := [Ascii.ascii_of_nat 10].
Definition comma : Ascii.ascii := Ascii.ascii_of_nat 44.

(** [std::to_string(int)]: decimal digits, with a leading minus sign for a
    negative number. *)
Definition to_string (n : Z) : std_string :=
  lit (DecimalString.NilZero.string_of_int (Z.to_int n)).

(** [s.back()] and [s.pop_back()]. *)
Definition back (s : std_string) : result Ascii.ascii :=
  match last s with
  | Some c => Ok c
  | None => Err UndefinedBehaviour
  end.

Definition pop_back (s : std_string) : result std_string :=
  match s with
  | [] => Err UndefinedBehaviour
  | _ :: _ => Ok (removelast s)
  end.

(** graph.cpp 331-348 *)
Definition print_vertex (vertex : Graph.Vertex.t) (graph : Graph.t)
  : result std_string :=
  let result_json_vertex := lit "{" ++ dquote ++ lit "id" ++ dquote ++ lit ":" in
  let result_json_vertex :=
    result_json_vertex ++ (to_string (Graph.Vertex.id_ vertex) ++ lit ",") in
  let* edge_ids := Graph.connected_edges_ids graph (Graph.Vertex.id_ vertex) in
  let result_json_vertex :=
    result_json_vertex ++ (dquote ++ lit "edge_ids" ++ dquote ++ lit ":[") in
  let result_json_vertex :=
    fold_left (fun r id => r ++ (to_string id ++ lit ","))
              edge_ids result_json_vertex in
  let* result_json_vertex :=
    (if negb (Nat.eqb (length edge_ids) 0)
     then pop_back result_json_vertex
     else Ok result_json_vertex) in
  let result_json_vertex := result_json_vertex ++ lit "]," in
  let* depth := Graph.vertex_depth graph (Graph.Vertex.id_ vertex) in
  Ok (result_json_vertex ++
      (dquote ++ lit "depth" ++ dquote ++ lit ":" ++ to_string depth ++ lit "}")).

(** graph.cpp 350-362; the [throw] after the [switch] is not reachable
    for the four enumerators. *)
Definition print_edge_color (edge : Graph.Edge.t) : std_string :=
  match Graph.Edge.color_ edge with
  | Graph.Edge.Grey => lit "grey"
  | Graph.Edge.Red => lit "red"
  | Graph.Edge.Yellow => lit "yellow"
  | Graph.Edge.Green => lit "green"
  end.

(** graph.cpp 364-372 *)
Definition print_edge (edge : Graph.Edge.t) : std_string :=
  let result_json_edge :=
    lit "{" ++ dquote ++ lit "id" ++ dquote ++ lit ":" ++
    to_string (Graph.Edge.id_ edge) ++
    lit "," ++ dquote ++ lit "vertex_ids" ++ dquote ++ lit ":" ++ lit "[" ++
    to_string (Graph.Edge.from_vertex_id_ edge) ++ lit "," ++
    to_string (Graph.Edge.to_vertex_id_ edge) ++ lit "]," ++
    dquote ++ lit "color" ++ dquote ++ lit ":" in
  let edge_color := print_edge_color edge in
  result_json_edge ++ (dquote ++ edge_color ++ dquote ++ lit "}").

(** [if (result.back() == ',') result.pop_back();] *)
Definition drop_trailing_comma (text : std_string) : result std_string :=
  let* c := back text in
  if Ascii.eqb c comma then pop_back text else Ok text.

(** graph.cpp 374-393 *)
Definition print_graph (graph : Graph.t) : result std_string :=
  let result : std_string := [] in
  let result :=
    result ++ (lit "{" ++ dquote ++ lit "depth" ++ dquote ++ lit ":" ++
               to_string (Graph.depth graph) ++ lit ",") in
  let result := result ++ (dquote ++ lit "vertices" ++ dquote ++ lit ":[") in
  let* result :=
    for_each (fun result vertex =>
                let* v := print_vertex vertex graph in
                Ok (result ++ (v ++ lit ",")))
             (Graph.get_vertices graph) result in
  let* result := drop_trailing_comma result in
  let result :=
    result ++ (lit "]," ++ dquote ++ lit "edges" ++ dquote ++ lit ":[") in
  let result :=
    fold_left (fun result edge => result ++ (print_edge edge ++ lit ","))
              (Graph.get_edges graph) result in
  let* result := drop_trailing_comma result in
  Ok (result ++ (lit "]}" ++ newline)).

End json.
End printing.

(** The items of a list separated by commas. *)
Fixpoint comma_separated (items : list (list Ascii.ascii)) : list Ascii.ascii :=
  match items with
  | [] => []
  | [x] => x
  | x :: rest => x ++ printing.json.lit "," ++ comma_separated rest
  end.

(** The JSON object of a vertex: its id, the ids of its adjacency list and
    its depth. *)
Definition json_vertex (id : Z) (edge_ids : list Z) (depth : Z)
  : list Ascii.ascii :=
  let lit := printing.json.lit in
  let dquote := printing.json.dquote in
  lit "{" ++ dquote ++ lit "id" ++ dquote ++ lit ":" ++
  printing.json.to_string id ++ lit "," ++
  dquote ++ lit "edge_ids" ++ dquote ++ lit ":[" ++
  comma_separated (printing.json.to_string <$> edge_ids) ++ lit "]," ++
  dquote ++ lit "depth" ++ dquote ++ lit ":" ++
  printing.json.to_string depth ++ lit "}".

(** A random source that replays a script of Bernoulli outcomes and always
    draws the lower bound of a uniform range; for evaluating [generate].
    A trial of probability 1 succeeds and one of probability 0 fails,
    whatever the script says. *)
Definition scripted_bernoulli (chance : double) (rng : list bool)
  : bool * list bool :=
  match rng with
  | success :: rest =>
      (if SFleb double_one chance then true
       else if SFleb chance (S754_zero false) then false
       else success,
       rest)
  | [] => (false, [])
  end.

Definition lowest_uniform (lo hi : Z) (rng : list bool) : Z * list bool :=
  (lo, rng).

(** The outcomes of one run of generate() with target depth 3 and one new
    vertex per step: the grey trials of vertices 0, 1, 2 (probabilities 1,
    0.5, 0), three green trials (0.1), the yellow trials of vertices 0, 1, 2
    (1, 0.5, 0) and three red trials (0.33). *)
Definition chain_script : list bool :=
  [true; true; false;
   false; false; false;
   true; false; false;
   false; false; false].

(** ** Construction histories *)

(** One successful mutation of the graph through its public interface.
    A call that fails leaves no graph behind: the assertions abort, and
    get_edge_color throws before add_edge has written anything. *)
Inductive step (g g' : Graph.t) : Prop :=
| step_add_vertex (id : Z) :
    Graph.add_vertex g = Ok (id, g') -> step g g'
| step_add_edge (from to id : Z) :
    Graph.add_edge g from to = Ok (id, g') -> step g g'.

(** The graphs built from [Graph()] by add_vertex and add_edge calls. *)
Definition reachable (g : Graph.t) : Prop := rtc step Graph.empty g.

(** [v] is the target of a stored Grey edge. *)
Definition has_incoming_grey (g : Graph.t) (v : Z) : Prop :=
  exists e, e ∈ Graph.edges_ g /\
            Graph.Edge.to_vertex_id_ e = v /\
            Graph.Edge.color_ e = Graph.Edge.Grey.

(** Some stored edge joins [a] and [b], in either direction. *)
Definition joined (g : Graph.t) (a b : Z) : Prop :=
  exists e, e ∈ Graph.edges_ g /\
            ((Graph.Edge.from_vertex_id_ e = a /\ Graph.Edge.to_vertex_id_ e = b) \/
             (Graph.Edge.from_vertex_id_ e = b /\ Graph.Edge.to_vertex_id_ e = a)).

(** A call of the mutating interface, and the execution of a script of
    calls on a graph. *)
Inductive call : Type :=
| AddVertex
| AddEdge (from to : Z).

Definition exec (g : Graph.t) (c : call) : result Graph.t :=
  match c with
  | AddVertex => let* (_, g') := Graph.add_vertex g in Ok g'
  | AddEdge from to => let* (_, g') := Graph.add_edge g from to in Ok g'
  end.

Definition run (cs : list call) (g : Graph.t) : result Graph.t :=
  for_each exec cs g.

(** The graph a script builds from [Graph()]. *)
Definition built (cs : list call) : Graph.t :=
  match run cs Graph.empty with
  | Ok g => g
  | Err _ => Graph.empty
  end.

(** The bookkeeping invariant of reachable graphs. *)
Record wf (g : Graph.t) : Prop := {
  wf_fresh : forall v,
    is_Some (Graph.adjacency_list_ g !! v) -> v < Graph.vertex_id_counter_ g;
  wf_dom : forall v,
    is_Some (Graph.vertex_depths_ g !! v) <->
    is_Some (Graph.adjacency_list_ g !! v);
  wf_depth_pos : forall v d,
    Graph.vertex_depths_ g !! v = Some d -> Graph.kBaseDepth <= d;
  wf_leaf : forall v,
    Graph.adjacency_list_ g !! v = Some [] ->
    Graph.vertex_depths_ g !! v = Some Graph.kBaseDepth;
  wf_incident : forall e,
    e ∈ Graph.edges_ g ->
    exists l, Graph.adjacency_list_ g !! Graph.Edge.to_vertex_id_ e = Some l /\
              l <> []
}.

(** ** Further invariants of built graphs *)

(** Identifiers are handed out consecutively from 0, and the stored
    vertices and edges carry them in insertion order. *)
Record ids_inv (g : Graph.t) : Prop := {
  ids_vertex_counter : 0 <= Graph.vertex_id_counter_ g <= INT_MAX;
  ids_vertices :
    Graph.vertices_ g = Graph.Vertex.mk <$> seqZ 0 (Graph.vertex_id_counter_ g);
  ids_adjacency : forall v,
    is_Some (Graph.adjacency_list_ g !! v) <->
    0 <= v < Graph.vertex_id_counter_ g;
  ids_edge_counter :
    Z.of_nat (length (Graph.edges_ g)) = Graph.edge_id_counter_ g /\
    Graph.edge_id_counter_ g <= INT_MAX;
  ids_edges : forall i e,
    Graph.edges_ g !! i = Some e ->
    Graph.Edge.id_ e = Z.of_nat i /\
    is_Some (Graph.adjacency_list_ g !! Graph.Edge.from_vertex_id_ e) /\
    is_Some (Graph.adjacency_list_ g !! Graph.Edge.to_vertex_id_ e)
}.

(** Every registered edge id names a stored edge that touches the vertex,
    and every stored edge is registered with its target. *)
Record adj_inv (g : Graph.t) : Prop := {
  adj_sound : forall v l id,
    Graph.adjacency_list_ g !! v = Some l -> id ∈ l ->
    exists e, vector_index (Graph.edges_ g) id = Ok e /\
              Graph.Edge.id_ e = id /\
              (Graph.Edge.from_vertex_id_ e = v \/ Graph.Edge.to_vertex_id_ e = v);
  adj_target : forall e,
    e ∈ Graph.edges_ g ->
    exists l, Graph.adjacency_list_ g !! Graph.Edge.to_vertex_id_ e = Some l /\
              Graph.Edge.id_ e ∈ l
}.

(** The depth buckets are the inverse of the depth map. *)
Record bucket_inv (g : Graph.t) : Prop := {
  bucket_nodup : forall d l,
    Graph.depth_to_vertices_ g !! d = Some l -> NoDup l;
  bucket_depth : forall v d,
    Graph.vertex_depths_ g !! v = Some d <->
    exists l, Graph.depth_to_vertices_ g !! d = Some l /\ v ∈ l
}.

(** The Grey edges are the parent links of the vertices above the base
    depth, one for each. *)
Record grey_inv (g : Graph.t) : Prop := {
  grey_depth : forall v,
    has_incoming_grey g v <->
    exists d, Graph.vertex_depths_ g !! v = Some d /\ d <> Graph.kBaseDepth;
  grey_unique : forall i j e1 e2,
    Graph.edges_ g !! i = Some e1 ->
    Graph.edges_ g !! j = Some e2 ->
    Graph.Edge.color_ e1 = Graph.Edge.Grey ->
    Graph.Edge.color_ e2 = Graph.Edge.Grey ->
    Graph.Edge.to_vertex_id_ e1 = Graph.Edge.to_vertex_id_ e2 ->
    i = j
}.

(** Only the base bucket can be empty, and there are no buckets before the
    first vertex. *)
Record layers_inv (g : Graph.t) : Prop := {
  layers_nonempty : forall d l,
    Graph.depth_to_vertices_ g !! d = Some l -> d <> Graph.kBaseDepth -> l <> [];
  layers_none :
    Graph.vertex_id_counter_ g = 0 -> Graph.depth_to_vertices_ g = ∅
}.

(** The bucket keys are 1 .. size. *)
Record keys_inv (g : Graph.t) : Prop := {
  keys_range : forall d,
    is_Some (Graph.depth_to_vertices_ g !! d) <->
    1 <= d <= Z.of_nat (size (Graph.depth_to_vertices_ g));
  keys_bound : Z.of_nat (size (Graph.depth_to_vertices_ g)) <= INT_MAX
}.

(** The two ways generate() extends a graph: a new vertex hung below a
    vertex of the graph by a Grey edge, or an edge of another colour
    between vertices of the graph. *)
Inductive child_step (g g' : Graph.t) : Prop :=
| child_step_intro (v next id : Z) (g1 : Graph.t) :
    Graph.has_vertex g v = true ->
    Graph.add_vertex g = Ok (next, g1) ->
    Graph.add_edge g1 v next = Ok (id, g') ->
    child_step g g'.

Inductive edge_step (g g' : Graph.t) : Prop :=
| edge_step_intro (a b id : Z) (c : Graph.Edge.Color) :
    Graph.get_edge_color g a b = Ok c ->
    c <> Graph.Edge.Grey ->
    Graph.add_edge g a b = Ok (id, g') ->
    edge_step g g'.

Definition generator_step (g g' : Graph.t) : Prop :=
  child_step g g' \/ edge_step g g'.

(** [g'] is [g] after children were hung below vertices of depth [cd]:
    recorded depths are kept and no layer beyond [cd + 1] is opened. *)
Definition grown_from (cd : Z) (g g' : Graph.t) : Prop :=
  rtc child_step g g' /\
  (forall u d, Graph.vertex_depths_ g !! u = Some d ->
               Graph.vertex_depths_ g' !! u = Some d) /\
  Graph.depth g' <= Z.max (Graph.depth g) (cd + 1).

(** The ends of edge [e] have, in [g], the depth difference its colour
    stands for. *)
Definition colour_matches_depths (g : Graph.t) (e : Graph.Edge.t) : Prop :=
  exists df dt,
    Graph.vertex_depths_ g !! Graph.Edge.from_vertex_id_ e = Some df /\
    Graph.vertex_depths_ g !! Graph.Edge.to_vertex_id_ e = Some dt /\
    match Graph.Edge.color_ e with
    | Graph.Edge.Grey | Graph.Edge.Yellow => dt = df + 1
    | Graph.Edge.Red => dt = df + 2
    | Graph.Edge.Green =>
        Graph.Edge.from_vertex_id_ e = Graph.Edge.to_vertex_id_ e
    end.

(** The shape of a generated graph: the root at depth 1, every other
    vertex below it, every edge between the layers its colour names. *)
Record tree_inv (g : Graph.t) : Prop := {
  tree_root : Graph.vertex_depths_ g !! 0 = Some Graph.kBaseDepth;
  tree_below : forall v d,
    Graph.vertex_depths_ g !! v = Some d -> v <> 0 -> 1 < d;
  tree_edges : forall e, e ∈ Graph.edges_ g -> colour_matches_depths g e
}.

(** A computation that returns a value satisfying [P], or fails by
    undefined behaviour and in no other way. *)
Definition safe {A : Type} (r : result A) (P : A -> Prop) : Prop :=
  match r with
  | Ok a => P a
  | Err e => e = UndefinedBehaviour
  end.

(** * Properties *)

(** ** Reasoning about fallible code *)

Lemma bind_Ok {A B : Type} (m : result A) (f : A -> result B) (b : B) :
  bind m f = Ok b -> exists a, m = Ok a /\ f a = Ok b.
Proof. destruct m as [a|e]; simpl; [eauto | discriminate]. Qed.

Lemma int_checked_Ok (z r : Z) :
  int_checked z = Ok r -> r = z /\ INT_MIN <= z <= INT_MAX.
Proof.
  unfold int_checked. destruct (andb _ _) eqn:E; [|discriminate].
  intros [= <-]. apply andb_true_iff in E. lia.
Qed.

Lemma map_at_Ok {V : Type} (m : gmap Z V) (k : Z) (v : V) :
  map_at m k = Ok v <-> m !! k = Some v.
Proof. unfold map_at. destruct (m !! k); split; congruence. Qed.

Lemma map_at_Err {V : Type} (m : gmap Z V) (k : Z) (e : error) :
  map_at m k = Err e <-> m !! k = None /\ e = OutOfRange.
Proof.
  unfold map_at. destruct (m !! k); split; try congruence.
  - intros [? _]; congruence.
  - intros [= <-]; auto.
  - intros [_ ->]; auto.
Qed.

(** Peel the successful prefix of every computation among the hypotheses. *)
Ltac inv_ok :=
  repeat match goal with
    | H : bind _ _ = Ok _ |- _ =>
        let a := fresh "a" in
        let Ha := fresh "Hstep" in
        apply bind_Ok in H; destruct H as (a & Ha & H)
    | H : (let (_, _) := ?p in _) = Ok _ |- _ => destruct p
    | H : int_checked _ = Ok _ |- _ => apply int_checked_Ok in H; destruct H as [-> H]
    | H : Ok _ = Ok _ |- _ => injection H as H
    | H : Err _ = Ok _ |- _ => discriminate H
    end.

Section GraphFacts.
Import Graph.

Lemma has_vertex_true (g : Graph.t) (v : Z) :
  has_vertex g v = true <-> is_Some (adjacency_list_ g !! v).
Proof. unfold has_vertex. apply bool_decide_eq_true. Qed.

Lemma has_vertex_false (g : Graph.t) (v : Z) :
  has_vertex g v = false <-> adjacency_list_ g !! v = None.
Proof.
  unfold has_vertex. rewrite bool_decide_eq_false, eq_None_not_Some. tauto.
Qed.

(** What a successful [add_vertex] did. *)
Lemma add_vertex_Ok (g g' : Graph.t) (id : Z) :
  add_vertex g = Ok (id, g') ->
  id = vertex_id_counter_ g /\
  vertex_id_counter_ g' = id + 1 /\
  edge_id_counter_ g' = edge_id_counter_ g /\
  vertices_ g' = vertices_ g ++ [Vertex.mk id] /\
  edges_ g' = edges_ g /\
  adjacency_list_ g' = <[id := []]> (adjacency_list_ g) /\
  vertex_depths_ g' = <[id := kBaseDepth]> (vertex_depths_ g) /\
  depth_to_vertices_ g' =
    <[kBaseDepth := map_index (depth_to_vertices_ g) kBaseDepth ++ [id]]>
      (depth_to_vertices_ g).
Proof.
  unfold add_vertex, get_new_vertex_id. intros H. inv_ok.
  simplify_eq. simpl. tauto.
Qed.

(** The branch taken by a successful [get_edge_color]. *)
Lemma get_edge_color_Ok (g : Graph.t) (from to : Z) (c : Edge.Color) :
  get_edge_color g from to = Ok c ->
  exists df dt,
    vertex_depths_ g !! from = Some df /\
    vertex_depths_ g !! to = Some dt /\
    ((c = Edge.Green /\ from = to) \/
     (from <> to /\
      exists l, adjacency_list_ g !! to = Some l /\
        ((c = Edge.Grey /\ l = []) \/
         (l <> [] /\
          ((c = Edge.Yellow /\ dt - df = kDifferenceYellowEdge /\
            is_connected g from to = Ok false) \/
           (c = Edge.Red /\ dt - df = kDifferenceRedEdge)))))).
Proof.
  unfold get_edge_color. intros H. inv_ok.
  apply map_at_Ok in Hstep, Hstep0. exists a, a0. split; [done|]. split; [done|].
  destruct (Z.eqb_spec from to) as [->|Hne]; inv_ok; [left; auto|right].
  split; [done|]. inv_ok. apply map_at_Ok in Hstep1. exists a1. split; [done|].
  destruct a1 as [|e1 l1]; simpl in H; inv_ok; [left; auto|right].
  split; [done|]. inv_ok.
  destruct (Z.eqb_spec (a0 - a) kDifferenceYellowEdge) as [Hy|Hy]; inv_ok.
  - destruct a1; simpl in Hstep3; subst a2; simpl in H; inv_ok.
    + unfold kDifferenceYellowEdge, kDifferenceRedEdge in *.
      destruct (Z.eqb_spec (a0 - a) 2); [lia | discriminate].
    + left. auto.
  - subst a2.
    destruct (Z.eqb_spec (a0 - a) kDifferenceRedEdge); inv_ok. right. auto.
Qed.

(** What a successful [add_edge] did. *)
Lemma add_edge_Ok (g g' : Graph.t) (from to id : Z) :
  add_edge g from to = Ok (id, g') ->
  exists color adj1,
    has_vertex g from = true /\ has_vertex g to = true /\
    get_edge_color g from to = Ok color /\
    id = edge_id_counter_ g /\
    vertex_id_counter_ g' = vertex_id_counter_ g /\
    edge_id_counter_ g' = id + 1 /\
    vertices_ g' = vertices_ g /\
    edges_ g' = edges_ g ++ [Edge.mk id from to color] /\
    adj1 = (if negb (from =? id)
            then <[from := map_index (adjacency_list_ g) from ++ [id]]>
                   (adjacency_list_ g)
            else adjacency_list_ g) /\
    adjacency_list_ g' = <[to := map_index adj1 to ++ [id]]> adj1 /\
    ((color = Edge.Grey /\
      exists d, vertex_depths_ g !! from = Some d /\ d + 1 <= INT_MAX /\
        vertex_depths_ g' = <[to := d + 1]> (vertex_depths_ g) /\
        depth_to_vertices_ g' =
          depth_to_vertices_ (set_vertex_depth g to (d + 1))) \/
     (color <> Edge.Grey /\
      vertex_depths_ g' = vertex_depths_ g /\
      depth_to_vertices_ g' = depth_to_vertices_ g)).
Proof.
  unfold add_edge. intros H.
  destruct (has_vertex g from) eqn:Hf; simpl in H; [|discriminate].
  destruct (has_vertex g to) eqn:Ht; simpl in H; [|discriminate].
  inv_ok. exists a. eexists. split; [done|]. split; [done|]. split; [done|].
  unfold get_new_edge_id in Hstep1. inv_ok. subst z t0. simpl in *. subst g'.
  simpl.
  assert (Hfr : edge_id_counter_ a0 = edge_id_counter_ g /\
                vertex_id_counter_ a0 = vertex_id_counter_ g /\
                vertices_ a0 = vertices_ g /\ edges_ a0 = edges_ g /\
                adjacency_list_ a0 = adjacency_list_ g).
  { destruct a; simpl in Hstep0; inv_ok; subst a0; simpl; auto. }
  destruct Hfr as (He & -> & -> & -> & ->). rewrite He in *. subst id.
  do 5 (split; [reflexivity|]). split; [reflexivity|]. split; [reflexivity|].
  destruct a; simpl in Hstep0; inv_ok; subst a0;
    try (right; split; [discriminate | split; reflexivity]).
  left. split; [done|].
  match goal with
  | Hd : vertex_depth g from = Ok ?d |- _ => apply map_at_Ok in Hd; exists d
  end.
  simpl. repeat split; auto; lia.
Qed.

(** The adjacency lists after [add_edge]: the target's list is never
    empty, and no list shrinks. *)
Lemma add_edge_adjacency (adj adj1 : gmap Z (list Z)) (from to id : Z) (b : bool) :
  adj1 = (if b then <[from := map_index adj from ++ [id]]> adj else adj) ->
  is_Some (adj !! from) -> is_Some (adj !! to) ->
  let adj' := <[to := map_index adj1 to ++ [id]]> adj1 in
  (forall v, is_Some (adj' !! v) <-> is_Some (adj !! v)) /\
  (forall v, adj' !! v = Some [] -> adj !! v = Some [] /\ v <> to) /\
  (forall v l, adj !! v = Some l -> l <> [] ->
               exists l', adj' !! v = Some l' /\ l' <> []) /\
  (exists l', adj' !! to = Some l' /\ l' <> []).
Proof.
  intros -> Hf Ht adj'. subst adj'.
  assert (Hnil : forall (l : list Z), l ++ [id] <> []) by (by intros []).
  repeat split.
  - intros Hv. destruct (decide (to = v)) as [<-|Hne]; [done|].
    rewrite lookup_insert_ne in Hv by done. destruct b; [|done].
    destruct (decide (from = v)) as [<-|Hne']; [done|].
    by rewrite lookup_insert_ne in Hv.
  - intros Hv. destruct (decide (to = v)) as [<-|Hne].
    { rewrite lookup_insert_eq. eauto. }
    rewrite lookup_insert_ne by done. destruct b; [|done].
    destruct (decide (from = v)) as [<-|Hne'].
    { rewrite lookup_insert_eq. eauto. }
    by rewrite lookup_insert_ne.
  - destruct (decide (to = v)) as [<-|Hne].
    { rewrite lookup_insert_eq in H. injection H as H. by apply Hnil in H. }
    rewrite lookup_insert_ne in H by done. destruct b; [|done].
    destruct (decide (from = v)) as [<-|Hne'].
    { rewrite lookup_insert_eq in H. injection H as H. by apply Hnil in H. }
    by rewrite lookup_insert_ne in H.
  - intros ->. rewrite lookup_insert_eq in H. injection H as H.
    by apply Hnil in H.
  - intros v l Hv Hl. destruct (decide (to = v)) as [<-|Hne].
    { rewrite lookup_insert_eq. eauto. }
    rewrite lookup_insert_ne by done. destruct b; [|eauto].
    destruct (decide (from = v)) as [<-|Hne'].
    { rewrite lookup_insert_eq. eauto. }
    rewrite lookup_insert_ne by done. eauto.
  - rewrite lookup_insert_eq. eauto.
Qed.

Lemma wf_empty : wf Graph.empty.
Proof.
  split; simpl.
  - intros v [l Hl]. by rewrite lookup_empty in Hl.
  - intros v. rewrite !lookup_empty. done.
  - intros v d Hd. by rewrite lookup_empty in Hd.
  - intros v Hv. by rewrite lookup_empty in Hv.
  - intros e He. by apply elem_of_nil in He.
Qed.

Lemma wf_add_vertex (g g' : Graph.t) (id : Z) :
  wf g -> add_vertex g = Ok (id, g') -> wf g'.
Proof.
  intros [Hfresh Hdom Hpos Hleaf Hinc] H.
  apply add_vertex_Ok in H as (-> & Hc & _ & _ & He & Ha & Hd & _).
  split; rewrite ?Hc, ?He, ?Ha, ?Hd.
  - intros v. rewrite lookup_insert. case_decide; [lia|].
    intros Hv. apply Hfresh in Hv. lia.
  - intros v. rewrite !lookup_insert. case_decide; [|apply Hdom].
    split; eauto.
  - intros v d. rewrite lookup_insert. case_decide.
    + intros [= <-]. done.
    + apply Hpos.
  - intros v. rewrite !lookup_insert. case_decide; [done|apply Hleaf].
  - intros e Hin. destruct (Hinc e Hin) as (l & Hl & Hne).
    exists l. split; [|done]. rewrite lookup_insert_ne; [done|].
    intros Heq. assert (Hlt := Hfresh _ (mk_is_Some _ _ Hl)). lia.
Qed.

Lemma wf_add_edge (g g' : Graph.t) (from to id : Z) :
  wf g -> add_edge g from to = Ok (id, g') -> wf g'.
Proof.
  intros [Hfresh Hdom Hpos Hleaf Hinc] H.
  apply add_edge_Ok in H
    as (c & adj1 & Hf & Ht & Hc & -> & Hvc & _ & _ & He & Hadj1 & Ha & Hdep).
  apply has_vertex_true in Hf, Ht.
  destruct (add_edge_adjacency _ _ _ _ _ _ Hadj1 Hf Ht)
    as (Hsome & Hnil & Hgrow & Hto).
  rewrite <- Ha in Hsome, Hnil, Hgrow, Hto.
  assert (Hdom' : forall v, is_Some (vertex_depths_ g' !! v) <->
                            is_Some (vertex_depths_ g !! v)).
  { intros v. destruct Hdep as [(_ & d & _ & _ & -> & _)|(_ & -> & _)]; [|done].
    rewrite lookup_insert. case_decide; [subst v|done].
    split; [intros _; by apply Hdom | eauto]. }
  split.
  - intros v Hv. rewrite Hvc. apply Hfresh, Hsome, Hv.
  - intros v. rewrite Hdom', Hsome. apply Hdom.
  - intros v d.
    destruct Hdep as [(_ & d0 & Hd0 & _ & -> & _)|(_ & -> & _)]; [|apply Hpos].
    rewrite lookup_insert. case_decide; [|apply Hpos].
    intros [= <-]. apply Hpos in Hd0. unfold kBaseDepth in *. lia.
  - intros v Hv. apply Hnil in Hv as [Hv Hne]. apply Hleaf in Hv.
    destruct Hdep as [(_ & d0 & _ & _ & -> & _)|(_ & -> & _)]; [|done].
    by rewrite lookup_insert_ne.
  - intros e. rewrite He, elem_of_app, list_elem_of_singleton.
    intros [Hin| ->]; [|exact Hto].
    destruct (Hinc e Hin) as (l & Hl & Hne). eauto.
Qed.

Lemma wf_step (g g' : Graph.t) : wf g -> step g g' -> wf g'.
Proof.
  intros Hwf [id H|from to id H];
    eauto using wf_add_vertex, wf_add_edge.
Qed.

Lemma wf_steps (g g' : Graph.t) : wf g -> rtc step g g' -> wf g'.
Proof. intros Hwf Hs. induction Hs; eauto using wf_step. Qed.

Lemma reachable_wf (g : Graph.t) : reachable g -> wf g.
Proof. apply wf_steps, wf_empty. Qed.

Lemma step_edges_grow (g g' : Graph.t) (e : Edge.t) :
  step g g' -> e ∈ edges_ g -> e ∈ edges_ g'.
Proof.
  intros [id H|from to id H] He.
  - apply add_vertex_Ok in H as (_ & _ & _ & _ & -> & _). done.
  - apply add_edge_Ok in H as (c & adj1 & _ & _ & _ & _ & _ & _ & _ & -> & _).
    apply elem_of_app. by left.
Qed.

(** A vertex with an incident edge on record keeps its depth. *)
Lemma step_keeps_depth (g g' : Graph.t) (v : Z) (l : list Z) :
  wf g -> adjacency_list_ g !! v = Some l -> l <> [] -> step g g' ->
  vertex_depths_ g' !! v = vertex_depths_ g !! v.
Proof.
  intros Hwf Hl Hne [id H|from to id H].
  - apply add_vertex_Ok in H as (-> & _ & _ & _ & _ & _ & -> & _).
    rewrite lookup_insert_ne; [done|].
    intros Heq. assert (Hlt := wf_fresh _ Hwf _ (mk_is_Some _ _ Hl)). lia.
  - apply add_edge_Ok in H
      as (c & adj1 & _ & _ & Hc & _ & _ & _ & _ & _ & _ & _ & Hdep).
    destruct Hdep as [(-> & d & _ & _ & -> & _)|(_ & -> & _)]; [|done].
    apply get_edge_color_Ok in Hc as (df & dt & _ & _ & [[? _]|(_ & l0 & Hl0 & Hb)]);
      [discriminate|].
    destruct Hb as [[_ ->]|(_ & [(? & _)|(? & _)])]; try discriminate.
    rewrite lookup_insert_ne; [done|]. intros ->. congruence.
Qed.

Lemma incoming_grey_incident (g : Graph.t) (v : Z) :
  wf g -> has_incoming_grey g v ->
  exists l, adjacency_list_ g !! v = Some l /\ l <> [].
Proof. intros Hwf (e & He & <- & _). by apply wf_incident. Qed.

Lemma steps_keep_depth (g g' : Graph.t) (v : Z) :
  wf g -> has_incoming_grey g v -> rtc step g g' ->
  vertex_depths_ g' !! v = vertex_depths_ g !! v.
Proof.
  intros Hwf Hgrey Hs. induction Hs as [g|g g1 g' Hstep Hs IH]; [done|].
  destruct (incoming_grey_incident _ _ Hwf Hgrey) as (l & Hl & Hne).
  rewrite IH.
  - eapply step_keeps_depth; eauto.
  - eapply wf_step; eauto.
  - destruct Hgrey as (e & He & Hto & Hcol). exists e.
    eauto using step_edges_grow.
Qed.

(** Without a depth on record for both ends there is no colour. *)
Lemma get_edge_color_unknown_vertex (g : Graph.t) (from to : Z) :
  wf g ->
  has_vertex g from = false \/ has_vertex g to = false ->
  get_edge_color g from to = Err OutOfRange.
Proof.
  intros Hwf H.
  assert (Hnone : vertex_depths_ g !! from = None \/
                  vertex_depths_ g !! to = None).
  { destruct H as [H|H]; [left|right]; apply has_vertex_false in H;
      apply eq_None_not_Some; rewrite (wf_dom _ Hwf), H; by intros [? ?]. }
  unfold get_edge_color, map_at.
  destruct (vertex_depths_ g !! from) as [df|]; simpl; [|done].
  destruct Hnone as [Hn|Hn]; [discriminate|by rewrite Hn].
Qed.

(** What add_edge registers in from's adjacency list: the new id once
    unless [from = id], and once more when [from = to]. *)
Lemma add_edge_registers (g g' : Graph.t) (from to id : Z) (l : list Z) :
  add_edge g from to = Ok (id, g') ->
  adjacency_list_ g !! from = Some l ->
  adjacency_list_ g' !! from =
    Some (l ++ (if from =? id then [] else [id])
            ++ (if from =? to then [id] else [])).
Proof.
  intros H Hl.
  apply add_edge_Ok in H
    as (c & adj1 & _ & _ & _ & _ & _ & _ & _ & _ & -> & -> & _).
  unfold map_index.
  destruct (Z.eqb_spec from id) as [Hid|Hid]; simpl;
    destruct (Z.eqb_spec from to) as [<-|Hto]; simpl.
  - rewrite lookup_insert_eq, Hl. done.
  - rewrite lookup_insert_ne, Hl by done. simpl. by rewrite app_nil_r.
  - rewrite !lookup_insert_eq, Hl. simpl. by rewrite <- app_assoc.
  - rewrite lookup_insert_ne, lookup_insert_eq, Hl by done. done.
Qed.

Lemma incoming_grey_step (g g' : Graph.t) (v : Z) :
  step g g' -> has_incoming_grey g v -> has_incoming_grey g' v.
Proof. intros Hs (e & He & Hto & Hc). exists e. eauto using step_edges_grow. Qed.

Lemma incoming_grey_steps (g g' : Graph.t) (v : Z) :
  rtc step g g' -> has_incoming_grey g v -> has_incoming_grey g' v.
Proof. intros Hs. induction Hs; eauto using incoming_grey_step. Qed.

(** The effect of one add_edge call on the depth of a vertex: none, or
    the promotion of the target of a first incoming Grey edge. *)
Lemma add_edge_depth_change (g g' : Graph.t) (from to id v d : Z) :
  wf g ->
  add_edge g from to = Ok (id, g') ->
  vertex_depths_ g !! v = Some d ->
  vertex_depths_ g' !! v = Some d \/
  (v = to /\
   get_edge_color g from to = Ok Edge.Grey /\
   ~ has_incoming_grey g v /\
   has_incoming_grey g' v /\
   d = kBaseDepth /\
   exists df, vertex_depths_ g !! from = Some df /\
              vertex_depths_ g' !! v = Some (df + 1) /\
              d < df + 1).
Proof.
  intros Hwf H Hd.
  apply add_edge_Ok in H
    as (c & adj1 & _ & _ & Hc & _ & _ & _ & _ & He & _ & _ & Hdep).
  destruct Hdep as [(-> & d0 & Hd0 & _ & Hd' & _)|(_ & -> & _)]; [|by left].
  destruct (decide (to = v)) as [->|Hne].
  2:{ left. by rewrite Hd', lookup_insert_ne. }
  right. split; [done|]. split; [done|].
  apply get_edge_color_Ok in Hc
    as (df & dt & _ & _ & [[? _]|(_ & l0 & Hl0 & Hb)]); [discriminate|].
  destruct Hb as [[_ ->]|(_ & [(? & _)|(? & _)])]; try discriminate.
  assert (d = kBaseDepth) as ->.
  { apply (wf_leaf _ Hwf) in Hl0. congruence. }
  split.
  { intros Hgrey. apply (incoming_grey_incident _ _ Hwf) in Hgrey
      as (l & Hl & Hnil). congruence. }
  split.
  { exists (Edge.mk id from v Edge.Grey).
    split; [|done]. rewrite He, elem_of_app, list_elem_of_singleton.
    by right. }
  split; [done|]. exists d0. rewrite Hd', lookup_insert_eq.
  apply (wf_depth_pos _ Hwf) in Hd0 as Hpos. unfold kBaseDepth in *.
  repeat split; [done | lia].
Qed.

Lemma add_vertex_keeps_depth (g g' : Graph.t) (id v d : Z) :
  wf g ->
  add_vertex g = Ok (id, g') ->
  vertex_depths_ g !! v = Some d ->
  vertex_depths_ g' !! v = Some d.
Proof.
  intros Hwf H Hd.
  apply add_vertex_Ok in H as (-> & _ & _ & _ & _ & _ & -> & _).
  rewrite lookup_insert_ne; [done|].
  assert (Hlt : v < vertex_id_counter_ g).
  { apply (wf_fresh _ Hwf), (wf_dom _ Hwf). eauto. }
  lia.
Qed.

(** Over any number of calls a depth stays, or goes up from the base depth
    and the vertex has gained its incoming Grey edge. *)
Lemma steps_depth_monotone (g g' : Graph.t) (v d : Z) :
  wf g ->
  rtc step g g' ->
  vertex_depths_ g !! v = Some d ->
  exists d', vertex_depths_ g' !! v = Some d' /\
    (d' = d \/
     (d = kBaseDepth /\ d < d' /\
      ~ has_incoming_grey g v /\ has_incoming_grey g' v)).
Proof.
  intros Hwf Hs. revert d. induction Hs as [g|g g1 g' Hstep Hs IH]; intros d Hd.
  { exists d. auto. }
  assert (Hwf1 : wf g1) by eauto using wf_step.
  assert (Hone : vertex_depths_ g1 !! v = Some d \/
                 (d = kBaseDepth /\ ~ has_incoming_grey g v /\
                  has_incoming_grey g1 v /\
                  exists d1, vertex_depths_ g1 !! v = Some d1 /\ d < d1)).
  { destruct Hstep as [id H|from to id H].
    - left. eauto using add_vertex_keeps_depth.
    - destruct (add_edge_depth_change _ _ _ _ _ _ _ Hwf H Hd)
        as [?|(_ & _ & Hn & Hy & -> & df & _ & Hd1 & Hlt)]; [by left|].
      right. eauto 10. }
  destruct Hone as [Hd1|(-> & Hn & Hy & d1 & Hd1 & Hlt)].
  - destruct (IH Hwf1 d Hd1) as (d' & Hd' & [->|(-> & Hlt & Hn & Hy)]).
    + exists d. auto.
    + exists d'. split; [done|]. right. repeat split; [done| |done].
      intros Hg. apply Hn. eauto using incoming_grey_step.
  - exists d1. split.
    + by rewrite (steps_keep_depth g1 g' v).
    + right. eauto using incoming_grey_steps.
Qed.

(** Induction on the construction history, latest call last. *)
Lemma reachable_ind (P : Graph.t -> Prop) :
  P Graph.empty ->
  (forall g g', reachable g -> P g -> step g g' -> P g') ->
  forall g, reachable g -> P g.
Proof.
  intros H0 Hstep g Hg.
  cut (reachable g /\ P g); [tauto|].
  revert g Hg.
  apply (rtc_ind_r (R := step) (fun g => reachable g /\ P g) Graph.empty).
  - split; [apply rtc_refl | exact H0].
  - intros y z Hy Hyz [Hr HP]. split; [by eapply rtc_r | eauto].
Qed.

Lemma run_steps (cs : list call) (g g' : Graph.t) :
  run cs g = Ok g' -> rtc step g g'.
Proof.
  unfold run. revert g. induction cs as [|c cs IH]; simpl; intros g H.
  - injection H as ->. done.
  - inv_ok. apply rtc_l with a; [|by apply IH].
    destruct c; simpl in Hstep; inv_ok; subst;
      eauto using step_add_vertex, step_add_edge.
Qed.

Lemma built_reachable (cs : list call) : reachable (built cs).
Proof.
  unfold built, reachable. destruct (run cs Graph.empty) eqn:E; [|done].
  by apply run_steps in E.
Qed.

End GraphFacts.

(** ** The claims *)

Section Claims.
Import Graph.

(** C3. In every graph built by add_vertex and add_edge calls, a stored
    edge is Green if and only if it is a self-loop: its from vertex id
    equals its to vertex id. *)
Theorem green_iff_self_loop (g : Graph.t) (e : Edge.t) :
  reachable g -> e ∈ get_edges g ->
  Edge.color_ e = Edge.Green <->
  Edge.from_vertex_id_ e = Edge.to_vertex_id_ e.
Proof.
  unfold get_edges. intros Hg. revert e. revert g Hg.
  apply (reachable_ind (fun g => forall e, e ∈ edges_ g -> _ <-> _)).
  { simpl. intros e He. by apply elem_of_nil in He. }
  intros g1 g2 _ IH [id H|from to id H] e.
  - apply add_vertex_Ok in H as (_ & _ & _ & _ & -> & _). apply IH.
  - apply add_edge_Ok in H
      as (c & adj1 & _ & _ & Hc & _ & _ & _ & _ & -> & _).
    rewrite elem_of_app, list_elem_of_singleton. intros [He| ->]; [by apply IH|].
    simpl.
    apply get_edge_color_Ok in Hc as (df & dt & _ & _ & Hb).
    destruct Hb as [[-> ->]|(Hne & l & _ & Hb)]; [done|].
    destruct Hb as [[-> _]|(_ & [(-> & _)|(-> & _)])]; split; done.
Qed.

Lemma green_iff_self_loop_witness :
  let g := built [AddVertex; AddVertex; AddEdge 0 1; AddEdge 1 1] in
  Edge.color_ (Edge.mk 1 1 1 Edge.Green) = Edge.Green <->
  Edge.from_vertex_id_ (Edge.mk 1 1 1 Edge.Green) =
  Edge.to_vertex_id_ (Edge.mk 1 1 1 Edge.Green).
Proof.
  intros g. apply (green_iff_self_loop g).
  - apply built_reachable.
  - vm_compute. apply list_elem_of_further, list_elem_of_here.
Defined.

(** C10. In every graph built by add_vertex and add_edge calls, a vertex
    whose adjacency list is empty has the base depth 1. *)
Theorem isolated_vertex_has_base_depth (g : Graph.t) (v : VertexId) :
  reachable g ->
  has_vertex g v = true ->
  connected_edges_ids g v = Ok [] ->
  vertex_depth g v = Ok kBaseDepth.
Proof.
  intros Hg Hv Hadj. apply reachable_wf in Hg.
  unfold connected_edges_ids in Hadj. rewrite Hv in Hadj. simpl in Hadj.
  apply map_at_Ok in Hadj. apply map_at_Ok. by apply wf_leaf.
Qed.

Lemma isolated_vertex_has_base_depth_witness :
  vertex_depth (built [AddVertex; AddVertex; AddEdge 0 1]) 0 = Ok kBaseDepth.
Proof.
  apply isolated_vertex_has_base_depth.
  - apply built_reachable.
  - vm_compute. reflexivity.
  - vm_compute. reflexivity.
Defined.

(** C7. add_edge(from, to) with from or to not a vertex of the graph
    fails on its assertion and creates no edge; and on a built graph the
    colour computation that follows the assertions throws
    std::out_of_range for such a pair, so no edge is created either when
    the assertions are compiled out. *)
Theorem add_edge_unknown_vertex_fails (g : Graph.t) (from to : VertexId) :
  has_vertex g from = false \/ has_vertex g to = false ->
  add_edge g from to = Err AssertionFailed /\
  (reachable g -> get_edge_color g from to = Err OutOfRange).
Proof.
  intros H. split.
  - unfold add_edge. destruct H as [H|H].
    + by rewrite H.
    + rewrite H. simpl. by destruct (has_vertex g from).
  - intros Hg. by apply get_edge_color_unknown_vertex; [apply reachable_wf|].
Qed.

Lemma add_edge_unknown_vertex_fails_witness :
  add_edge (built [AddVertex]) 0 1 = Err AssertionFailed /\
  get_edge_color (built [AddVertex]) 0 1 = Err OutOfRange.
Proof.
  destruct (add_edge_unknown_vertex_fails (built [AddVertex]) 0 1) as [H1 H2].
  - right. vm_compute. reflexivity.
  - split; [exact H1 | apply H2, built_reachable].
Defined.

(** C8. An add_edge call whose computed colour is not Grey leaves the
    depth of every vertex and the contents of every depth bucket
    unchanged; after add_vertex(); add_edge(0,0) the edge is Green and
    vertex 0 still has depth 1. *)
Theorem non_grey_edge_keeps_depths (g g' : Graph.t) (from to id : Z)
        (c : Edge.Color) :
  get_edge_color g from to = Ok c ->
  c <> Edge.Grey ->
  add_edge g from to = Ok (id, g') ->
  (vertex_depths_ g' = vertex_depths_ g /\
   depth_to_vertices_ g' = depth_to_vertices_ g /\
   (forall v, vertex_depth g' v = vertex_depth g v) /\
   (forall d, get_vertices_with_depth g' d = get_vertices_with_depth g d) /\
   depth g' = depth g) /\
  (let g0 := built [AddVertex; AddEdge 0 0] in
   run [AddVertex; AddEdge 0 0] empty = Ok g0 /\
   get_edges g0 = [Edge.mk 0 0 0 Edge.Green] /\
   vertex_depth g0 0 = Ok 1).
Proof.
  intros Hc Hne H. split; [|by vm_compute].
  apply add_edge_Ok in H
    as (c' & adj1 & _ & _ & Hc' & _ & _ & _ & _ & _ & _ & _ & Hdep).
  assert (c' = c) as -> by congruence.
  destruct Hdep as [(? & _)|(_ & Hd & Hb)]; [done|].
  unfold vertex_depth, get_vertices_with_depth, depth. rewrite Hd, Hb. done.
Qed.

Lemma non_grey_edge_keeps_depths_witness :
  let g := built [AddVertex] in
  let g' := built [AddVertex; AddEdge 0 0] in
  vertex_depths_ g' = vertex_depths_ g /\
  depth_to_vertices_ g' = depth_to_vertices_ g.
Proof.
  intros g g'.
  destruct (non_grey_edge_keeps_depths g g' 0 0 0 Edge.Green)
    as [(Hd & Hb & _) _].
  - vm_compute. reflexivity.
  - discriminate.
  - vm_compute. reflexivity.
  - split; assumption.
Defined.

(** C2. In every graph built by add_vertex and add_edge calls: a vertex
    is created at the base depth 1, and creating it changes no other
    depth; an add_edge call either keeps a vertex's depth or it is the
    first incoming Grey edge of that vertex, whose depth then goes from 1
    up to from.depth + 1; once a vertex has an incoming Grey edge its depth
    is the same after any further calls; over any further calls a depth
    is never lowered, and changes only for a vertex at depth 1 that had no
    incoming Grey edge and has one afterwards; and every add_edge call
    whose colour is Grey does raise its target: the target had depth 1 and
    no incoming Grey edge, and after the call it has that Grey edge and
    the depth from.depth + 1 > 1, while a call of another colour gives no
    vertex its first incoming Grey edge. *)
Theorem depth_raised_at_most_once (g : Graph.t) :
  reachable g ->
  (forall id g',
      add_vertex g = Ok (id, g') ->
      vertex_depth g' id = Ok kBaseDepth /\
      has_vertex g id = false /\
      forall v, has_vertex g v = true -> vertex_depth g' v = vertex_depth g v) /\
  (forall from to id g' v d,
      add_edge g from to = Ok (id, g') ->
      vertex_depth g v = Ok d ->
      vertex_depth g' v = Ok d \/
      (v = to /\
       get_edge_color g from to = Ok Edge.Grey /\
       ~ has_incoming_grey g v /\
       has_incoming_grey g' v /\
       d = kBaseDepth /\
       exists df, vertex_depth g from = Ok df /\
                  vertex_depth g' v = Ok (df + 1) /\
                  d < df + 1)) /\
  (forall v g',
      has_incoming_grey g v ->
      rtc step g g' ->
      vertex_depth g' v = vertex_depth g v) /\
  (forall v d g',
      vertex_depth g v = Ok d ->
      rtc step g g' ->
      exists d', vertex_depth g' v = Ok d' /\
        (d' = d \/
         (d = kBaseDepth /\ d < d' /\
          ~ has_incoming_grey g v /\ has_incoming_grey g' v))) /\
  (forall from to id g',
      add_edge g from to = Ok (id, g') ->
      get_edge_color g from to = Ok Edge.Grey ->
      get_edges g' = get_edges g ++ [Edge.mk id from to Edge.Grey] /\
      vertex_depth g to = Ok kBaseDepth /\
      ~ has_incoming_grey g to /\
      has_incoming_grey g' to /\
      exists df, vertex_depth g from = Ok df /\
                 vertex_depth g' to = Ok (df + 1) /\
                 kBaseDepth < df + 1) /\
  (forall from to id g' c v,
      add_edge g from to = Ok (id, g') ->
      get_edge_color g from to = Ok c ->
      c <> Edge.Grey ->
      has_incoming_grey g' v -> has_incoming_grey g v).
Proof.
  intros Hg. apply reachable_wf in Hg as Hwf.
  split; [|split; [|split; [|split; [|split]]]].
  - intros id g' H.
    apply add_vertex_Ok in H as (-> & _ & _ & _ & _ & _ & Hd & _).
    unfold vertex_depth. rewrite Hd. split; [|split].
    + apply map_at_Ok, lookup_insert_eq.
    + apply has_vertex_false, eq_None_not_Some.
      intros Hs. apply (wf_fresh _ Hwf) in Hs. lia.
    + intros v Hv. apply has_vertex_true, (wf_fresh _ Hwf) in Hv.
      unfold map_at. rewrite lookup_insert_ne; [done|lia].
  - intros from to id g' v d H Hd. unfold vertex_depth in *.
    setoid_rewrite map_at_Ok. apply map_at_Ok in Hd.
    eauto using add_edge_depth_change.
  - intros v g' Hgrey Hs. unfold vertex_depth, map_at.
    by rewrite (steps_keep_depth g g' v).
  - intros v d g' Hd Hs. unfold vertex_depth in *.
    setoid_rewrite map_at_Ok. apply map_at_Ok in Hd.
    eauto using steps_depth_monotone.
  - intros from to id g' H Hc.
    assert (Hto : vertex_depths_ g !! to = Some kBaseDepth).
    { apply get_edge_color_Ok in Hc
        as (df & dt & _ & _ & [[? _]|(_ & l & Hl & Hbr)]); [discriminate|].
      destruct Hbr as [[_ ->]|(_ & [(? & _)|(? & _)])]; try discriminate.
      by apply (wf_leaf _ Hwf). }
    assert (He : get_edges g' = get_edges g ++ [Edge.mk id from to Edge.Grey]).
    { apply add_edge_Ok in H
        as (c & adj1 & _ & _ & Hc' & _ & _ & _ & _ & He & _).
      assert (c = Edge.Grey) as -> by congruence. exact He. }
    split; [exact He|]. unfold vertex_depth. setoid_rewrite map_at_Ok.
    split; [exact Hto|].
    destruct (add_edge_depth_change g g' from to id to kBaseDepth Hwf H Hto)
      as [Hsame|(_ & _ & Hn & Hy & _ & df & Hdf & Hd' & Hlt)].
    + exfalso. apply add_edge_Ok in H
        as (c & adj1 & _ & _ & Hc' & _ & _ & _ & _ & _ & _ & _ & Hdep).
      assert (c = Edge.Grey) as -> by congruence.
      destruct Hdep as [(_ & d0 & Hd0 & _ & Hd' & _)|(? & _)]; [|done].
      rewrite Hd', lookup_insert_eq in Hsame.
      apply (wf_depth_pos _ Hwf) in Hd0. unfold kBaseDepth in *.
      assert (d0 + 1 = 1) by congruence. lia.
    + split; [exact Hn|]. split; [exact Hy|]. exists df. auto.
  - intros from to id g' c v H Hc Hne (e & Hin & Hv & Hcol).
    apply add_edge_Ok in H
      as (c' & adj1 & _ & _ & Hc' & _ & _ & _ & _ & He & _).
    assert (c' = c) as -> by congruence.
    rewrite He, elem_of_app, list_elem_of_singleton in Hin.
    destruct Hin as [Hin| ->]; [by exists e|]. simpl in Hcol. congruence.
Qed.

Lemma depth_raised_at_most_once_witness :
  let g := built [AddVertex; AddVertex] in
  let g' := built [AddVertex; AddVertex; AddEdge 0 1] in
  vertex_depth g' 0 = Ok 1 /\
  vertex_depth g' 1 = Ok 2 /\
  vertex_depth (built [AddVertex; AddVertex; AddEdge 0 1; AddEdge 0 1]) 1 = Ok 2.
Proof.
  intros g g'.
  destruct (depth_raised_at_most_once g (built_reachable _)) as (_ & Hedge & _).
  destruct (depth_raised_at_most_once g' (built_reachable _)) as (_ & _ & Hfix & _).
  split; [|split].
  - destruct (Hedge 0 1 0 g' 0 1) as [H|(H & _)];
      [by vm_compute | by vm_compute | exact H | discriminate H].
  - destruct (Hedge 0 1 0 g' 1 1) as [H|(_ & _ & _ & _ & _ & df & Hdf & H & _)];
      [by vm_compute | by vm_compute | by vm_compute in H |].
    vm_compute in Hdf. injection Hdf as <-. exact H.
  - rewrite (Hfix 1).
    + by vm_compute.
    + exists (Edge.mk 0 0 1 Edge.Grey). split; [|done].
      vm_compute. apply list_elem_of_here.
    + apply (run_steps [AddEdge 0 1]). by vm_compute.
Defined.

(** C5, as the code has it. get_vertices_with_depth and
    connected_edges_ids return a sequence for every argument, the empty
    one for an unknown key (depth(), get_vertices() and get_edges() read a
    field and have no failure path); vertex_depth returns the recorded
    depth for every vertex of a built graph and throws std::out_of_range
    for an id that is not a vertex. *)
Theorem read_accessors_total_except_vertex_depth (g : Graph.t) :
  (forall d, exists l,
      get_vertices_with_depth g d = Ok l /\
      (depth_to_vertices_ g !! d = None -> l = [])) /\
  (forall id, exists l,
      connected_edges_ids g id = Ok l /\
      (has_vertex g id = false -> l = [])) /\
  (reachable g ->
   forall id,
     (has_vertex g id = true -> exists d, vertex_depth g id = Ok d) /\
     (has_vertex g id = false -> vertex_depth g id = Err OutOfRange)).
Proof.
  split; [|split].
  - intros d. unfold get_vertices_with_depth, map_at.
    destruct (depth_to_vertices_ g !! d) as [l|] eqn:E.
    + exists l. rewrite bool_decide_eq_true_2 by eauto. split; [done|].
      discriminate.
    + exists []. rewrite bool_decide_eq_false_2; [done|].
      intros [? ?]; discriminate.
  - intros id. unfold connected_edges_ids, map_at.
    destruct (has_vertex g id) eqn:E; simpl.
    + apply has_vertex_true in E as [l Hl]. rewrite Hl. exists l.
      split; [done|discriminate].
    + by exists [].
  - intros Hg id. apply reachable_wf in Hg as Hwf.
    unfold vertex_depth. split; intros Hv.
    + apply has_vertex_true, (wf_dom _ Hwf) in Hv as [d Hd].
      exists d. by apply map_at_Ok.
    + apply map_at_Err. split; [|done].
      apply has_vertex_false in Hv. apply eq_None_not_Some.
      rewrite (wf_dom _ Hwf), Hv. by intros [? ?].
Qed.

Lemma read_accessors_total_except_vertex_depth_witness :
  let g := built [AddVertex; AddVertex; AddEdge 0 1] in
  (exists d, vertex_depth g 1 = Ok d) /\ vertex_depth g 2 = Err OutOfRange.
Proof.
  intros g.
  destruct (read_accessors_total_except_vertex_depth g) as (_ & _ & H).
  split.
  - apply (H (built_reachable _) 1). by vm_compute.
  - apply (H (built_reachable _) 2). by vm_compute.
Defined.

(** C5, as stated, fails: vertex_depth of an id that is not in the graph
    does not return a depth. *)
Lemma vertex_depth_unknown_id_throws :
  vertex_depth (built [AddVertex]) 7 = Err OutOfRange /\
  ~ (forall (g : Graph.t) (id : VertexId), exists d, vertex_depth g id = Ok d).
Proof.
  split; [by vm_compute|].
  intros H. destruct (H (built [AddVertex]) 7) as [d Hd].
  vm_compute in Hd. discriminate Hd.
Qed.

(** C1, on the code. add_edge guards the registration in from's list by
    [from_vertex_id != edge_id], not by [from_vertex_id != to_vertex_id]
    (see [add_edge_registers]): the edge 0 -> 1 with id 0 is missing from
    vertex 0's list, and the second self-loop on vertex 0 (id 1) is
    registered twice. A run of generate() shows the same: the Grey edges
    0 -> 1 (id 0) and 1 -> 2 (id 1) are missing from the lists of vertices
    0 and 1. *)
Theorem add_edge_registration_compares_edge_id :
  (run [AddVertex; AddVertex; AddEdge 0 1] empty
   = Ok (built [AddVertex; AddVertex; AddEdge 0 1]) /\
   connected_edges_ids (built [AddVertex; AddVertex; AddEdge 0 1]) 0 = Ok [] /\
   connected_edges_ids (built [AddVertex; AddVertex; AddEdge 0 1]) 1 = Ok [0]) /\
  (run [AddVertex; AddEdge 0 0; AddEdge 0 0] empty
   = Ok (built [AddVertex; AddEdge 0 0; AddEdge 0 0]) /\
   connected_edges_ids (built [AddVertex; AddEdge 0 0; AddEdge 0 0]) 0
   = Ok [0; 1; 1]) /\
  (exists g,
      GraphGenerator.generate scripted_bernoulli lowest_uniform
                              (GraphGenerator.Params.mk 3 1) chain_script
      = Ok (g, []) /\
      get_edges g = [Edge.mk 0 0 1 Edge.Grey; Edge.mk 1 1 2 Edge.Grey;
                     Edge.mk 2 1 2 Edge.Yellow] /\
      connected_edges_ids g 0 = Ok [] /\
      connected_edges_ids g 1 = Ok [0; 2] /\
      connected_edges_ids g 2 = Ok [1; 2]).
Proof.
  split; [by vm_compute|]. split; [by vm_compute|].
  eexists. split; [by vm_compute|]. by vm_compute.
Qed.

(** C4, on the code. After add_vertex(); add_vertex(); add_edge(0,1) the
    edge 0 -> 1 is stored but absent from vertex 0's adjacency list, so
    is_connected(0,1) is false and a second add_edge(0,1) is stored
    Yellow although an edge already joins 0 and 1. A run of generate()
    does the same with the Grey edge 1 -> 2 and a Yellow edge 1 -> 2. *)
Theorem yellow_edge_joins_connected_vertices :
  let g := built [AddVertex; AddVertex; AddEdge 0 1] in
  run [AddVertex; AddVertex; AddEdge 0 1] empty = Ok g /\
  joined g 0 1 /\
  vertex_depth g 0 = Ok 1 /\ vertex_depth g 1 = Ok 2 /\
  is_connected g 0 1 = Ok false /\
  get_edge_color g 0 1 = Ok Edge.Yellow /\
  (exists g', add_edge g 0 1 = Ok (1, g') /\
              get_edges g' = [Edge.mk 0 0 1 Edge.Grey; Edge.mk 1 0 1 Edge.Yellow]) /\
  (exists g',
      GraphGenerator.generate scripted_bernoulli lowest_uniform
                              (GraphGenerator.Params.mk 3 1) chain_script
      = Ok (g', []) /\
      get_edges g' = [Edge.mk 0 0 1 Edge.Grey; Edge.mk 1 1 2 Edge.Grey;
                      Edge.mk 2 1 2 Edge.Yellow]).
Proof.
  intros g. split; [by vm_compute|]. split.
  { exists (Edge.mk 0 0 1 Edge.Grey). split; [|by left].
    vm_compute. apply list_elem_of_here. }
  do 4 (split; [by vm_compute|]).
  split.
  { eexists. split; by vm_compute. }
  eexists. split; by vm_compute.
Qed.

End Claims.

Section GeneratorClaims.
Import Graph GraphGenerator.

Context {RNG : Type}.
Variable bernoulli_distribution : double -> RNG -> bool * RNG.
Variable uniform_int_distribution : Z -> Z -> RNG -> Z * RNG.

(** C9. For every new_vertices_per_step, generate() with target depth 0
    returns, whatever the random draws, the empty graph: no vertices, no
    edges, and depth() = 0. *)
Theorem generate_depth_zero_is_empty (new_vertices_count : Z) (rng : RNG) :
  exists g,
    generate bernoulli_distribution uniform_int_distribution
             (Params.mk 0 new_vertices_count) rng = Ok (g, rng) /\
    get_vertices g = [] /\ get_edges g = [] /\ Graph.depth g = 0.
Proof. exists Graph.empty. by vm_compute. Qed.

(** C6, on the code. The guard of probaility_generate_grey_edge tests
    [graph_depth == 0], not [graph_depth == 1]: with target depth 1 the
    quotient is 0.0 / 0 and the probability is NaN, not 1.0, and that NaN
    is the parameter of the Bernoulli trial of try_generate_grey_edge,
    outside the range [0, 1] the distribution requires: the trial is
    undefined behaviour. *)
Theorem grey_probability_single_layer_is_nan :
  probaility_generate_grey_edge 1 1 = Ok S754_nan /\
  probaility_generate_grey_edge 1 1 <> Ok double_one /\
  forall (new_vertices_count : Z) (g : Graph.t) (rng : RNG) (v : VertexId),
    try_generate_grey_edge bernoulli_distribution
                           (Params.mk 1 new_vertices_count) (g, rng) 1 v
    = (let* (success, rng') :=
         check_probability bernoulli_distribution S754_nan rng in
       if success then
         let* (next_vertex_id, g1) := add_vertex g in
         let* (_, g2) := add_edge g1 v next_vertex_id in
         Ok (g2, rng')
       else Ok (g, rng')) /\
    check_probability bernoulli_distribution S754_nan rng
    = Err UndefinedBehaviour /\
    try_generate_grey_edge bernoulli_distribution
                           (Params.mk 1 new_vertices_count) (g, rng) 1 v
    = Err UndefinedBehaviour.
Proof.
  split; [by vm_compute|]. split; [by vm_compute|].
  intros n g rng v. split; [reflexivity|]. split; reflexivity.
Qed.

(** The trial above is reached: with target depth 1 and one vertex per
    step, the grey phase of generate() on the seeded root is that trial. *)
Lemma grey_phase_single_layer (rng : RNG) :
  generate_grey_edges bernoulli_distribution (Params.mk 1 1)
                      (built [AddVertex], rng)
  = try_generate_grey_edge bernoulli_distribution (Params.mk 1 1)
                           (built [AddVertex], rng) 1 0.
Proof.
  unfold generate_grey_edges.
  change (seqZ kBaseDepth (Params.depth (Params.mk 1 1))) with [1].
  cbn [generate_grey_edges_loop].
  change (get_vertices_with_depth (built [AddVertex], rng).1 1) with (Ok [0]).
  change (Graph.depth (built [AddVertex], rng).1) with 1.
  cbn [bind Z.eqb Pos.eqb negb for_each Params.new_vertices_count
       Params.new_vertices_count_].
  change (Z.to_nat 1) with 1%nat. change (int_checked (1 + 1)) with (Ok 2).
  cbn [repeat_n].
  destruct (try_generate_grey_edge _ _ _ _ _) as [[g r]|e]; reflexivity.
Qed.

End GeneratorClaims.

(** ** Further properties of the graph *)

Section GraphInvariants.
Import Graph.

Lemma ids_inv_empty : ids_inv Graph.empty.
Proof.
  split; simpl.
  - unfold INT_MAX. lia.
  - done.
  - intros v. rewrite lookup_empty. split; [by intros [? ?]|lia].
  - unfold INT_MAX. lia.
  - intros i e H. by rewrite lookup_nil in H.
Qed.

Lemma ids_inv_add_vertex (g g' : Graph.t) (id : Z) :
  ids_inv g -> add_vertex g = Ok (id, g') -> ids_inv g'.
Proof.
  intros [Hc Hv Ha Hec He] H.
  assert (Hmax : id + 1 <= INT_MAX).
  { unfold add_vertex, get_new_vertex_id in H. inv_ok. simplify_eq. lia. }
  apply add_vertex_Ok in H as (-> & Hc' & Hec' & Hv' & He' & Ha' & _).
  split; rewrite ?Hc', ?Hec', ?Hv', ?He', ?Ha'.
  - lia.
  - rewrite seqZ_app, fmap_app, <- Hv by lia.
    rewrite seqZ_cons, seqZ_nil by lia. done.
  - intros v. rewrite lookup_insert. case_decide.
    + subst v. split; [lia|eauto].
    + rewrite Ha. lia.
  - done.
  - intros i e Hi. destruct (He i e Hi) as (? & Hf & Ht). split; [done|].
    rewrite !lookup_insert. split; case_decide; eauto.
Qed.

Lemma ids_inv_add_edge (g g' : Graph.t) (from to id : Z) :
  ids_inv g -> add_edge g from to = Ok (id, g') -> ids_inv g'.
Proof.
  intros [Hc Hv Ha [Hlen Hec] He] H.
  assert (Hmax : id + 1 <= INT_MAX).
  { unfold add_edge in H.
    destruct (has_vertex g from); simpl in H; [|discriminate].
    destruct (has_vertex g to); simpl in H; [|discriminate].
    unfold get_new_edge_id in H. inv_ok. simplify_eq. lia. }
  apply add_edge_Ok in H
    as (c & adj1 & Hf & Ht & _ & -> & Hc' & Hec' & Hv' & He' & Hadj1 & Ha' & _).
  apply has_vertex_true in Hf, Ht.
  destruct (add_edge_adjacency _ _ _ _ _ _ Hadj1 Hf Ht) as (Hsome & _).
  rewrite <- Ha' in Hsome.
  split; rewrite ?Hc', ?Hec', ?Hv', ?He'.
  - done.
  - done.
  - intros v. rewrite Hsome. apply Ha.
  - rewrite length_app. simpl. split; lia.
  - intros i e Hi. apply lookup_snoc_Some in Hi as [[Hlt Hi]|[Hi <-]].
    + destruct (He i e Hi) as (? & Hf' & Ht'). by rewrite !Hsome.
    + simpl. rewrite !Hsome. split; [lia|done].
Qed.

Lemma reachable_ids_inv (g : Graph.t) : reachable g -> ids_inv g.
Proof.
  revert g. apply reachable_ind; [apply ids_inv_empty|].
  intros g g' _ IH [id H|from to id H];
    eauto using ids_inv_add_vertex, ids_inv_add_edge.
Qed.

Lemma vector_index_Ok {A : Type} (v : list A) (i : Z) (a : A) :
  vector_index v i = Ok a <-> 0 <= i /\ v !! Z.to_nat i = Some a.
Proof.
  unfold vector_index. destruct (Z.ltb_spec i 0).
  - split; [discriminate|lia].
  - destruct (v !! Z.to_nat i); split; try intros [_ ?]; try congruence.
    intros [= ->]. auto.
Qed.

Lemma vector_index_app {A : Type} (v w : list A) (i : Z) (a : A) :
  vector_index v i = Ok a -> vector_index (v ++ w) i = Ok a.
Proof.
  rewrite !vector_index_Ok. intros [? Hi]. split; [done|].
  by apply lookup_app_l_Some.
Qed.

Lemma vector_index_snoc {A : Type} (v : list A) (a : A) :
  vector_index (v ++ [a]) (Z.of_nat (length v)) = Ok a.
Proof.
  apply vector_index_Ok. split; [lia|].
  rewrite Nat2Z.id. apply list_lookup_middle. done.
Qed.

(** The members of the adjacency lists after [add_edge]: the old ones, and
    the new id in the lists of the two ends only. *)
Lemma add_edge_adjacency_elems
      (adj adj1 : gmap Z (list Z)) (from to id : Z) (b : bool) :
  adj1 = (if b then <[from := map_index adj from ++ [id]]> adj else adj) ->
  let adj' := <[to := map_index adj1 to ++ [id]]> adj1 in
  (forall v l' x, adj' !! v = Some l' -> x ∈ l' ->
     (x = id /\ (v = from \/ v = to)) \/
     (exists l, adj !! v = Some l /\ x ∈ l)) /\
  (forall v l x, adj !! v = Some l -> x ∈ l ->
     exists l', adj' !! v = Some l' /\ x ∈ l') /\
  (exists l', adj' !! to = Some l' /\ id ∈ l').
Proof.
  intros -> adj'. subst adj'.
  assert (H1 : forall v l' x,
             (if b then <[from := map_index adj from ++ [id]]> adj else adj) !! v
             = Some l' -> x ∈ l' ->
             (x = id /\ v = from) \/ (exists l, adj !! v = Some l /\ x ∈ l)).
  { intros v l' x. destruct b; [|eauto].
    rewrite lookup_insert. case_decide; [|eauto]. subst v.
    intros [= <-]. rewrite elem_of_app, list_elem_of_singleton.
    intros [Hx|Hx]; [|auto]. right. unfold map_index in Hx.
    destruct (adj !! from) as [l|]; simpl in Hx; [eauto|].
    by apply elem_of_nil in Hx. }
  assert (H2 : forall v l x, adj !! v = Some l -> x ∈ l ->
             exists l',
               (if b then <[from := map_index adj from ++ [id]]> adj else adj) !! v
               = Some l' /\ x ∈ l').
  { intros v l x Hv Hx. destruct b; [|eauto].
    rewrite lookup_insert. case_decide; [|eauto]. subst v.
    eexists. split; [done|]. unfold map_index. rewrite Hv. simpl.
    apply elem_of_app. by left. }
  split; [|split].
  - intros v l' x. rewrite lookup_insert. case_decide; [|].
    + subst v. intros [= <-]. rewrite elem_of_app, list_elem_of_singleton.
      intros [Hx|Hx]; [|auto]. unfold map_index in Hx.
      destruct (_ !! to) as [l1|] eqn:E; simpl in Hx;
        [|by apply elem_of_nil in Hx].
      destruct (H1 _ _ _ E Hx) as [[-> ->]|?]; auto.
    + intros Hv Hx. destruct (H1 _ _ _ Hv Hx) as [[-> ->]|?]; auto.
  - intros v l x Hv Hx. destruct (H2 _ _ _ Hv Hx) as (l1 & Hl1 & Hx1).
    rewrite lookup_insert. case_decide; [|eauto]. subst v.
    eexists. split; [done|]. unfold map_index in *. rewrite Hl1. simpl.
    apply elem_of_app. by left.
  - rewrite lookup_insert_eq. eexists. split; [done|].
    apply elem_of_app. right. by apply list_elem_of_singleton.
Qed.

Lemma adj_inv_empty : adj_inv Graph.empty.
Proof.
  split; simpl.
  - intros v l id H. by rewrite lookup_empty in H.
  - intros e H. by apply elem_of_nil in H.
Qed.

Lemma adj_inv_add_vertex (g g' : Graph.t) (id : Z) :
  wf g -> adj_inv g -> add_vertex g = Ok (id, g') -> adj_inv g'.
Proof.
  intros Hwf [Hs Ht] H.
  apply add_vertex_Ok in H as (-> & _ & _ & _ & He & Ha & _).
  split; rewrite ?He, ?Ha.
  - intros v l x. rewrite lookup_insert. case_decide; [|apply Hs].
    intros [= <-] Hx. by apply elem_of_nil in Hx.
  - intros e Hin. destruct (Ht e Hin) as (l & Hl & Hx).
    exists l. split; [|done]. rewrite lookup_insert_ne; [done|].
    intros Heq. assert (Hlt := wf_fresh _ Hwf _ (mk_is_Some _ _ Hl)). lia.
Qed.

Lemma adj_inv_add_edge (g g' : Graph.t) (from to id : Z) :
  ids_inv g -> adj_inv g -> add_edge g from to = Ok (id, g') -> adj_inv g'.
Proof.
  intros Hids [Hs Ht] H.
  apply add_edge_Ok in H
    as (c & adj1 & _ & _ & _ & Hid & _ & _ & _ & He & Hadj1 & Ha & _).
  destruct (add_edge_adjacency_elems _ _ from to id _ Hadj1)
    as (Hnew & Hold & Hto).
  rewrite <- Ha in Hnew, Hold, Hto.
  assert (Hlen : id = Z.of_nat (length (edges_ g))).
  { destruct (ids_edge_counter _ Hids). lia. }
  split; rewrite ?He.
  - intros v l' x Hv Hx.
    destruct (Hnew _ _ _ Hv Hx) as [[-> Hends]|(l & Hl & Hxl)].
    + eexists. split; [rewrite Hlen; apply vector_index_snoc|]. simpl.
      split; [done|]. destruct Hends; auto.
    + destruct (Hs _ _ _ Hl Hxl) as (e & Hidx & Hinc).
      exists e. split; [by apply vector_index_app|done].
  - intros e. rewrite elem_of_app, list_elem_of_singleton. intros [Hin| ->].
    + destruct (Ht e Hin) as (l & Hl & Hx). eauto.
    + simpl. exact Hto.
Qed.

Lemma reachable_adj_inv (g : Graph.t) : reachable g -> adj_inv g.
Proof.
  revert g. apply reachable_ind; [apply adj_inv_empty|].
  intros g g' Hg IH [id H|from to id H].
  - eauto using adj_inv_add_vertex, reachable_wf.
  - eauto using adj_inv_add_edge, reachable_ids_inv.
Qed.

Lemma elem_of_erase_first (x y : Z) (l : list Z) :
  NoDup l -> x ∈ erase_first y l <-> x ∈ l /\ x <> y.
Proof.
  induction l as [|z l IH]; simpl; intros Hnd.
  - split; [intros H|intros [H _]]; by apply elem_of_nil in H.
  - apply NoDup_cons in Hnd as [Hz Hnd]. destruct (Z.eqb_spec z y) as [->|Hne].
    + rewrite elem_of_cons. split.
      * intros Hx. split; [auto|]. by intros ->.
      * intros [[?|?] ?]; done.
    + rewrite !elem_of_cons, IH by done. split.
      * intros [->|[? ?]]; auto.
      * intros [[->|?] ?]; auto.
Qed.

Lemma NoDup_erase_first (y : Z) (l : list Z) :
  NoDup l -> NoDup (erase_first y l).
Proof.
  induction l as [|z l IH]; simpl; intros Hnd; [done|].
  apply NoDup_cons in Hnd as [Hz Hnd]. destruct (Z.eqb_spec z y); [done|].
  apply NoDup_cons. split; [|auto].
  rewrite elem_of_erase_first by done. tauto.
Qed.

Lemma erase_first_absent (y : Z) (l : list Z) :
  y ∉ l -> erase_first y l = l.
Proof.
  induction l as [|z l IH]; simpl; intros Hy; [done|].
  apply not_elem_of_cons in Hy as [Hne Hy].
  destruct (Z.eqb_spec z y); [congruence|]. by rewrite IH.
Qed.

Lemma bucket_inv_empty : bucket_inv Graph.empty.
Proof.
  split; simpl.
  - intros d l H. by rewrite lookup_empty in H.
  - intros v d. rewrite lookup_empty. split; [done|].
    intros (l & H & _). by rewrite lookup_empty in H.
Qed.

Lemma bucket_inv_add_vertex (g g' : Graph.t) (id : Z) :
  wf g -> bucket_inv g -> add_vertex g = Ok (id, g') -> bucket_inv g'.
Proof.
  intros Hwf [Hnd Hbd] H.
  apply add_vertex_Ok in H as (-> & _ & _ & _ & _ & _ & Hd & Hb).
  set (id := vertex_id_counter_ g) in *.
  assert (Hfresh : vertex_depths_ g !! id = None).
  { apply eq_None_not_Some. intros Hs.
    apply (wf_dom _ Hwf), (wf_fresh _ Hwf) in Hs. lia. }
  assert (Hout : forall d l, depth_to_vertices_ g !! d = Some l -> id ∉ l).
  { intros d l Hl Hin. assert (vertex_depths_ g !! id = Some d) by (apply Hbd; eauto).
    congruence. }
  set (l0 := map_index (depth_to_vertices_ g) kBaseDepth) in *.
  assert (Hl0 : NoDup l0 /\ (id ∉ l0) /\
                forall v, v ∈ l0 <-> vertex_depths_ g !! v = Some kBaseDepth).
  { unfold l0, map_index.
    destruct (depth_to_vertices_ g !! kBaseDepth) as [l|] eqn:E; simpl.
    - split; [eauto|]. split; [eauto|]. intros v. rewrite Hbd, E.
      split; [eauto|]. by intros (? & [= <-] & ?).
    - split; [constructor|]. split; [apply not_elem_of_nil|].
      intros v. rewrite Hbd, E. split.
      + intros Hv. by apply elem_of_nil in Hv.
      + by intros (? & ? & ?). }
  destruct Hl0 as (Hnd0 & Hid0 & Hmem0).
  split; rewrite ?Hd, ?Hb.
  - intros d l. rewrite lookup_insert. case_decide; [|apply Hnd].
    intros [= <-]. apply NoDup_app. repeat split; [done| |apply NoDup_singleton].
    intros x Hx Hx'. apply list_elem_of_singleton in Hx'. by subst x.
  - intros v d. rewrite lookup_insert. case_decide as Hv.
    + subst v. split.
      * intros [= <-]. exists (l0 ++ [id]). rewrite lookup_insert_eq.
        split; [done|]. apply elem_of_app. right. by apply list_elem_of_singleton.
      * intros (l & Hl & Hin). rewrite lookup_insert in Hl. case_decide as Hk.
        { by rewrite Hk. }
        by apply Hout in Hl.
    + destruct (decide (kBaseDepth = d)) as [<-|Hk].
      * rewrite <- Hmem0. split.
        { intros Hin. exists (l0 ++ [id]). rewrite lookup_insert_eq.
          split; [done|]. apply elem_of_app. by left. }
        { intros (l & Hl & Hin). rewrite lookup_insert_eq in Hl.
          injection Hl as <-. apply elem_of_app in Hin as [?|Hin]; [done|].
          apply list_elem_of_singleton in Hin. congruence. }
      * rewrite Hbd. by setoid_rewrite lookup_insert_ne.
Qed.

(** [set_vertex_depth] moves a vertex of the base depth into the bucket of
    its new depth. *)
Lemma bucket_inv_set_vertex_depth (g : Graph.t) (v dn : Z) :
  bucket_inv g ->
  vertex_depths_ g !! v = Some kBaseDepth ->
  dn <> kBaseDepth ->
  bucket_inv (set_vertex_depth g v dn).
Proof.
  intros [Hnd Hbd] Hv Hdn.
  destruct (proj1 (Hbd v kBaseDepth) Hv) as (l1 & Hl1 & Hin1).
  set (ldn := map_index (depth_to_vertices_ g) dn).
  assert (Hldn : NoDup ldn /\ (v ∉ ldn) /\
                 forall u, u ∈ ldn <-> vertex_depths_ g !! u = Some dn).
  { unfold ldn, map_index.
    destruct (depth_to_vertices_ g !! dn) as [l|] eqn:E; simpl.
    - split; [eauto|]. split.
      + intros Hin. assert (vertex_depths_ g !! v = Some dn) by (apply Hbd; eauto).
        congruence.
      + intros u. rewrite Hbd, E. split; [eauto|]. by intros (? & [= <-] & ?).
    - split; [constructor|]. split; [apply not_elem_of_nil|].
      intros u. rewrite Hbd, E. split.
      + intros Hu. by apply elem_of_nil in Hu.
      + by intros (? & ? & ?). }
  destruct Hldn as (Hnddn & Hvdn & Hmemdn).
  assert (Hbase : map_index (<[dn := ldn ++ [v]]> (depth_to_vertices_ g))
                            kBaseDepth = l1).
  { unfold map_index. by rewrite lookup_insert_ne, Hl1. }
  split; unfold set_vertex_depth; simpl; fold ldn; rewrite Hbase.
  - intros d l. rewrite lookup_insert. case_decide.
    { intros [= <-]. apply NoDup_erase_first. eauto. }
    rewrite lookup_insert. case_decide; [|apply Hnd].
    intros [= <-]. apply NoDup_app. repeat split; [done| |apply NoDup_singleton].
    intros x Hx Hx'. apply list_elem_of_singleton in Hx'. by subst x.
  - intros u d. rewrite lookup_insert. case_decide as Hu.
    + subst u. split.
      * intros [= <-]. exists (ldn ++ [v]).
        rewrite lookup_insert_ne, lookup_insert_eq by done.
        split; [done|]. apply elem_of_app. right. by apply list_elem_of_singleton.
      * intros (l & Hl & Hin). rewrite lookup_insert in Hl. case_decide as H1.
        { injection Hl as <-. apply elem_of_erase_first in Hin; [|eauto].
          by destruct Hin. }
        rewrite lookup_insert in Hl. case_decide as H2; [by rewrite H2|].
        assert (vertex_depths_ g !! v = Some d) by (apply Hbd; eauto).
        congruence.
    + destruct (decide (kBaseDepth = d)) as [<-|H1].
      * rewrite Hbd, Hl1. split.
        { intros (? & [= <-] & Hin). eexists. rewrite lookup_insert_eq.
          split; [done|]. apply elem_of_erase_first; eauto. }
        { intros (l & Hl & Hin). rewrite lookup_insert_eq in Hl.
          injection Hl as <-. apply elem_of_erase_first in Hin; [|eauto].
          exists l1. tauto. }
      * destruct (decide (dn = d)) as [<-|H2].
        { rewrite <- Hmemdn. split.
          - intros Hin. exists (ldn ++ [v]).
            rewrite lookup_insert_ne, lookup_insert_eq by done.
            split; [done|]. apply elem_of_app. by left.
          - intros (l & Hl & Hin).
            rewrite lookup_insert_ne, lookup_insert_eq in Hl by done.
            injection Hl as <-. apply elem_of_app in Hin as [?|Hin]; [done|].
            apply list_elem_of_singleton in Hin. congruence. }
        rewrite Hbd. split; intros (l & Hl & Hin); exists l.
        { by rewrite !lookup_insert_ne. }
        { by rewrite !lookup_insert_ne in Hl. }
Qed.

Lemma bucket_inv_add_edge (g g' : Graph.t) (from to id : Z) :
  wf g -> bucket_inv g -> add_edge g from to = Ok (id, g') -> bucket_inv g'.
Proof.
  intros Hwf Hb H.
  apply add_edge_Ok in H
    as (c & adj1 & _ & _ & Hc & _ & _ & _ & _ & _ & _ & _ & Hdep).
  destruct Hdep as [(-> & d0 & Hd0 & _ & Hd' & Hb')|(_ & Hd' & Hb')].
  - apply get_edge_color_Ok in Hc
      as (df & dt & _ & _ & [[? _]|(_ & l0 & Hl0 & Hbr)]); [discriminate|].
    destruct Hbr as [[_ ->]|(_ & [(? & _)|(? & _)])]; try discriminate.
    apply (wf_leaf _ Hwf) in Hl0. apply (wf_depth_pos _ Hwf) in Hd0 as Hpos.
    assert (Hinv : bucket_inv (set_vertex_depth g to (d0 + 1))).
    { apply bucket_inv_set_vertex_depth; [done|done|].
      unfold kBaseDepth in *. lia. }
    destruct Hinv as [Hnd Hbd]. split.
    + intros d l. rewrite Hb'. apply Hnd.
    + intros v d. rewrite Hb', Hd'. apply Hbd.
  - destruct Hb as [Hnd Hbd]. split.
    + intros d l. rewrite Hb'. apply Hnd.
    + intros v d. rewrite Hb', Hd'. apply Hbd.
Qed.

Lemma reachable_bucket_inv (g : Graph.t) : reachable g -> bucket_inv g.
Proof.
  revert g. apply reachable_ind; [apply bucket_inv_empty|].
  intros g g' Hg IH [id H|from to id H];
    eauto using bucket_inv_add_vertex, bucket_inv_add_edge, reachable_wf.
Qed.

(** Writing a key between 1 and size + 1 keeps the keys 1 .. size. *)
Lemma keys_insert (m : gmap Z (list Z)) (k : Z) (x : list Z) :
  (forall d, is_Some (m !! d) <-> 1 <= d <= Z.of_nat (size m)) ->
  1 <= k <= Z.of_nat (size m) + 1 ->
  (forall d, is_Some (<[k := x]> m !! d) <->
             1 <= d <= Z.of_nat (size (<[k := x]> m))) /\
  Z.of_nat (size (<[k := x]> m)) = Z.max (Z.of_nat (size m)) k.
Proof.
  intros Hm Hk. destruct (decide (k <= Z.of_nat (size m))) as [Hle|Hgt].
  - assert (Hs : is_Some (m !! k)) by (apply Hm; lia).
    rewrite map_size_insert_Some by done. split; [|lia].
    intros d. rewrite lookup_insert. case_decide; [subst d|apply Hm].
    split; [lia|eauto].
  - assert (Hn : m !! k = None).
    { apply eq_None_not_Some. rewrite Hm. lia. }
    rewrite map_size_insert_None by done. split; [|lia].
    intros d. rewrite lookup_insert. case_decide.
    + subst d. split; [lia|eauto].
    + rewrite Hm. lia.
Qed.

Lemma keys_inv_empty : keys_inv Graph.empty.
Proof.
  split; simpl.
  - intros d. rewrite lookup_empty, map_size_empty. split; [by intros [? ?]|lia].
  - rewrite map_size_empty. unfold INT_MAX. lia.
Qed.

Lemma keys_inv_add_vertex (g g' : Graph.t) (id : Z) :
  keys_inv g -> add_vertex g = Ok (id, g') -> keys_inv g'.
Proof.
  intros [Hr Hb] H.
  apply add_vertex_Ok in H as (_ & _ & _ & _ & _ & _ & _ & Hd).
  destruct (keys_insert (depth_to_vertices_ g) kBaseDepth
              (map_index (depth_to_vertices_ g) kBaseDepth ++ [id]) Hr)
    as [Hr' Hs'].
  { unfold kBaseDepth. lia. }
  rewrite <- Hd in Hr', Hs'. split; [done|].
  unfold kBaseDepth, INT_MAX in *. lia.
Qed.

Lemma keys_inv_set_vertex_depth (g : Graph.t) (v dn : Z) :
  keys_inv g ->
  is_Some (depth_to_vertices_ g !! (dn - 1)) ->
  dn <= INT_MAX ->
  keys_inv (set_vertex_depth g v dn).
Proof.
  intros [Hr Hb] Hprev Hmax. apply Hr in Hprev.
  unfold set_vertex_depth. simpl.
  set (m1 := <[dn := _]> (depth_to_vertices_ g)).
  destruct (keys_insert (depth_to_vertices_ g) dn
              (map_index (depth_to_vertices_ g) dn ++ [v]) Hr) as [Hr1 Hs1];
    [lia|]. fold m1 in Hr1, Hs1.
  destruct (keys_insert m1 kBaseDepth
              (erase_first v (map_index m1 kBaseDepth)) Hr1) as [Hr2 Hs2].
  { unfold kBaseDepth. lia. }
  split; [done|]. unfold kBaseDepth, INT_MAX in *. simpl. lia.
Qed.

Lemma keys_inv_add_edge (g g' : Graph.t) (from to id : Z) :
  bucket_inv g -> keys_inv g -> add_edge g from to = Ok (id, g') -> keys_inv g'.
Proof.
  intros Hbk Hk H.
  apply add_edge_Ok in H
    as (c & adj1 & _ & _ & Hc & _ & _ & _ & _ & _ & _ & _ & Hdep).
  destruct Hdep as [(-> & d0 & Hd0 & Hmax & _ & Hb')|(_ & _ & Hb')].
  - assert (Hinv : keys_inv (set_vertex_depth g to (d0 + 1))).
    { apply keys_inv_set_vertex_depth; [done| |done].
      replace (d0 + 1 - 1) with d0 by lia.
      apply (bucket_depth _ Hbk) in Hd0 as (l & Hl & _). eauto. }
    destruct Hinv as [Hr Hbd]. split; rewrite Hb'; done.
  - destruct Hk as [Hr Hbd]. split; rewrite Hb'; done.
Qed.

Lemma reachable_keys_inv (g : Graph.t) : reachable g -> keys_inv g.
Proof.
  revert g. apply reachable_ind; [apply keys_inv_empty|].
  intros g g' Hg IH [id H|from to id H];
    eauto using keys_inv_add_vertex, keys_inv_add_edge, reachable_bucket_inv.
Qed.

Lemma grey_inv_empty : grey_inv Graph.empty.
Proof.
  split; simpl.
  - intros v. split.
    + intros (e & He & _). by apply elem_of_nil in He.
    + intros (d & Hd & _). by rewrite lookup_empty in Hd.
  - intros i j e1 e2 H. by rewrite lookup_nil in H.
Qed.

Lemma grey_inv_add_vertex (g g' : Graph.t) (id : Z) :
  wf g -> grey_inv g -> add_vertex g = Ok (id, g') -> grey_inv g'.
Proof.
  intros Hwf [Hgd Hgu] H.
  apply add_vertex_Ok in H as (-> & _ & _ & _ & He & _ & Hd & _).
  split.
  - intros v. unfold has_incoming_grey. rewrite He, Hd.
    fold (has_incoming_grey g v). rewrite lookup_insert. case_decide as Hv.
    + subst v. split.
      * intros Hg. apply (incoming_grey_incident _ _ Hwf) in Hg as (l & Hl & _).
        assert (Hlt := wf_fresh _ Hwf _ (mk_is_Some _ _ Hl)). lia.
      * intros (d & [= <-] & Hne). done.
    + apply Hgd.
  - rewrite He. apply Hgu.
Qed.

Lemma grey_inv_add_edge (g g' : Graph.t) (from to id : Z) :
  wf g -> grey_inv g -> add_edge g from to = Ok (id, g') -> grey_inv g'.
Proof.
  intros Hwf [Hgd Hgu] H.
  apply add_edge_Ok in H
    as (c & adj1 & _ & _ & Hc & _ & _ & _ & _ & He & _ & _ & Hdep).
  assert (Hin : forall v, has_incoming_grey g' v <->
                  has_incoming_grey g v \/ (c = Edge.Grey /\ v = to)).
  { intros v. unfold has_incoming_grey. rewrite He. split.
    - intros (e & Hel & Hto & Hcol).
      apply elem_of_app in Hel as [Hel|Hel]; [left; eauto|].
      apply list_elem_of_singleton in Hel. subst e. simpl in *. auto.
    - intros [(e & Hel & Hto & Hcol)|[-> ->]].
      + exists e. rewrite elem_of_app. auto.
      + eexists. rewrite elem_of_app, list_elem_of_singleton. eauto. }
  destruct Hdep as [(-> & d0 & Hd0 & _ & Hd' & _)|(Hng & Hd' & _)].
  - apply get_edge_color_Ok in Hc
      as (df & dt & _ & _ & [[? _]|(_ & l0 & Hl0 & Hbr)]); [discriminate|].
    destruct Hbr as [[_ ->]|(_ & [(? & _)|(? & _)])]; try discriminate.
    assert (Hnot : ~ has_incoming_grey g to).
    { intros Hg. apply (incoming_grey_incident _ _ Hwf) in Hg as (l & Hl & Hn).
      congruence. }
    apply (wf_depth_pos _ Hwf) in Hd0 as Hpos.
    split.
    + intros v. rewrite Hin, Hd', lookup_insert. case_decide as Hv.
      * subst v. split; [|auto]. intros _. exists (d0 + 1). split; [done|].
        unfold kBaseDepth in *. lia.
      * rewrite Hgd. split; [intros [?|[_ ?]]; [done|congruence]|auto].
    + intros i j e1 e2. rewrite He. intros H1 H2 C1 C2 Hto.
      apply lookup_snoc_Some in H1 as [[_ H1]|[H1 <-]];
        apply lookup_snoc_Some in H2 as [[_ H2]|[H2 <-]]; simpl in *.
      * eauto.
      * exfalso. apply Hnot. exists e1. eauto using list_elem_of_lookup_2.
      * exfalso. apply Hnot. exists e2. eauto using list_elem_of_lookup_2.
      * congruence.
  - split.
    + intros v. rewrite Hin, Hd', Hgd. split; [intros [?|[? _]]; done|auto].
    + intros i j e1 e2. rewrite He. intros H1 H2 C1 C2 Hto.
      apply lookup_snoc_Some in H1 as [[_ H1]|[H1 <-]];
        apply lookup_snoc_Some in H2 as [[_ H2]|[H2 <-]]; simpl in *;
        try done.
      eauto.
Qed.

Lemma reachable_grey_inv (g : Graph.t) : reachable g -> grey_inv g.
Proof.
  revert g. apply reachable_ind; [apply grey_inv_empty|].
  intros g g' Hg IH [id H|from to id H];
    eauto using grey_inv_add_vertex, grey_inv_add_edge, reachable_wf.
Qed.

Lemma reachable_layers_inv (g : Graph.t) : reachable g -> layers_inv g.
Proof.
  revert g. apply reachable_ind.
  { split; simpl; [|done]. intros d l H. by rewrite lookup_empty in H. }
  intros g g' Hg [Hne Hnone] Hstep.
  assert (Hids := reachable_ids_inv _ Hg).
  assert (Hsnoc : forall (l : list Z) (x : Z), l ++ [x] <> []) by (by intros []).
  destruct Hstep as [id H|from to id H].
  - apply add_vertex_Ok in H as (-> & Hc & _ & _ & _ & _ & _ & Hd).
    split; rewrite ?Hc, ?Hd.
    + intros d l. rewrite lookup_insert. case_decide; [congruence|apply Hne].
    + destruct (ids_vertex_counter _ Hids). lia.
  - apply add_edge_Ok in H
      as (c & adj1 & Hf & _ & _ & _ & Hc & _ & _ & _ & _ & _ & Hdep).
    split.
    + destruct Hdep as [(_ & d0 & _ & _ & _ & ->)|(_ & _ & ->)]; [|done].
      simpl. intros d l. rewrite lookup_insert. case_decide; [congruence|].
      rewrite lookup_insert. case_decide; [|apply Hne].
      intros [= <-] _. apply Hsnoc.
    + rewrite Hc. intros Hz. apply has_vertex_true, (ids_adjacency _ Hids) in Hf.
      lia.
Qed.

Lemma int_of_size_small (n : nat) :
  Z.of_nat n <= INT_MAX -> int_of_size n = Z.of_nat n.
Proof.
  unfold int_of_size, INT_MAX. intros Hn.
  rewrite Z.mod_small by lia. lia.
Qed.

Lemma reachable_depth_eq_size (g : Graph.t) :
  reachable g -> depth g = Z.of_nat (size (depth_to_vertices_ g)).
Proof.
  intros Hg. apply int_of_size_small, keys_bound, reachable_keys_inv, Hg.
Qed.

Lemma reachable_depth_range (g : Graph.t) (v d : Z) :
  reachable g -> vertex_depths_ g !! v = Some d ->
  1 <= d <= depth g /\ depth g <= INT_MAX.
Proof.
  intros Hg Hd. rewrite reachable_depth_eq_size by done.
  destruct (reachable_keys_inv _ Hg) as [Hr Hb].
  apply (bucket_depth _ (reachable_bucket_inv _ Hg)) in Hd as (l & Hl & _).
  assert (Hs : is_Some (depth_to_vertices_ g !! d)) by eauto.
  apply Hr in Hs. lia.
Qed.

(** The adjacency lists only grow at their end under [add_edge]. *)
Lemma add_edge_adjacency_prefix
      (adj adj1 : gmap Z (list Z)) (from to id v : Z) (b : bool) (l : list Z) :
  adj1 = (if b then <[from := map_index adj from ++ [id]]> adj else adj) ->
  adj !! v = Some l ->
  exists l', <[to := map_index adj1 to ++ [id]]> adj1 !! v = Some l' /\
             l `prefix_of` l'.
Proof.
  intros -> Hl.
  assert (H1 : exists l1,
             (if b then <[from := map_index adj from ++ [id]]> adj else adj) !! v
             = Some l1 /\ l `prefix_of` l1).
  { destruct b; [|by exists l].
    rewrite lookup_insert. case_decide; [subst v|by exists l].
    eexists. split; [done|]. unfold map_index. rewrite Hl. simpl.
    by apply prefix_app_r. }
  destruct H1 as (l1 & Hl1 & Hp).
  rewrite lookup_insert. case_decide; [subst v|eauto].
  eexists. split; [done|]. unfold map_index in *. rewrite Hl1. simpl.
  by apply prefix_app_r.
Qed.

End GraphInvariants.

Section GraphProperties.
Import Graph.

(** X1. In a built graph the stored vertices are 0, 1, .., n-1 in that
    order, has_vertex holds exactly for these ids, and add_vertex returns
    n, the new vertex being known and without edges; add_vertex succeeds
    while n is below INT_MAX. *)
Theorem vertex_ids_consecutive (g : Graph.t) :
  reachable g ->
  let n := Z.of_nat (length (get_vertices g)) in
  get_vertices g = Vertex.mk <$> seqZ 0 n /\
  (forall v, has_vertex g v = true <-> 0 <= v < n) /\
  (forall id g',
      add_vertex g = Ok (id, g') ->
      id = n /\ has_vertex g' id = true /\ connected_edges_ids g' id = Ok [] /\
      get_vertices g' = get_vertices g ++ [Vertex.mk n] /\
      get_edges g' = get_edges g) /\
  (n < INT_MAX -> exists g', add_vertex g = Ok (n, g')).
Proof.
  intros Hg n. assert (Hids := reachable_ids_inv _ Hg).
  destruct Hids as [Hc Hv Ha _ _].
  assert (Hn : n = vertex_id_counter_ g).
  { unfold n, get_vertices. rewrite Hv, length_fmap, length_seqZ. lia. }
  split; [|split; [|split]].
  - unfold get_vertices. by rewrite Hn.
  - intros v. by rewrite has_vertex_true, Ha, Hn.
  - intros id g' H.
    apply add_vertex_Ok in H as (-> & _ & _ & Hv' & He' & Ha' & _).
    unfold get_vertices, get_edges, connected_edges_ids, has_vertex, map_at.
    rewrite Hv', He', Ha', lookup_insert_eq, Hn.
    rewrite bool_decide_eq_true_2 by eauto. done.
  - intros Hlt. unfold add_vertex, get_new_vertex_id, int_checked.
    rewrite <- Hn.
    destruct (Z.leb_spec INT_MIN (n + 1)), (Z.leb_spec (n + 1) INT_MAX);
      unfold INT_MIN in *; try lia.
    simpl. eauto.
Qed.

Lemma vertex_ids_consecutive_witness :
  let g := built [AddVertex; AddVertex; AddEdge 0 1] in
  get_vertices g = Vertex.mk <$> seqZ 0 2 /\
  exists g', add_vertex g = Ok (2, g').
Proof.
  intros g.
  destruct (vertex_ids_consecutive g (built_reachable _)) as (Hv & _ & _ & Hadd).
  split; [exact Hv|]. apply Hadd. by vm_compute.
Defined.

(** X2. In a built graph the i-th stored edge has id i and joins two
    vertices of the graph, and a successful add_edge appends one edge,
    with the next id, the given ends and the colour get_edge_color
    computes, and leaves the vertices alone. *)
Theorem edge_ids_consecutive (g : Graph.t) :
  reachable g ->
  (forall i e,
      get_edges g !! i = Some e ->
      Edge.id_ e = Z.of_nat i /\
      has_vertex g (Edge.from_vertex_id_ e) = true /\
      has_vertex g (Edge.to_vertex_id_ e) = true) /\
  (forall from to id g',
      add_edge g from to = Ok (id, g') ->
      id = Z.of_nat (length (get_edges g)) /\
      get_vertices g' = get_vertices g /\
      exists c, get_edge_color g from to = Ok c /\
                get_edges g' = get_edges g ++ [Edge.mk id from to c]).
Proof.
  intros Hg. assert (Hids := reachable_ids_inv _ Hg).
  destruct Hids as [_ _ _ [Hlen _] He]. split.
  - intros i e Hi. rewrite !has_vertex_true. by apply He.
  - intros from to id g' H.
    apply add_edge_Ok in H
      as (c & adj1 & _ & _ & Hc & -> & _ & _ & Hv' & He' & _).
    unfold get_edges, get_vertices. split; [lia|]. split; [done|]. eauto.
Qed.

Lemma edge_ids_consecutive_witness :
  let g := built [AddVertex; AddVertex; AddEdge 0 1; AddEdge 1 1] in
  Edge.id_ (Edge.mk 1 1 1 Edge.Green) = 1 /\
  has_vertex g 1 = true.
Proof.
  intros g.
  destruct (edge_ids_consecutive g (built_reachable _)) as [H _].
  destruct (H 1%nat (Edge.mk 1 1 1 Edge.Green)) as (Hid & Hf & _).
  - by vm_compute.
  - split; [exact Hid | exact Hf].
Defined.

(** X3. In a built graph every id in connected_edges_ids(v) is the index
    and the id of a stored edge that has v as one of its ends, and every
    stored edge is listed with its target vertex. *)
Theorem adjacency_lists_sound (g : Graph.t) :
  reachable g ->
  (forall v l id,
      connected_edges_ids g v = Ok l -> id ∈ l ->
      0 <= id /\
      exists e, get_edges g !! Z.to_nat id = Some e /\
                Edge.id_ e = id /\
                (Edge.from_vertex_id_ e = v \/ Edge.to_vertex_id_ e = v)) /\
  (forall e,
      e ∈ get_edges g ->
      exists l, connected_edges_ids g (Edge.to_vertex_id_ e) = Ok l /\
                Edge.id_ e ∈ l).
Proof.
  intros Hg. destruct (reachable_adj_inv _ Hg) as [Hs Ht]. split.
  - intros v l id Hl Hin. unfold connected_edges_ids in Hl.
    destruct (has_vertex g v); simpl in Hl.
    + apply map_at_Ok in Hl. destruct (Hs _ _ _ Hl Hin) as (e & He & Hid & Hinc).
      apply vector_index_Ok in He as [Hpos He]. eauto 6.
    + injection Hl as <-. by apply elem_of_nil in Hin.
  - intros e He. destruct (Ht e He) as (l & Hl & Hin). exists l. split; [|done].
    unfold connected_edges_ids.
    rewrite (proj2 (has_vertex_true g _)) by eauto. simpl. by apply map_at_Ok.
Qed.

Lemma adjacency_lists_sound_witness :
  let g := built [AddVertex; AddVertex; AddEdge 0 1; AddEdge 1 0] in
  exists e, get_edges g !! 1%nat = Some e /\ Edge.id_ e = 1 /\
            (Edge.from_vertex_id_ e = 0 \/ Edge.to_vertex_id_ e = 0).
Proof.
  intros g.
  destruct (adjacency_lists_sound g (built_reachable _)) as [H _].
  destruct (H 0 [1] 1) as (_ & e & He).
  - by vm_compute.
  - apply list_elem_of_here.
  - exists e. exact He.
Defined.

(** The scan of is_connected over valid edge ids: it returns, and says
    true exactly when one of the listed edges has [to] at an end. *)
Lemma is_connected_loop_spec (edges : list Edge.t) (to : Z) (l : list Z) :
  (forall id, id ∈ l -> exists e, vector_index edges id = Ok e) ->
  exists r, is_connected_loop edges to l = Ok r /\
    (r = true <->
     exists id e, id ∈ l /\ vector_index edges id = Ok e /\
       (Edge.from_vertex_id_ e = to \/ Edge.to_vertex_id_ e = to)).
Proof.
  induction l as [|id l IH]; simpl; intros Hvalid.
  - exists false. split; [done|]. split; [done|].
    intros (id & e & Hin & _). by apply elem_of_nil in Hin.
  - destruct (Hvalid id) as [e He]; [apply list_elem_of_here|].
    rewrite He. simpl.
    destruct (orb _ _) eqn:Hor.
    + exists true. split; [done|]. split; [|done]. intros _.
      exists id, e. split; [apply list_elem_of_here|]. split; [done|].
      apply orb_true_iff in Hor as [H|H]; apply Z.eqb_eq in H; auto.
    + destruct IH as (r & Hr & Hiff).
      { intros id' Hin. apply Hvalid. by apply list_elem_of_further. }
      exists r. split; [done|]. rewrite Hiff. split.
      * intros (id' & e' & Hin & H'). exists id', e'.
        split; [by apply list_elem_of_further|done].
      * intros (id' & e' & Hin & He' & Hends).
        apply elem_of_cons in Hin as [->|Hin]; [|eauto].
        assert (e' = e) as -> by congruence.
        apply orb_false_iff in Hor as [H1 H2].
        apply Z.eqb_neq in H1, H2. tauto.
Qed.

Lemma is_connected_spec (g : Graph.t) (a b : Z) (l : list Z) :
  adj_inv g ->
  adjacency_list_ g !! a = Some l ->
  exists r, is_connected g a b = Ok r /\
    (r = true <->
     exists id e, id ∈ l /\ vector_index (edges_ g) id = Ok e /\
       (Edge.from_vertex_id_ e = b \/ Edge.to_vertex_id_ e = b)).
Proof.
  intros Hadj Hl. unfold is_connected, map_at. rewrite Hl. simpl.
  apply is_connected_loop_spec. intros id Hin.
  destruct (adj_sound _ Hadj _ _ _ Hl Hin) as (e & He & _). eauto.
Qed.

(** X4. In a built graph is_connected(a, b) returns for every vertex a
    (no out-of-bounds read of the edge vector); for a /= b it is true only
    if a stored edge joins a and b; and for every stored edge from a to b,
    is_connected(b, a) is true. For an id a that is not a vertex it throws
    std::out_of_range. *)
Theorem is_connected_sound (g : Graph.t) (a b : VertexId) :
  reachable g ->
  (has_vertex g a = true ->
   exists r, is_connected g a b = Ok r /\
             (r = true -> a <> b -> joined g a b)) /\
  (has_vertex g a = false -> is_connected g a b = Err OutOfRange) /\
  ((exists e, e ∈ get_edges g /\
              Edge.from_vertex_id_ e = a /\ Edge.to_vertex_id_ e = b) ->
   is_connected g b a = Ok true).
Proof.
  intros Hg. assert (Hadj := reachable_adj_inv _ Hg). split; [|split].
  - intros Ha. apply has_vertex_true in Ha as [l Hl].
    destruct (is_connected_spec g a b l Hadj Hl) as (r & Hr & Hiff).
    exists r. split; [done|]. intros -> Hne.
    destruct (proj1 Hiff eq_refl) as (id & e & Hin & He & Hends).
    destruct (adj_sound _ Hadj _ _ _ Hl Hin) as (e' & He' & _ & Hinc).
    assert (e' = e) as -> by congruence.
    apply vector_index_Ok in He as [_ He].
    exists e. split; [eauto using list_elem_of_lookup_2|].
    destruct Hends as [Hb|Hb], Hinc as [Ha|Ha]; auto; congruence.
  - intros Ha. apply has_vertex_false in Ha.
    unfold is_connected, map_at. by rewrite Ha.
  - intros (e & He & Hf & Ht).
    destruct (adj_target _ Hadj e He) as (l & Hl & Hin). rewrite Ht in Hl.
    destruct (is_connected_spec g b a l Hadj Hl) as (r & Hr & Hiff).
    rewrite Hr. f_equal. apply Hiff.
    destruct (adj_sound _ Hadj _ _ _ Hl Hin) as (e' & He' & Hid & _).
    exists (Edge.id_ e), e'. split; [done|]. split; [done|].
    assert (e' = e) as ->; [|auto].
    destruct (reachable_ids_inv _ Hg) as [_ _ _ _ Hids].
    apply list_elem_of_lookup_1 in He as [i Hi].
    apply vector_index_Ok in He' as [_ He'].
    destruct (Hids _ _ Hi) as [Hidi _]. rewrite Hidi, Nat2Z.id in He'.
    unfold get_edges in Hi. congruence.
Qed.

Lemma is_connected_sound_witness :
  let g := built [AddVertex; AddVertex; AddEdge 0 1] in
  is_connected g 1 0 = Ok true /\ is_connected g 2 0 = Err OutOfRange.
Proof.
  intros g.
  destruct (is_connected_sound g 0 1 (built_reachable _)) as (_ & _ & H1).
  destruct (is_connected_sound g 2 0 (built_reachable _)) as (_ & H2 & _).
  split.
  - apply H1. exists (Edge.mk 0 0 1 Edge.Grey). split; [|done].
    vm_compute. apply list_elem_of_here.
  - apply H2. by vm_compute.
Defined.

(** X5. In a built graph get_vertices_with_depth(d) lists, without
    repetition, exactly the vertices whose depth is d. *)
Theorem depth_buckets_inverse (g : Graph.t) (d : Depth) (l : list VertexId) :
  reachable g ->
  get_vertices_with_depth g d = Ok l ->
  NoDup l /\ forall v, v ∈ l <-> vertex_depth g v = Ok d.
Proof.
  intros Hg Hl. destruct (reachable_bucket_inv _ Hg) as [Hnd Hbd].
  unfold get_vertices_with_depth, map_at in Hl. unfold vertex_depth.
  destruct (depth_to_vertices_ g !! d) as [l'|] eqn:E.
  - rewrite bool_decide_eq_true_2 in Hl by eauto. injection Hl as ->.
    split; [eauto|]. intros v. rewrite map_at_Ok, Hbd, E. split; [eauto|].
    by intros (? & [= <-] & ?).
  - rewrite bool_decide_eq_false_2 in Hl by (by intros [? ?]).
    injection Hl as <-. split; [constructor|]. intros v.
    rewrite map_at_Ok, Hbd, E. split.
    + intros H. by apply elem_of_nil in H.
    + by intros (? & ? & ?).
Qed.

Lemma depth_buckets_inverse_witness :
  let g := built [AddVertex; AddVertex; AddVertex; AddEdge 0 1; AddEdge 0 2] in
  NoDup [1; 2] /\ forall v, v ∈ [1; 2] <-> vertex_depth g v = Ok 2.
Proof.
  intros g. apply (depth_buckets_inverse g 2 [1; 2]).
  - apply built_reachable.
  - by vm_compute.
Defined.

(** X6. In a built graph depth() is the deepest occupied layer: every
    vertex depth lies between 1 and depth(), every layer from 2 to depth()
    holds a vertex, depth() is 0 exactly for the graph without vertices,
    and depth() never exceeds INT_MAX (the narrowing of the bucket count
    is exact). *)
Theorem graph_depth_is_deepest_layer (g : Graph.t) :
  reachable g ->
  (forall v d, vertex_depth g v = Ok d -> 1 <= d <= depth g) /\
  (forall d, 2 <= d <= depth g -> exists v, vertex_depth g v = Ok d) /\
  (depth g = 0 <-> get_vertices g = []) /\
  0 <= depth g <= INT_MAX /\
  depth g = Z.of_nat (size (depth_to_vertices_ g)).
Proof.
  intros Hg. assert (Hsize := reachable_depth_eq_size _ Hg).
  destruct (reachable_keys_inv _ Hg) as [Hr Hb].
  destruct (reachable_bucket_inv _ Hg) as [_ Hbd].
  destruct (reachable_layers_inv _ Hg) as [Hne Hnone].
  destruct (reachable_ids_inv _ Hg) as [Hc Hv Ha _ _].
  assert (Hwf := reachable_wf _ Hg).
  split; [|split; [|split; [|split]]].
  - intros v d Hd. apply map_at_Ok in Hd.
    destruct (reachable_depth_range _ _ _ Hg Hd). lia.
  - intros d Hd. rewrite Hsize in Hd.
    destruct (proj2 (Hr d)) as [l Hl]; [lia|].
    destruct l as [|v l].
    { exfalso. apply (Hne d []); [done| |done]. unfold kBaseDepth. lia. }
    exists v. apply map_at_Ok, Hbd. exists (v :: l).
    split; [done|apply list_elem_of_here].
  - rewrite Hsize. unfold get_vertices. rewrite Hv. split.
    + intros Hz. destruct (decide (vertex_id_counter_ g = 0)) as [->|Hnz];
        [done|].
      exfalso. assert (Hs : is_Some (adjacency_list_ g !! 0)) by (apply Ha; lia).
      apply (wf_dom _ Hwf) in Hs as [d Hd].
      apply Hbd in Hd as (l & Hl & _).
      assert (Hk : is_Some (depth_to_vertices_ g !! d)) by eauto.
      apply Hr in Hk. lia.
    + intros Hnil. assert (Hz : vertex_id_counter_ g = 0).
      { apply (f_equal length) in Hnil.
        rewrite length_fmap, length_seqZ in Hnil. simpl in Hnil. lia. }
      rewrite (Hnone Hz), map_size_empty. done.
  - rewrite Hsize. lia.
  - done.
Qed.

Lemma graph_depth_is_deepest_layer_witness :
  let g := built [AddVertex; AddVertex; AddVertex; AddEdge 0 1; AddEdge 1 2] in
  depth g = 3 /\ exists v, vertex_depth g v = Ok 2.
Proof.
  intros g.
  destruct (graph_depth_is_deepest_layer g (built_reachable _))
    as (_ & Hlayer & _).
  split; [by vm_compute|]. apply Hlayer. by vm_compute.
Defined.

(** X7. What the colour of a new edge certifies right after its
    insertion. Green: a self-loop. Grey: the target had no registered edge
    and base depth, and now lies one layer below the source. Yellow: the
    target lies one layer below the source and is_connected was false.
    Red: the target lies two layers below the source. *)
Theorem new_edge_colour_certifies_depths
        (g g' : Graph.t) (a b id : Z) (c : Edge.Color) :
  reachable g ->
  add_edge g a b = Ok (id, g') ->
  get_edge_color g a b = Ok c ->
  match c with
  | Edge.Green => a = b
  | Edge.Grey =>
      a <> b /\ connected_edges_ids g b = Ok [] /\
      vertex_depth g b = Ok kBaseDepth /\
      exists d, vertex_depth g' a = Ok d /\ vertex_depth g' b = Ok (d + 1)
  | Edge.Yellow =>
      is_connected g a b = Ok false /\
      exists d, vertex_depth g' a = Ok d /\ vertex_depth g' b = Ok (d + 1)
  | Edge.Red =>
      exists d, vertex_depth g' a = Ok d /\ vertex_depth g' b = Ok (d + 2)
  end.
Proof.
  intros Hg H Hc. assert (Hwf := reachable_wf _ Hg).
  apply add_edge_Ok in H
    as (c' & adj1 & _ & Hb & Hc' & _ & _ & _ & _ & _ & _ & _ & Hdep).
  assert (c' = c) as -> by congruence. clear Hc'.
  apply get_edge_color_Ok in Hc as (da & db & Hda & Hdb & Hbr).
  unfold vertex_depth, connected_edges_ids. rewrite Hb. simpl.
  destruct Hbr as [[-> ->]|(Hne & l & Hl & [[-> ->]|(Hnil & [(-> & Hdiff & Hcon)|(-> & Hdiff)])])].
  - done.
  - destruct Hdep as [(_ & d0 & Hd0 & _ & -> & _)|(? & _)]; [|done].
    split; [done|]. split; [by apply map_at_Ok|].
    split; [by apply map_at_Ok, wf_leaf|].
    exists d0. split; apply map_at_Ok.
    + by rewrite lookup_insert_ne.
    + by rewrite lookup_insert_eq.
  - destruct Hdep as [(? & _)|(_ & -> & _)]; [done|].
    split; [done|]. exists da. split; apply map_at_Ok; [done|].
    rewrite Hdb. f_equal. unfold kDifferenceYellowEdge in *. lia.
  - destruct Hdep as [(? & _)|(_ & -> & _)]; [done|].
    exists da. split; apply map_at_Ok; [done|].
    rewrite Hdb. f_equal. unfold kDifferenceRedEdge in *. lia.
Qed.

Lemma new_edge_colour_certifies_depths_witness :
  let g := built [AddVertex; AddVertex; AddVertex; AddEdge 0 1; AddEdge 1 2] in
  let g' := built [AddVertex; AddVertex; AddVertex; AddEdge 0 1; AddEdge 1 2;
                   AddEdge 0 2] in
  exists d, vertex_depth g' 0 = Ok d /\ vertex_depth g' 2 = Ok (d + 2).
Proof.
  intros g g'.
  apply (new_edge_colour_certifies_depths g g' 0 2 2 Edge.Red).
  - apply built_reachable.
  - by vm_compute.
  - by vm_compute.
Defined.

(** X8. In a built graph the Grey edges are parent links: a vertex has an
    incoming Grey edge exactly when its depth is above 1, and no vertex
    has two incoming Grey edges. *)
Theorem grey_edges_are_parent_links (g : Graph.t) :
  reachable g ->
  (forall v, has_incoming_grey g v <->
             exists d, vertex_depth g v = Ok d /\ 1 < d) /\
  (forall i j e1 e2,
      get_edges g !! i = Some e1 ->
      get_edges g !! j = Some e2 ->
      Edge.color_ e1 = Edge.Grey ->
      Edge.color_ e2 = Edge.Grey ->
      Edge.to_vertex_id_ e1 = Edge.to_vertex_id_ e2 ->
      i = j).
Proof.
  intros Hg. destruct (reachable_grey_inv _ Hg) as [Hgd Hgu].
  assert (Hwf := reachable_wf _ Hg). split; [|exact Hgu].
  intros v. rewrite Hgd. unfold vertex_depth. setoid_rewrite map_at_Ok.
  split; intros (d & Hd & Hne); exists d; (split; [done|]).
  - apply (wf_depth_pos _ Hwf) in Hd. unfold kBaseDepth in *. lia.
  - unfold kBaseDepth. lia.
Qed.

Lemma grey_edges_are_parent_links_witness :
  has_incoming_grey (built [AddVertex; AddVertex; AddEdge 0 1]) 1.
Proof.
  apply grey_edges_are_parent_links.
  - apply built_reachable.
  - exists 2. split; [by vm_compute|lia].
Defined.

(** get_edge_color between two vertices of a built graph: a colour, or
    the logic error of an unclassifiable pair. *)
Lemma get_edge_color_cases (g : Graph.t) (a b : Z) :
  reachable g ->
  has_vertex g a = true ->
  has_vertex g b = true ->
  (exists c, get_edge_color g a b = Ok c) \/
  (get_edge_color g a b = Err RuntimeError /\
   a <> b /\
   exists da db l,
     vertex_depth g a = Ok da /\ vertex_depth g b = Ok db /\
     connected_edges_ids g b = Ok l /\ l <> [] /\
     db - da <> kDifferenceRedEdge /\
     (db - da = kDifferenceYellowEdge -> is_connected g a b = Ok true)).
Proof.
  intros Hg Ha Hb. assert (Hwf := reachable_wf _ Hg).
  assert (Hadj := reachable_adj_inv _ Hg).
  unfold connected_edges_ids, vertex_depth. rewrite Hb. simpl.
  apply has_vertex_true in Ha as Ha', Hb as Hb'.
  destruct Ha' as [la Hla]. destruct Hb' as [lb Hlb].
  destruct (proj2 (wf_dom _ Hwf a)) as [da Hda]; [eauto|].
  destruct (proj2 (wf_dom _ Hwf b)) as [db Hdb]; [eauto|].
  destruct (reachable_depth_range _ _ _ Hg Hda) as [Hra Hmax].
  destruct (reachable_depth_range _ _ _ Hg Hdb) as [Hrb _].
  unfold get_edge_color, map_at. rewrite Hda, Hdb, Hlb. simpl.
  destruct (Z.eqb_spec a b) as [->|Hne]; [left; eauto|].
  destruct lb as [|x lb]; simpl; [left; eauto|].
  assert (Hchk : int_checked (db - da) = Ok (db - da)).
  { unfold int_checked, INT_MIN, INT_MAX in *.
    destruct (Z.leb_spec (-2147483648) (db - da)),
             (Z.leb_spec (db - da) 2147483647); simpl; try done; lia. }
  rewrite Hchk. simpl.
  destruct (is_connected_spec g a b la Hadj Hla) as (r & Hr & _).
  rewrite Hr. simpl.
  destruct (Z.eqb_spec (db - da) kDifferenceYellowEdge) as [Hy|Hy]; simpl.
  - destruct r; simpl; [|left; eauto].
    destruct (Z.eqb_spec (db - da) kDifferenceRedEdge) as [Hred|Hred].
    { unfold kDifferenceYellowEdge, kDifferenceRedEdge in *. lia. }
    right. split; [done|]. split; [done|].
    exists da, db, (x :: lb). repeat split; auto.
  - destruct (Z.eqb_spec (db - da) kDifferenceRedEdge) as [Hred|Hred];
      [left; eauto|].
    right. split; [done|]. split; [done|].
    exists da, db, (x :: lb). repeat split; auto. intros; done.
Qed.

(** X9. Between two vertices of a built graph get_edge_color never reads
    out of bounds and never throws std::out_of_range: it returns a colour,
    or throws the logic error, and the latter only for two distinct
    vertices whose target already has a registered edge and whose depth
    difference is neither 2 nor 1 with is_connected false. *)
Theorem get_edge_color_fails_only_unclassified
        (g : Graph.t) (a b : VertexId) (e : error) :
  reachable g ->
  has_vertex g a = true ->
  has_vertex g b = true ->
  get_edge_color g a b = Err e ->
  e = RuntimeError /\ a <> b /\
  exists da db l,
    vertex_depth g a = Ok da /\ vertex_depth g b = Ok db /\
    connected_edges_ids g b = Ok l /\ l <> [] /\
    db - da <> 2 /\
    (db - da = 1 -> is_connected g a b = Ok true).
Proof.
  intros Hg Ha Hb He.
  destruct (get_edge_color_cases g a b Hg Ha Hb) as [[c Hc]|(Hr & Hrest)];
    [congruence|].
  split; [congruence|exact Hrest].
Qed.

Lemma get_edge_color_fails_only_unclassified_witness :
  let g := built [AddVertex; AddVertex; AddVertex; AddEdge 0 1; AddEdge 0 2] in
  is_connected g 0 2 = Ok true.
Proof.
  intros g.
  destruct (get_edge_color_fails_only_unclassified g 0 2 RuntimeError)
    as (_ & _ & da & db & l & Hda & Hdb & _ & _ & _ & Hc).
  - apply built_reachable.
  - by vm_compute.
  - by vm_compute.
  - by vm_compute.
  - apply Hc. vm_compute in Hda, Hdb.
    injection Hda as <-. injection Hdb as <-. reflexivity.
Defined.

(** The two ways add_edge can fail between vertices of a built graph. *)
Lemma add_edge_error_cases (g : Graph.t) (a b : Z) (e : error) :
  reachable g ->
  has_vertex g a = true ->
  has_vertex g b = true ->
  add_edge g a b = Err e ->
  (e = RuntimeError /\ get_edge_color g a b = Err RuntimeError) \/
  (e = UndefinedBehaviour /\
   (Z.of_nat (length (get_edges g)) = INT_MAX \/
    (get_edge_color g a b = Ok Edge.Grey /\ vertex_depth g a = Ok INT_MAX))).
Proof.
  intros Hg Ha Hb H. assert (Hwf := reachable_wf _ Hg).
  destruct (reachable_ids_inv _ Hg) as [_ _ _ [Hlen Hemax] _].
  unfold add_edge in H. rewrite Ha, Hb in H. simpl in H.
  destruct (get_edge_color_cases g a b Hg Ha Hb) as [[c Hc]|(Hr & _)].
  2:{ rewrite Hr in H. simpl in H. injection H as <-. auto. }
  rewrite Hc in H. simpl in H. right.
  assert (Hcounter : forall g0 : Graph.t,
             edge_id_counter_ g0 = edge_id_counter_ g ->
             forall r, get_new_edge_id g0 = Err r ->
             r = UndefinedBehaviour /\
             Z.of_nat (length (get_edges g)) = INT_MAX).
  { intros g0 Heq r. unfold get_new_edge_id, int_checked. rewrite Heq.
    unfold get_edges. rewrite Hlen.
    assert (0 <= edge_id_counter_ g) by lia.
    destruct (Z.leb_spec INT_MIN (edge_id_counter_ g + 1)),
             (Z.leb_spec (edge_id_counter_ g + 1) INT_MAX);
      unfold INT_MIN in *; simpl; try discriminate; try lia.
    intros [= <-]. split; [done|lia]. }
  destruct (Edge.Color_eqb c Edge.Grey) eqn:Hgrey; simpl in H.
  - assert (c = Edge.Grey) as -> by (by destruct c).
    apply has_vertex_true, (wf_dom _ Hwf) in Ha as [da Hda].
    unfold vertex_depth, map_at in H. rewrite Hda in H. simpl in H.
    destruct (reachable_depth_range _ _ _ Hg Hda) as [Hra Hmax].
    unfold int_checked in H.
    destruct (Z.leb_spec INT_MIN (da + 1)), (Z.leb_spec (da + 1) INT_MAX);
      unfold INT_MIN in *; simpl in H; try lia.
    + destruct (get_new_edge_id (set_vertex_depth g b (da + 1))) as [[i g1]|r]
        eqn:Hn; simpl in H; [discriminate|].
      injection H as <-.
      destruct (Hcounter (set_vertex_depth g b (da + 1)) eq_refl _ Hn)
        as [-> Hfull].
      auto.
    + injection H as <-. split; [done|]. right. split; [done|].
      unfold vertex_depth, map_at. rewrite Hda. f_equal. lia.
  - destruct (get_new_edge_id g) as [[i g1]|r] eqn:Hn; simpl in H;
      [discriminate|].
    injection H as <-. destruct (Hcounter _ eq_refl _ Hn) as [-> Hfull]. auto.
Qed.


(** X10. add_edge between two vertices of a built graph fails in two ways
    only: with the logic error of get_edge_color, before anything is
    written; or by signed overflow, when the graph already holds INT_MAX
    edges or a Grey edge leaves a vertex of depth INT_MAX. *)
Theorem add_edge_failure_modes (g : Graph.t) (a b : VertexId) (e : error) :
  reachable g ->
  has_vertex g a = true ->
  has_vertex g b = true ->
  add_edge g a b = Err e ->
  (e = RuntimeError /\ get_edge_color g a b = Err RuntimeError) \/
  (e = UndefinedBehaviour /\
   (Z.of_nat (length (get_edges g)) = INT_MAX \/
    (get_edge_color g a b = Ok Edge.Grey /\ vertex_depth g a = Ok INT_MAX))).
Proof. apply add_edge_error_cases. Qed.

Lemma add_edge_failure_modes_witness :
  let g := built [AddVertex; AddVertex; AddVertex; AddEdge 0 1; AddEdge 0 2] in
  get_edge_color g 0 2 = Err RuntimeError.
Proof.
  intros g.
  destruct (add_edge_failure_modes g 0 2 RuntimeError) as [[_ H]|[H _]].
  - apply built_reachable.
  - by vm_compute.
  - by vm_compute.
  - by vm_compute.
  - exact H.
  - discriminate H.
Defined.

(** X11. Construction is append-only: along any further calls the stored
    vertices and the stored edges are extended at their end, known
    vertices stay known, and the adjacency list of a vertex is extended
    at its end. *)
Theorem construction_is_append_only (g g' : Graph.t) :
  reachable g ->
  rtc step g g' ->
  get_vertices g `prefix_of` get_vertices g' /\
  get_edges g `prefix_of` get_edges g' /\
  (forall v, has_vertex g v = true -> has_vertex g' v = true) /\
  (forall v l,
      has_vertex g v = true ->
      connected_edges_ids g v = Ok l ->
      exists l', connected_edges_ids g' v = Ok l' /\ l `prefix_of` l').
Proof.
  intros Hg Hs.
  cut (get_vertices g `prefix_of` get_vertices g' /\
       get_edges g `prefix_of` get_edges g' /\
       forall v l, adjacency_list_ g !! v = Some l ->
                   exists l', adjacency_list_ g' !! v = Some l' /\
                              l `prefix_of` l').
  { intros (Hv & He & Ha). split; [done|]. split; [done|]. split.
    - intros v Hk. apply has_vertex_true in Hk as [l Hl].
      destruct (Ha _ _ Hl) as (l' & Hl' & _). apply has_vertex_true. eauto.
    - intros v l Hk Hl. unfold connected_edges_ids in *. rewrite Hk in Hl.
      simpl in Hl. apply map_at_Ok in Hl. destruct (Ha _ _ Hl) as (l' & Hl' & Hp).
      exists l'. split; [|done].
      rewrite (proj2 (has_vertex_true g' v)) by eauto. simpl.
      by apply map_at_Ok. }
  apply reachable_wf in Hg as Hwf. clear Hg.
  induction Hs as [g|g g1 g' Hstep Hs IH].
  { split; [done|]. split; [done|]. intros v l Hl. by exists l. }
  destruct IH as (Hv & He & Ha); [eauto using wf_step|].
  assert (Hone : get_vertices g `prefix_of` get_vertices g1 /\
                 get_edges g `prefix_of` get_edges g1 /\
                 forall v l, adjacency_list_ g !! v = Some l ->
                             exists l', adjacency_list_ g1 !! v = Some l' /\
                                        l `prefix_of` l').
  { unfold get_vertices, get_edges. destruct Hstep as [id H|from to id H].
    - apply add_vertex_Ok in H as (-> & _ & _ & -> & -> & -> & _).
      split; [by apply prefix_app_r|]. split; [done|].
      intros v l Hl. exists l. split; [|done].
      rewrite lookup_insert_ne; [done|].
      intros Heq. assert (Hlt := wf_fresh _ Hwf _ (mk_is_Some _ _ Hl)). lia.
    - apply add_edge_Ok in H
        as (c & adj1 & _ & _ & _ & _ & _ & _ & -> & -> & Hadj1 & -> & _).
      split; [done|]. split; [by apply prefix_app_r|].
      intros v l Hl. by eapply add_edge_adjacency_prefix. }
  destruct Hone as (Hv1 & He1 & Ha1).
  split; [by etrans|]. split; [by etrans|].
  intros v l Hl. destruct (Ha1 _ _ Hl) as (l1 & Hl1 & Hp1).
  destruct (Ha _ _ Hl1) as (l' & Hl' & Hp'). exists l'. split; [done|].
  by etrans.
Qed.

Lemma construction_is_append_only_witness :
  let g := built [AddVertex; AddVertex; AddEdge 0 1] in
  let g' := built [AddVertex; AddVertex; AddEdge 0 1; AddEdge 1 1; AddVertex] in
  get_edges g `prefix_of` get_edges g' /\ has_vertex g' 1 = true.
Proof.
  intros g g'.
  destruct (construction_is_append_only g g') as (_ & He & Hk & _).
  - apply built_reachable.
  - apply (run_steps [AddEdge 1 1; AddVertex]). by vm_compute.
  - split; [exact He|]. apply Hk. by vm_compute.
Defined.

Lemma elem_of_erase_first_snoc (x : Z) (l : list Z) :
  x ∈ erase_first x (l ++ [x]) <-> x ∈ l.
Proof.
  induction l as [|z l IH]; simpl.
  - rewrite Z.eqb_refl. split; intros H; by apply elem_of_nil in H.
  - destruct (Z.eqb_spec z x) as [->|Hne].
    + split; intros _; [apply list_elem_of_here|].
      apply elem_of_app. right. apply list_elem_of_here.
    + rewrite !elem_of_cons, IH. split; intros [?|?]; auto; congruence.
Qed.

Lemma get_vertices_with_depth_index (g : Graph.t) (d : Z) :
  get_vertices_with_depth g d = Ok (map_index (depth_to_vertices_ g) d).
Proof.
  unfold get_vertices_with_depth, map_at, map_index.
  destruct (depth_to_vertices_ g !! d) as [l|] eqn:E.
  - by rewrite bool_decide_eq_true_2 by eauto.
  - by rewrite bool_decide_eq_false_2 by (by intros [? ?]).
Qed.

(** X18. set_vertex_depth(v, dn) on a vertex recorded at depth d, in a
    graph whose buckets mirror the depth map: the depth map then says dn,
    but the buckets follow only when the vertex leaves the base depth.
    The id is dropped from the base bucket alone, so a vertex at a deeper
    depth d stays listed at d as well; and a vertex sent to the base
    depth from elsewhere is appended to the base bucket and erased from
    it again, so it is not listed at its new depth. *)
Theorem set_vertex_depth_moves_only_from_base (g : Graph.t) (v d dn : Z) :
  bucket_inv g ->
  vertex_depths_ g !! v = Some d ->
  vertex_depth (set_vertex_depth g v dn) v = Ok dn /\
  (exists l, get_vertices_with_depth (set_vertex_depth g v dn) dn = Ok l /\
             (v ∈ l <-> dn <> kBaseDepth \/ d = kBaseDepth)) /\
  (d <> dn ->
   exists l, get_vertices_with_depth (set_vertex_depth g v dn) d = Ok l /\
             (v ∈ l <-> d <> kBaseDepth)).
Proof.
  intros [Hnd Hbd] Hd. apply Hbd in Hd as Hb. destruct Hb as (ld & Hld & Hin).
  split.
  { unfold vertex_depth, map_at, set_vertex_depth. simpl.
    by rewrite lookup_insert_eq. }
  split.
  - eexists. split; [apply get_vertices_with_depth_index|].
    unfold set_vertex_depth, map_index. simpl.
    destruct (decide (dn = kBaseDepth)) as [->|Hdn].
    + rewrite !lookup_insert_eq. simpl. rewrite elem_of_erase_first_snoc.
      split.
      * intros Hv. right.
        destruct (depth_to_vertices_ g !! kBaseDepth) as [l1|] eqn:E1;
          simpl in Hv; [|by apply elem_of_nil in Hv].
        assert (H1 : vertex_depths_ g !! v = Some kBaseDepth).
        { apply Hbd. eauto. }
        congruence.
      * intros [?| ->]; [done|]. by rewrite Hld.
    + rewrite lookup_insert_ne, lookup_insert_eq by done. simpl.
      split; [by left|]. intros _. apply elem_of_app. right.
      apply list_elem_of_here.
  - intros Hne. eexists. split; [apply get_vertices_with_depth_index|].
    unfold set_vertex_depth, map_index. simpl.
    destruct (decide (d = kBaseDepth)) as [->|Hdb].
    + rewrite lookup_insert_eq, lookup_insert_ne, Hld by done. simpl.
      rewrite elem_of_erase_first by (by eapply Hnd). tauto.
    + rewrite !lookup_insert_ne, Hld by done. simpl. tauto.
Qed.

Lemma set_vertex_depth_moves_only_from_base_witness :
  let g := built [AddVertex; AddVertex; AddEdge 0 1] in
  vertex_depth (set_vertex_depth g 1 3) 1 = Ok 3 /\
  (exists l, get_vertices_with_depth (set_vertex_depth g 1 3) 3 = Ok l /\
             (1 ∈ l <-> 3 <> kBaseDepth \/ 2 = kBaseDepth)) /\
  (2 <> 3 ->
   exists l, get_vertices_with_depth (set_vertex_depth g 1 3) 2 = Ok l /\
             (1 ∈ l <-> 2 <> kBaseDepth)).
Proof.
  intros g. apply (set_vertex_depth_moves_only_from_base g 1 2 3).
  - apply reachable_bucket_inv, built_reachable.
  - by vm_compute.
Defined.

End GraphProperties.

(** ** Further properties of the generator *)

Section SafeComputations.

Lemma safe_bind {A B : Type} (m : result A) (f : A -> result B)
      (P : A -> Prop) (Q : B -> Prop) :
  safe m P -> (forall a, P a -> safe (f a) Q) -> safe (bind m f) Q.
Proof. destruct m as [a|e]; simpl; auto. Qed.

Lemma safe_mono {A : Type} (r : result A) (P Q : A -> Prop) :
  safe r P -> (forall a, P a -> Q a) -> safe r Q.
Proof. destruct r as [a|e]; simpl; auto. Qed.

Lemma safe_int_checked (z : Z) :
  safe (int_checked z) (fun r => r = z /\ INT_MIN <= z <= INT_MAX).
Proof.
  unfold int_checked.
  destruct (Z.leb_spec INT_MIN z), (Z.leb_spec z INT_MAX); simpl; auto.
Qed.

Lemma for_each_safe {A S : Type} (body : S -> A -> result S) (I : S -> Prop)
      (l : list A) (s : S) :
  (forall s' x, x ∈ l -> I s' -> safe (body s' x) I) ->
  I s ->
  safe (for_each body l s) I.
Proof.
  revert s. induction l as [|x l IH]; simpl; intros s Hbody Hs; [done|].
  apply safe_bind with I.
  - apply Hbody; [apply list_elem_of_here|done].
  - intros s' Hs'. apply IH; [|done].
    intros s'' y Hy. apply Hbody. by apply list_elem_of_further.
Qed.

Lemma repeat_n_safe {S : Type} (body : S -> result S) (I : S -> Prop)
      (n : nat) (s : S) :
  (forall s', I s' -> safe (body s') I) ->
  I s ->
  safe (repeat_n n body s) I.
Proof.
  intros Hbody. revert s. induction n as [|n IH]; simpl; intros s Hs; [done|].
  apply safe_bind with I; auto.
Qed.

End SafeComputations.

Section GeneratorSupport.
Import Graph.

Lemma reachable_steps (g g' : Graph.t) :
  reachable g -> rtc step g g' -> reachable g'.
Proof. unfold reachable. intros. by etrans. Qed.

Lemma has_vertex_steps (g g' : Graph.t) (v : Z) :
  wf g -> rtc step g g' -> has_vertex g v = true -> has_vertex g' v = true.
Proof.
  intros Hwf Hs. induction Hs as [g|g g1 g' Hstep Hs IH]; [done|].
  intros Hv. apply IH; [eauto using wf_step|].
  apply has_vertex_true in Hv. apply has_vertex_true.
  destruct Hstep as [id H|from to id H].
  - apply add_vertex_Ok in H as (_ & _ & _ & _ & _ & -> & _).
    rewrite lookup_insert. case_decide; eauto.
  - apply add_edge_Ok in H
      as (c & adj1 & Hf & Ht & _ & _ & _ & _ & _ & _ & Hadj1 & -> & _).
    apply has_vertex_true in Hf, Ht.
    by apply (add_edge_adjacency _ _ _ _ _ _ Hadj1 Hf Ht).
Qed.

(** With both ends in the graph and a colour for the pair, add_edge
    succeeds unless a counter overflows. *)
Lemma add_edge_safe (g : Graph.t) (a b : Z) (c : Edge.Color) :
  reachable g ->
  has_vertex g a = true ->
  has_vertex g b = true ->
  get_edge_color g a b = Ok c ->
  safe (add_edge g a b) (fun p => add_edge g a b = Ok p).
Proof.
  intros Hg Ha Hb Hc. destruct (add_edge g a b) as [[id g']|e] eqn:E; simpl.
  - done.
  - destruct (add_edge_error_cases _ _ _ _ Hg Ha Hb E) as [[_ Hr]|[-> _]];
      [congruence|done].
Qed.

Lemma add_vertex_safe (g : Graph.t) :
  safe (add_vertex g) (fun p => add_vertex g = Ok p).
Proof.
  destruct (add_vertex g) as [p|e] eqn:E; simpl; [done|].
  unfold add_vertex, get_new_vertex_id in E.
  destruct (int_checked _) as [z|e'] eqn:Ez; simpl in E; [discriminate|].
  injection E as <-.
  assert (Hs := safe_int_checked (vertex_id_counter_ g + 1)).
  by rewrite Ez in Hs.
Qed.

(** The edge from a vertex to a vertex just created is Grey. *)
Lemma get_edge_color_fresh_target (g g1 : Graph.t) (v next : Z) :
  wf g ->
  add_vertex g = Ok (next, g1) ->
  has_vertex g v = true ->
  get_edge_color g1 v next = Ok Edge.Grey.
Proof.
  intros Hwf H Hv. apply has_vertex_true in Hv as Hs.
  assert (Hlt := wf_fresh _ Hwf _ Hs).
  apply (wf_dom _ Hwf) in Hs as [d Hd].
  apply add_vertex_Ok in H as (-> & _ & _ & _ & _ & Ha & Hdep & _).
  unfold get_edge_color, map_at. rewrite Hdep, Ha.
  rewrite lookup_insert_ne, Hd, !lookup_insert_eq by lia. simpl.
  destruct (Z.eqb_spec v (vertex_id_counter_ g)); [lia|done].
Qed.

Lemma get_edge_color_self (g : Graph.t) (v : Z) :
  wf g -> has_vertex g v = true -> get_edge_color g v v = Ok Edge.Green.
Proof.
  intros Hwf Hv. apply has_vertex_true, (wf_dom _ Hwf) in Hv as [d Hd].
  unfold get_edge_color, map_at. rewrite Hd. simpl. by rewrite Z.eqb_refl.
Qed.

(** The pair handed to add_edge by the yellow and red phases has a colour,
    and it is not Grey. *)
Lemma get_edge_color_layered (g : Graph.t) (a b d k : Z) :
  reachable g ->
  vertex_depths_ g !! a = Some d ->
  vertex_depths_ g !! b = Some (d + k) ->
  (k = kDifferenceYellowEdge /\ is_connected g a b = Ok false) \/
  k = kDifferenceRedEdge ->
  exists c, get_edge_color g a b = Ok c /\ c <> Edge.Grey.
Proof.
  intros Hg Hda Hdb Hk. assert (Hwf := reachable_wf _ Hg).
  assert (Ha : has_vertex g a = true).
  { apply has_vertex_true, (wf_dom _ Hwf). eauto. }
  assert (Hb : has_vertex g b = true).
  { apply has_vertex_true, (wf_dom _ Hwf). eauto. }
  apply (wf_depth_pos _ Hwf) in Hda as Hpos.
  destruct (get_edge_color_cases g a b Hg Ha Hb)
    as [[c Hc]|(_ & _ & da & db & l & Hda' & Hdb' & _ & _ & Hred & Hyel)].
  - exists c. split; [done|]. intros ->.
    apply get_edge_color_Ok in Hc
      as (df & dt & _ & _ & [[? _]|(_ & l0 & Hl0 & Hbr)]); [discriminate|].
    destruct Hbr as [[_ ->]|(_ & [(? & _)|(? & _)])]; try discriminate.
    apply (wf_leaf _ Hwf) in Hl0.
    unfold kBaseDepth, kDifferenceYellowEdge, kDifferenceRedEdge in *.
    assert (d + k = 1) by congruence. lia.
  - exfalso. unfold vertex_depth in *. apply map_at_Ok in Hda', Hdb'.
    assert (da = d) as -> by congruence.
    assert (db = d + k) as -> by congruence.
    destruct Hk as [[Hk Hcon]|Hk]; subst k.
    + assert (H : is_connected g a b = Ok true) by (apply Hyel; lia).
      congruence.
    + apply Hred. lia.
Qed.

Lemma get_vertices_with_depth_Ok (g : Graph.t) (d : Z) :
  exists l, get_vertices_with_depth g d = Ok l.
Proof.
  unfold get_vertices_with_depth, map_at.
  destruct (depth_to_vertices_ g !! d) as [l|] eqn:E.
  - rewrite bool_decide_eq_true_2 by eauto. eauto.
  - rewrite bool_decide_eq_false_2 by (by intros [? ?]). eauto.
Qed.

Lemma get_vertices_with_depth_elems (g : Graph.t) (d : Z) (l : list Z) :
  reachable g ->
  get_vertices_with_depth g d = Ok l ->
  NoDup l /\
  forall v, v ∈ l -> vertex_depths_ g !! v = Some d /\ has_vertex g v = true.
Proof.
  intros Hg Hl. destruct (reachable_bucket_inv _ Hg) as [Hnd Hbd].
  assert (Hwf := reachable_wf _ Hg).
  unfold get_vertices_with_depth, map_at in Hl.
  destruct (depth_to_vertices_ g !! d) as [l'|] eqn:E.
  - rewrite bool_decide_eq_true_2 in Hl by eauto. injection Hl as ->.
    split; [eauto|]. intros v Hv.
    assert (Hd : vertex_depths_ g !! v = Some d) by (apply Hbd; eauto).
    split; [done|]. apply has_vertex_true, (wf_dom _ Hwf). eauto.
  - rewrite bool_decide_eq_false_2 in Hl by (by intros [? ?]).
    injection Hl as <-. split; [constructor|].
    intros v Hv. by apply elem_of_nil in Hv.
Qed.

(** A list of distinct vertices of a built graph fits an [int] length. *)
Lemma vertex_list_length_bound (g : Graph.t) (l : list Z) :
  reachable g ->
  NoDup l ->
  (forall v, v ∈ l -> has_vertex g v = true) ->
  Z.of_nat (length l) <= INT_MAX.
Proof.
  intros Hg Hnd Hin. destruct (reachable_ids_inv _ Hg) as [Hc _ Ha _ _].
  assert (Hsub : l ⊆+ seqZ 0 (vertex_id_counter_ g)).
  { apply NoDup_submseteq; [done|]. intros v Hv.
    apply Hin, has_vertex_true, Ha in Hv. apply elem_of_seqZ. lia. }
  apply submseteq_length in Hsub. rewrite length_seqZ in Hsub. lia.
Qed.

Lemma vertices_known (g : Graph.t) (vertex : Vertex.t) :
  reachable g -> vertex ∈ get_vertices g ->
  has_vertex g (Vertex.id_ vertex) = true.
Proof.
  intros Hg Hin. destruct (reachable_ids_inv _ Hg) as [_ Hv Ha _ _].
  unfold get_vertices in Hin. rewrite Hv in Hin.
  apply list_elem_of_fmap in Hin as (x & -> & Hx). simpl.
  apply elem_of_seqZ in Hx. apply has_vertex_true, Ha. lia.
Qed.

Lemma vector_at_in_range {A : Type} (l : list A) (i : Z) :
  0 <= i < Z.of_nat (length l) ->
  exists a, vector_at l i = Ok a /\ a ∈ l.
Proof.
  intros Hi. unfold vector_at. destruct (Z.ltb_spec i 0); [lia|].
  destruct (l !! Z.to_nat i) as [a|] eqn:E.
  - exists a. split; [done|]. by eapply list_elem_of_lookup_2.
  - apply lookup_ge_None in E. lia.
Qed.

(** The accumulation loop of get_unconnected_vertex_ids. *)
Lemma get_unconnected_acc
      (g : Graph.t) (from : Z) (ids acc : list Z) (la : list Z) :
  adj_inv g ->
  adjacency_list_ g !! from = Some la ->
  exists l,
    for_each
      (fun not_connected_vertex_ids vertex_to_id =>
         let* c := is_connected g from vertex_to_id in
         Ok (if negb c
             then not_connected_vertex_ids ++ [vertex_to_id]
             else not_connected_vertex_ids))
      ids acc = Ok (acc ++ l) /\
    sublist l ids /\
    forall v, v ∈ l <-> v ∈ ids /\ is_connected g from v = Ok false.
Proof.
  intros Hadj Hla. revert acc. induction ids as [|x ids IH]; intros acc; simpl.
  - exists []. rewrite app_nil_r. split; [done|]. split; [done|].
    intros v. split; [intros H|intros [H _]]; by apply elem_of_nil in H.
  - destruct (is_connected_spec g from x la Hadj Hla) as (r & Hr & _).
    rewrite Hr. simpl. destruct r; simpl.
    + destruct (IH acc) as (l & Hl & Hsub & Hmem). exists l.
      split; [done|]. split; [by apply sublist_cons|].
      intros v. rewrite Hmem, elem_of_cons. split; [tauto|].
      intros [[->|?] Hc]; [congruence|tauto].
    + destruct (IH (acc ++ [x])) as (l & Hl & Hsub & Hmem). exists (x :: l).
      split; [by rewrite Hl, <- app_assoc|]. split; [by apply sublist_skip|].
      intros v. rewrite !elem_of_cons, Hmem. split.
      * intros [->|[? ?]]; auto.
      * intros [[->|?] ?]; auto.
Qed.

(** The loop keeps, in their order and with their repetitions, exactly
    the candidates that is_connected rejects. *)
Lemma get_unconnected_filter
      (g : Graph.t) (from : Z) (ids acc : list Z) (la : list Z) :
  adj_inv g ->
  adjacency_list_ g !! from = Some la ->
  for_each
    (fun not_connected_vertex_ids vertex_to_id =>
       let* c := is_connected g from vertex_to_id in
       Ok (if negb c
           then not_connected_vertex_ids ++ [vertex_to_id]
           else not_connected_vertex_ids))
    ids acc
  = Ok (acc ++ List.filter
                 (fun v => match is_connected g from v with
                           | Ok c => negb c
                           | Err _ => false
                           end) ids).
Proof.
  intros Hadj Hla. revert acc. induction ids as [|x ids IH]; intros acc.
  - cbn [for_each List.filter]. by rewrite app_nil_r.
  - cbn [for_each List.filter].
    destruct (is_connected_spec g from x la Hadj Hla) as (r & Hr & _).
    rewrite Hr. cbn [bind]. rewrite IH. destruct r; cbn [negb].
    + done.
    + by rewrite <- app_assoc.
Qed.

Lemma generator_step_steps (g g' : Graph.t) :
  generator_step g g' -> rtc step g g'.
Proof.
  intros [[v next id g1 _ H1 H2]|[a b id c _ _ H]].
  - apply rtc_l with g1; [by apply step_add_vertex with next|].
    apply rtc_once. by apply step_add_edge with v next id.
  - apply rtc_once. by apply step_add_edge with a b id.
Qed.

Lemma generator_steps_steps (g g' : Graph.t) :
  rtc generator_step g g' -> rtc step g g'.
Proof.
  intros Hs. induction Hs as [|g g1 g' H _ IH]; [done|].
  etrans; [by apply generator_step_steps|done].
Qed.

Lemma child_steps_generator (g g' : Graph.t) :
  rtc child_step g g' -> rtc generator_step g g'.
Proof.
  intros Hs. induction Hs as [|g g1 g' H _ IH]; [done|].
  eapply rtc_l; [by left|done].
Qed.

Lemma edge_steps_generator (g g' : Graph.t) :
  rtc edge_step g g' -> rtc generator_step g g'.
Proof.
  intros Hs. induction Hs as [|g g1 g' H _ IH]; [done|].
  eapply rtc_l; [by right|done].
Qed.

Lemma child_steps_steps (g g' : Graph.t) :
  rtc child_step g g' -> rtc step g g'.
Proof. intros H. by apply generator_steps_steps, child_steps_generator. Qed.

Lemma edge_steps_steps (g g' : Graph.t) :
  rtc edge_step g g' -> rtc step g g'.
Proof. intros H. by apply generator_steps_steps, edge_steps_generator. Qed.

(** An edge that is not Grey leaves the depth map and the buckets alone. *)
Lemma edge_steps_layers (g g' : Graph.t) :
  rtc edge_step g g' ->
  depth_to_vertices_ g' = depth_to_vertices_ g /\
  vertex_depths_ g' = vertex_depths_ g.
Proof.
  intros Hs. induction Hs as [|g g1 g' [a b id c Hc Hne H] _ [IH1 IH2]];
    [done|].
  apply add_edge_Ok in H
    as (c' & adj1 & _ & _ & Hc' & _ & _ & _ & _ & _ & _ & _ & Hdep).
  assert (c' = c) as -> by congruence.
  destruct Hdep as [(? & _)|(_ & Hd & Hb)]; [done|].
  split; congruence.
Qed.

Lemma grown_from_refl (cd : Z) (g : Graph.t) : grown_from cd g g.
Proof. split; [reflexivity|]. split; [done|lia]. Qed.

Lemma grown_from_trans (cd : Z) (g1 g2 g3 : Graph.t) :
  grown_from cd g1 g2 -> grown_from cd g2 g3 -> grown_from cd g1 g3.
Proof.
  intros (Hs1 & Hk1 & Hb1) (Hs2 & Hk2 & Hb2).
  split; [by etrans|]. split; [auto|lia].
Qed.

(** A child hung below a vertex of depth [cd] opens at most layer
    [cd + 1]. *)
Lemma child_step_grows (g g1 g' : Graph.t) (v next id cd : Z) :
  reachable g ->
  vertex_depths_ g !! v = Some cd ->
  add_vertex g = Ok (next, g1) ->
  add_edge g1 v next = Ok (id, g') ->
  grown_from cd g g'.
Proof.
  intros Hg Hcd H1 H2. assert (Hwf := reachable_wf _ Hg).
  assert (Hv : has_vertex g v = true).
  { apply has_vertex_true, (wf_dom _ Hwf). eauto. }
  assert (Hchild : child_step g g')
    by (by apply child_step_intro with v next id g1).
  assert (Hg' : reachable g').
  { eapply reachable_steps; [done|]. apply generator_step_steps. by left. }
  split; [by apply rtc_once|].
  assert (Hgrey := get_edge_color_fresh_target _ _ _ _ Hwf H1 Hv).
  apply (wf_depth_pos _ Hwf) in Hcd as Hpos.
  apply has_vertex_true in Hv as Hvs.
  assert (Hvr := wf_fresh _ Hwf _ Hvs).
  apply add_vertex_Ok in H1 as (-> & _ & _ & _ & _ & _ & Hd1 & Hb1).
  apply add_edge_Ok in H2
    as (c & adj1 & _ & _ & Hc & _ & _ & _ & _ & _ & _ & _ & Hdep).
  assert (c = Edge.Grey) as -> by congruence.
  destruct Hdep as [(_ & d0 & Hd0 & _ & Hd' & Hb')|(? & _)]; [|done].
  rewrite Hd1, lookup_insert_ne, Hcd in Hd0 by lia. injection Hd0 as <-.
  split.
  - intros u d Hu.
    assert (Hur : u < vertex_id_counter_ g).
    { apply (wf_fresh _ Hwf), (wf_dom _ Hwf). eauto. }
    rewrite Hd', Hd1, !lookup_insert_ne by lia. done.
  - rewrite (reachable_depth_eq_size _ Hg), (reachable_depth_eq_size _ Hg').
    destruct (reachable_keys_inv _ Hg) as [Kg _].
    destruct (reachable_keys_inv _ Hg') as [Kg' _].
    remember (Z.of_nat (size (depth_to_vertices_ g'))) as n' eqn:En'.
    destruct (Z_le_gt_dec n' (Z.max (Z.of_nat (size (depth_to_vertices_ g)))
                                    (cd + 1))) as [|Hgt]; [done|exfalso].
    unfold kBaseDepth in *.
    assert (Hk : is_Some (depth_to_vertices_ g' !! n')) by (apply Kg'; lia).
    rewrite Hb' in Hk. unfold set_vertex_depth in Hk.
    cbn [depth_to_vertices_] in Hk. rewrite Hb1 in Hk.
    unfold kBaseDepth in Hk. rewrite !lookup_insert_is_Some in Hk.
    assert (Hold : ~ is_Some (depth_to_vertices_ g !! n')).
    { intros H. apply Kg in H. lia. }
    intuition lia.
Qed.

Lemma root_graph : add_vertex Graph.empty = Ok (0, built [AddVertex]).
Proof. by vm_compute. Qed.

Lemma root_depth : Graph.depth (built [AddVertex]) = 1.
Proof. by vm_compute. Qed.

Lemma root_has_vertex : has_vertex (built [AddVertex]) 0 = true.
Proof. by vm_compute. Qed.

Lemma depth_positive (g : Graph.t) (v : Z) :
  reachable g -> has_vertex g v = true -> 1 <= Graph.depth g.
Proof.
  intros Hg Hv. assert (Hwf := reachable_wf _ Hg).
  apply has_vertex_true, (wf_dom _ Hwf) in Hv as [d Hd].
  destruct (reachable_depth_range g v d Hg Hd) as [[? ?] _]. lia.
Qed.

(** The quotient 0.0 / 0 of a single layer. *)
Lemma single_layer_probability :
  double_sub double_one (double_div (double_of_int 0) (double_of_int 0))
  = S754_nan.
Proof. by vm_compute. Qed.

Lemma tree_inv_root : tree_inv (built [AddVertex]).
Proof.
  destruct (add_vertex_Ok _ _ _ root_graph)
    as (_ & _ & _ & _ & He & _ & Hd & _).
  split; rewrite ?He, ?Hd; simpl.
  - apply lookup_insert_eq.
  - intros v d Hv Hne. by rewrite lookup_insert_ne, lookup_empty in Hv.
  - intros e H. by apply elem_of_nil in H.
Qed.

(** Both kinds of generator step keep the layered tree. *)
Lemma tree_inv_step (g g' : Graph.t) :
  reachable g -> tree_inv g -> generator_step g g' -> tree_inv g'.
Proof.
  intros Hg [Hroot Hbelow Hedges] Hstep.
  assert (Hwf := reachable_wf _ Hg).
  destruct (reachable_ids_inv _ Hg) as [_ _ Hadj _ Hends].
  destruct Hstep as [[v next id g1 Hv H1 H2]|[a b id c Hc Hne H]].
  - assert (Hgrey := get_edge_color_fresh_target _ _ _ _ Hwf H1 Hv).
    apply has_vertex_true in Hv as Hvs. apply Hadj in Hvs as Hvr.
    apply (wf_dom _ Hwf) in Hvs as [dv Hdv].
    apply (wf_depth_pos _ Hwf) in Hdv as Hpos.
    apply add_vertex_Ok in H1 as (-> & _ & _ & _ & He1 & _ & Hd1 & _).
    set (next := vertex_id_counter_ g) in *.
    apply add_edge_Ok in H2
      as (c & adj1 & _ & _ & Hc & _ & _ & _ & _ & He' & _ & _ & Hdep).
    assert (c = Edge.Grey) as -> by congruence.
    destruct Hdep as [(_ & d0 & Hd0 & _ & Hd' & _)|(? & _)]; [|done].
    rewrite Hd1, lookup_insert_ne, Hdv in Hd0 by lia. injection Hd0 as <-.
    assert (Hold : forall u, u <> next ->
               vertex_depths_ g' !! u = vertex_depths_ g !! u).
    { intros u Hu. by rewrite Hd', Hd1, !lookup_insert_ne. }
    split.
    + rewrite Hold by lia. done.
    + intros u d. destruct (decide (u = next)) as [->|Hu].
      * rewrite Hd', lookup_insert_eq. intros [= <-] _.
        unfold kBaseDepth in *. lia.
      * rewrite Hold by done. apply Hbelow.
    + intros e. rewrite He', He1, elem_of_app, list_elem_of_singleton.
      intros [Hin| ->].
      * destruct (Hedges e Hin) as (df & dt & Hdf & Hdt & Hrel).
        apply list_elem_of_lookup_1 in Hin as [i Hi].
        destruct (Hends i e Hi) as (_ & Hf & Ht). apply Hadj in Hf, Ht.
        exists df, dt. rewrite !Hold by lia. done.
      * exists dv, (dv + 1). simpl.
        rewrite Hold by lia. rewrite Hd', lookup_insert_eq. done.
  - apply add_edge_Ok in H
      as (c' & adj1 & _ & _ & Hc' & _ & _ & _ & _ & He' & _ & _ & Hdep).
    assert (c' = c) as -> by congruence.
    destruct Hdep as [(? & _)|(_ & Hd' & _)]; [done|].
    split; rewrite ?Hd'; [done|done|].
    intros e. unfold colour_matches_depths. rewrite Hd', He', elem_of_app,
      list_elem_of_singleton.
    intros [Hin| ->]; [by apply Hedges|]. simpl.
    apply get_edge_color_Ok in Hc as (da & db & Hda & Hdb & Hbr).
    exists da, db. split; [done|]. split; [done|].
    unfold kDifferenceYellowEdge, kDifferenceRedEdge in *.
    destruct Hbr as [[-> ->]|(_ & l & _ & [[-> _]|(_ & [(-> & ? & _)|(-> & ?)])])];
      [done|done|lia|lia].
Qed.

Lemma tree_inv_steps (g g' : Graph.t) :
  reachable g -> tree_inv g -> rtc generator_step g g' -> tree_inv g'.
Proof.
  intros Hg Ht Hs. induction Hs as [|g g1 g' H _ IH]; [done|].
  apply IH.
  - eapply reachable_steps; [done|by apply generator_step_steps].
  - by eapply tree_inv_step.
Qed.

End GeneratorSupport.

Section GeneratorProperties.
Import Graph GraphGenerator.

(** X12. For a vertex [from] of a built graph get_unconnected_vertex_ids
    returns the candidate list filtered by "is_connected(from, id) is
    false": the same ids, in the same order, each as often as it occurs
    among the candidates; for an id that is not a vertex and a non-empty
    candidate list it throws std::out_of_range. *)
Theorem get_unconnected_vertex_ids_filters
        (g : Graph.t) (from : VertexId) (ids : list VertexId) :
  reachable g ->
  (has_vertex g from = true ->
   get_unconnected_vertex_ids g from ids
   = Ok (List.filter (fun v => match is_connected g from v with
                               | Ok c => negb c
                               | Err _ => false
                               end) ids)) /\
  (has_vertex g from = false -> ids <> [] ->
   get_unconnected_vertex_ids g from ids = Err OutOfRange).
Proof.
  intros Hg. split.
  - intros Hf. apply has_vertex_true in Hf as [la Hla].
    unfold get_unconnected_vertex_ids.
    by rewrite (get_unconnected_filter g from ids [] la
                  (reachable_adj_inv _ Hg) Hla).
  - intros Hf Hne. apply has_vertex_false in Hf.
    destruct ids as [|x ids]; [done|].
    unfold get_unconnected_vertex_ids, is_connected, map_at. simpl.
    by rewrite Hf.
Qed.

Lemma get_unconnected_vertex_ids_filters_witness :
  let g := built [AddVertex; AddVertex; AddVertex; AddEdge 0 1; AddEdge 0 2] in
  get_unconnected_vertex_ids g 0 [1; 2; 1] = Ok [1; 1].
Proof.
  intros g.
  destruct (get_unconnected_vertex_ids_filters g 0 [1; 2; 1]
              (built_reachable _)) as [H _].
  rewrite H; by vm_compute.
Defined.

Context {RNG : Type}.
Variable bernoulli_distribution : double -> RNG -> bool * RNG.
Variable uniform_int_distribution : Z -> Z -> RNG -> Z * RNG.

(** The uniform sampler stays inside the range it is given. *)
Hypothesis uniform_in_range : forall lo hi rng,
  lo <= hi ->
  lo <= (uniform_int_distribution lo hi rng).1 <= hi.

Lemma probaility_generate_grey_edge_safe (current_depth graph_depth : Z) :
  safe (probaility_generate_grey_edge current_depth graph_depth)
       (fun _ => True).
Proof.
  unfold probaility_generate_grey_edge.
  destruct (graph_depth =? 0); [done|].
  eapply safe_bind; [apply safe_int_checked|]. intros num _.
  eapply safe_bind; [apply safe_int_checked|]. intros den _. done.
Qed.

Lemma check_probability_safe (chance : double) (rng : RNG) :
  safe (check_probability bernoulli_distribution chance rng) (fun _ => True).
Proof. unfold check_probability. by destruct (_ && _). Qed.

Lemma check_probability_nan (rng : RNG) :
  check_probability bernoulli_distribution S754_nan rng
  = Err UndefinedBehaviour.
Proof. reflexivity. Qed.

Lemma try_generate_grey_edge_safe
      (params : Params.t) (g : Graph.t) (rng : RNG) (cd v : Z) :
  reachable g ->
  vertex_depths_ g !! v = Some cd ->
  safe (try_generate_grey_edge bernoulli_distribution params (g, rng) cd v)
       (fun s' => grown_from cd g s'.1).
Proof.
  intros Hg Hcd. unfold try_generate_grey_edge.
  assert (Hwf := reachable_wf _ Hg).
  assert (Hv : has_vertex g v = true).
  { apply has_vertex_true, (wf_dom _ Hwf). eauto. }
  eapply safe_bind; [apply probaility_generate_grey_edge_safe|].
  intros p _. eapply safe_bind; [apply check_probability_safe|].
  intros [success rng'] _.
  destruct success; [|apply grown_from_refl].
  eapply safe_bind; [apply add_vertex_safe|]. intros [next g1] Hadd.
  assert (Hs1 : step g g1) by (by apply step_add_vertex with next).
  eapply safe_bind.
  - apply add_edge_safe with Edge.Grey.
    + eapply reachable_steps; [done|by apply rtc_once].
    + eapply has_vertex_steps; [done|by apply rtc_once|done].
    + apply add_vertex_Ok in Hadd as (_ & _ & _ & _ & _ & Ha & _).
      apply has_vertex_true. rewrite Ha, lookup_insert_eq. eauto.
    + by eapply get_edge_color_fresh_target.
  - intros [id g2] Hedge. simpl in *.
    by apply child_step_grows with g1 v next id.
Qed.

(** The grey loop over layers no deeper than [M] hangs children only, and
    opens no layer beyond [M + 1]. *)
Lemma generate_grey_edges_loop_safe
      (params : Params.t) (depths : list Z) (s : Graph.t * RNG) (M : Z) :
  reachable s.1 ->
  (forall cd, cd ∈ depths -> cd <= M) ->
  safe (generate_grey_edges_loop bernoulli_distribution params depths s)
       (fun s' => rtc child_step s.1 s'.1 /\
                  (Graph.depth s.1 <= M + 1 -> Graph.depth s'.1 <= M + 1)).
Proof.
  revert s. induction depths as [|cd depths IH]; intros s Hg HM; simpl.
  { split; [reflexivity|done]. }
  destruct (get_vertices_with_depth_Ok s.1 cd) as [l Hl]. rewrite Hl. simpl.
  destruct (get_vertices_with_depth_elems _ _ _ Hg Hl) as [_ Hknown].
  assert (Hwf := reachable_wf _ Hg).
  destruct (negb _) eqn:E; [simpl; split; [reflexivity|done]|].
  apply negb_false_iff, Z.eqb_eq in E.
  assert (Heq : Graph.depth s.1 = cd) by exact E. clear E.
  assert (HcdM : cd <= M) by (apply HM, elem_of_cons; by left).
  eapply safe_bind with (P := fun s' => grown_from cd s.1 s'.1).
  - apply for_each_safe; [|apply grown_from_refl]. intros s1 v Hv Hs1.
    apply repeat_n_safe; [|done]. intros [g2 rng2] Hs2. simpl in Hs2.
    destruct Hs2 as (Hst2 & Hk2 & Hb2).
    eapply safe_mono.
    + apply try_generate_grey_edge_safe.
      * eapply reachable_steps; [done|by apply child_steps_steps].
      * apply Hk2. by apply Hknown.
    + intros s3 Hs3. simpl. by apply grown_from_trans with g2.
  - intros s1 (Hs1 & _ & Hb1).
    eapply safe_bind; [apply safe_int_checked|]. intros _ _.
    eapply safe_mono; [apply IH|].
    + eapply reachable_steps; [done|by apply child_steps_steps].
    + intros c Hc. apply HM, elem_of_cons. by right.
    + intros s2 [Hs2 Hb2]. split; [by etrans|]. intros _. apply Hb2. lia.
Qed.

Lemma generate_green_edges_safe (s : Graph.t * RNG) :
  reachable s.1 ->
  safe (generate_green_edges bernoulli_distribution s)
       (fun s' => rtc edge_step s.1 s'.1).
Proof.
  intros Hg. unfold generate_green_edges. assert (Hwf := reachable_wf _ Hg).
  apply for_each_safe; [|reflexivity].
  intros [g1 rng1] vertex Hin Hs1. simpl in Hs1.
  apply edge_steps_steps in Hs1 as Hs1'.
  unfold try_generate_green_edge.
  eapply safe_bind; [apply check_probability_safe|].
  intros [success rng2] _.
  destruct success; [|exact Hs1].
  assert (Hg1 : reachable g1) by (by eapply reachable_steps).
  assert (Hv : has_vertex g1 (Vertex.id_ vertex) = true).
  { apply (has_vertex_steps s.1 g1); [done|done|]. by apply vertices_known. }
  assert (Hc : get_edge_color g1 (Vertex.id_ vertex) (Vertex.id_ vertex)
               = Ok Edge.Green).
  { apply get_edge_color_self; [by apply reachable_wf|done]. }
  eapply safe_bind.
  - by apply add_edge_safe with Edge.Green.
  - intros [id g2] Hedge. simpl in *. eapply rtc_r; [done|].
    by apply edge_step_intro
      with (Vertex.id_ vertex) (Vertex.id_ vertex) id Edge.Green.
Qed.

Lemma get_random_vertex_id_safe (l : list Z) (rng : RNG) :
  l <> [] ->
  Z.of_nat (length l) <= INT_MAX ->
  safe (get_random_vertex_id uniform_int_distribution
                             (int_of_size (length l)) rng)
       (fun p => 0 <= p.1 < Z.of_nat (length l)).
Proof.
  intros Hne Hlen. unfold get_random_vertex_id.
  rewrite int_of_size_small by done.
  eapply safe_bind; [apply safe_int_checked|]. intros hi [-> _]. simpl.
  assert (Hpos : 0 < Z.of_nat (length l)) by (destruct l; [done|simpl; lia]).
  destruct (uniform_in_range 0 (Z.of_nat (length l) - 1) rng); lia.
Qed.

(** The body shared by the yellow and red phases after the candidates are
    known: draw one, and add the edge to it. *)
Lemma add_layered_edge_safe
      (g : Graph.t) (rng : RNG) (from d k : Z) (candidates : list Z)
      (add : Graph.t -> Z -> Z -> result Graph.t) :
  reachable g ->
  vertex_depths_ g !! from = Some d ->
  candidates <> [] ->
  NoDup candidates ->
  (forall v, v ∈ candidates ->
             vertex_depths_ g !! v = Some (d + k) /\
             ((k = kDifferenceYellowEdge /\ is_connected g from v = Ok false) \/
              k = kDifferenceRedEdge)) ->
  (forall to, add g from to =
              let* vertex_from_depth := vertex_depth g from in
              let* (_, graph) := add_edge g from to in
              Ok graph) ->
  safe (let* (index, rng') :=
          get_random_vertex_id uniform_int_distribution
                               (int_of_size (length candidates)) rng in
        let* vertex_to_id := vector_at candidates index in
        let* graph := add g from vertex_to_id in
        Ok (graph, rng'))
       (fun s' => rtc edge_step g s'.1).
Proof.
  intros Hg Hd Hne Hnd Hcand Hadd. assert (Hwf := reachable_wf _ Hg).
  assert (Hknown : forall v, v ∈ candidates -> has_vertex g v = true).
  { intros v Hv. destruct (Hcand v Hv) as [Hdv _].
    apply has_vertex_true, (wf_dom _ Hwf). eauto. }
  assert (Hlen := vertex_list_length_bound g candidates Hg Hnd Hknown).
  eapply safe_bind; [by apply get_random_vertex_id_safe|].
  intros [index rng'] Hidx. simpl in Hidx.
  destruct (vector_at_in_range candidates index Hidx) as (to & Hto & Hin).
  rewrite Hto. simpl. rewrite Hadd. unfold vertex_depth, map_at. rewrite Hd.
  simpl. destruct (Hcand to Hin) as [Hdto Hk].
  destruct (get_edge_color_layered g from to d k Hg Hd Hdto Hk)
    as (c & Hc & Hngrey).
  eapply safe_bind with (P := fun graph => rtc edge_step g graph); [|done].
  eapply safe_bind.
  - apply add_edge_safe with c; [done| |by apply Hknown|done].
    apply has_vertex_true, (wf_dom _ Hwf). eauto.
  - intros [id g2] Hedge. simpl in *. apply rtc_once.
    by apply edge_step_intro with from to id c.
Qed.

Lemma generate_yellow_edges_safe (s : Graph.t * RNG) :
  reachable s.1 ->
  safe (generate_yellow_edges bernoulli_distribution
                              uniform_int_distribution s)
       (fun s' => rtc edge_step s.1 s'.1).
Proof.
  intros Hg0. unfold generate_yellow_edges. assert (Hwf0 := reachable_wf _ Hg0).
  apply for_each_safe; [|reflexivity].
  intros [g rng] vertex_from Hin Hs1. simpl in Hs1.
  apply edge_steps_steps in Hs1 as Hs1'.
  assert (Hg : reachable g) by (by eapply reachable_steps).
  assert (Hwf := reachable_wf _ Hg).
  assert (Hv : has_vertex g (Vertex.id_ vertex_from) = true).
  { apply (has_vertex_steps s.1 g); [done|done|]. by apply vertices_known. }
  apply has_vertex_true, (wf_dom _ Hwf) in Hv as [d Hd].
  unfold vertex_depth at 1. unfold map_at. rewrite Hd. simpl.
  eapply safe_bind; [apply safe_int_checked|]. intros num _.
  eapply safe_bind; [apply safe_int_checked|]. intros den _.
  eapply safe_bind; [apply check_probability_safe|].
  intros [success rng1] _.
  destruct success; simpl; [exact Hs1|].
  eapply safe_bind; [apply safe_int_checked|]. intros next_depth [-> _].
  destruct (get_vertices_with_depth_Ok g (d + kDifferenceYellowEdge))
    as [vertex_ids Hids].
  rewrite Hids. simpl.
  destruct (get_vertices_with_depth_elems _ _ _ Hg Hids) as [Hnd Helems].
  assert (Hfrom : is_Some (adjacency_list_ g !! Vertex.id_ vertex_from)).
  { apply (wf_dom _ Hwf). eauto. }
  destruct Hfrom as [la Hla].
  destruct (get_unconnected_acc g (Vertex.id_ vertex_from) vertex_ids [] la
              (reachable_adj_inv _ Hg) Hla) as (nc & Hnc & Hsub & Hmem).
  unfold get_unconnected_vertex_ids. rewrite Hnc. simpl.
  destruct nc as [|x nc]; [exact Hs1|].
  eapply safe_mono.
  - apply (add_layered_edge_safe g rng1 (Vertex.id_ vertex_from) d
             kDifferenceYellowEdge (x :: nc) try_generate_yellow_edge);
      [done|done|done| | |done].
    + by eapply sublist_NoDup.
    + intros v Hvin. apply Hmem in Hvin as [Hvin Hcon].
      split; [by apply Helems|]. left. done.
  - intros s' Hs'. by etrans.
Qed.

Lemma generate_red_edges_safe (s : Graph.t * RNG) :
  reachable s.1 ->
  safe (generate_red_edges bernoulli_distribution uniform_int_distribution s)
       (fun s' => rtc edge_step s.1 s'.1).
Proof.
  intros Hg0. unfold generate_red_edges. assert (Hwf0 := reachable_wf _ Hg0).
  apply for_each_safe; [|reflexivity].
  intros [g rng] vertex_from Hin Hs1. simpl in Hs1.
  apply edge_steps_steps in Hs1 as Hs1'.
  assert (Hg : reachable g) by (by eapply reachable_steps).
  assert (Hwf := reachable_wf _ Hg).
  assert (Hv : has_vertex g (Vertex.id_ vertex_from) = true).
  { apply (has_vertex_steps s.1 g); [done|done|]. by apply vertices_known. }
  apply has_vertex_true, (wf_dom _ Hwf) in Hv as [d Hd].
  eapply safe_bind; [apply check_probability_safe|].
  intros [success rng1] _.
  destruct success; simpl; [|exact Hs1].
  unfold vertex_depth at 1. unfold map_at. rewrite Hd. simpl.
  eapply safe_bind; [apply safe_int_checked|]. intros next_depth [-> _].
  destruct (get_vertices_with_depth_Ok g (d + kDifferenceRedEdge))
    as [vertex_ids Hids].
  rewrite Hids. simpl.
  destruct (get_vertices_with_depth_elems _ _ _ Hg Hids) as [Hnd Helems].
  destruct vertex_ids as [|x vertex_ids]; [exact Hs1|].
  eapply safe_mono.
  - apply (add_layered_edge_safe g rng1 (Vertex.id_ vertex_from) d
             kDifferenceRedEdge (x :: vertex_ids) try_generate_red_edge);
      [done|done|done|done| |done].
    intros v Hvin. split; [by apply Helems|]. by right.
  - intros s' Hs'. by etrans.
Qed.

(** With a single layer the yellow phase divides 0.0 by 0 at its first
    vertex and hands the NaN to the Bernoulli distribution. *)
Lemma yellow_phase_single_layer (g : Graph.t) (rng : RNG) :
  reachable g -> has_vertex g 0 = true -> Graph.depth g = 1 ->
  generate_yellow_edges bernoulli_distribution uniform_int_distribution
                        (g, rng) = Err UndefinedBehaviour.
Proof.
  intros Hg H0 Hdepth. assert (Hwf := reachable_wf _ Hg).
  destruct (reachable_ids_inv _ Hg) as [_ Hvs Hadj _ _].
  apply has_vertex_true in H0 as Hs. apply Hadj in Hs as Hc.
  destruct (proj2 (wf_dom _ Hwf 0) Hs) as [d Hd].
  destruct (reachable_depth_range g 0 d Hg Hd) as [[? ?] _].
  assert (d = 1) as -> by lia.
  assert (Hvd : vertex_depth g 0 = Ok 1) by (by apply map_at_Ok).
  unfold generate_yellow_edges. change ((g, rng).1) with g.
  unfold get_vertices. rewrite Hvs, seqZ_cons, fmap_cons by lia.
  cbn [for_each]. change (Vertex.id_ (Vertex.mk 0)) with 0.
  rewrite Hvd, Hdepth. cbn [bind].
  change (int_checked (1 - kBaseDepth)) with (Ok 0). cbn [bind].
  rewrite single_layer_probability, check_probability_nan. reflexivity.
Qed.

(** generate(): the empty graph for a target depth that is not positive,
    otherwise a tree grown from the root, of at least two layers and at
    most one layer more than the target depth, and then edges between its
    vertices. *)
Lemma generate_safe (params : Params.t) (rng : RNG) :
  safe (generate bernoulli_distribution uniform_int_distribution params rng)
       (fun s => (0 < Params.depth params ->
                  exists g1,
                    rtc child_step (built [AddVertex]) g1 /\
                    2 <= Graph.depth g1 <= Params.depth params + 1 /\
                    rtc edge_step g1 s.1) /\
                 (Params.depth params <= 0 -> s.1 = Graph.empty)).
Proof.
  unfold generate. destruct (Z.gtb_spec (Params.depth params) 0) as [Hpos|Hle].
  2:{ simpl. split; [lia|done]. }
  rewrite root_graph. simpl bind.
  assert (Hroot : reachable (built [AddVertex])) by apply built_reachable.
  assert (Hrd := root_depth). assert (Hrv := root_has_vertex).
  set (root := built [AddVertex]) in *.
  eapply safe_bind
    with (P := fun s => rtc child_step root s.1 /\
                        Graph.depth s.1 <= Params.depth params + 1).
  { eapply safe_mono.
    - apply (generate_grey_edges_loop_safe params _ (root, rng)
               (Params.depth params)); [exact Hroot|].
      intros cd Hcd. apply elem_of_seqZ in Hcd. unfold kBaseDepth in Hcd. lia.
    - intros s1 [H1 Hb]. split; [exact H1|]. apply Hb.
      change (Graph.depth root <= Params.depth params + 1). lia. }
  intros s1 [H1 Hb1].
  assert (Hr1 : reachable s1.1).
  { eapply reachable_steps; [done|by apply child_steps_steps]. }
  assert (Hv1 : has_vertex s1.1 0 = true).
  { apply (has_vertex_steps root s1.1);
      [by apply reachable_wf|by apply child_steps_steps|done]. }
  eapply safe_bind with (P := fun s => rtc edge_step s1.1 s.1).
  { by apply generate_green_edges_safe. }
  intros s2 H2.
  assert (Hr2 : reachable s2.1).
  { eapply reachable_steps; [done|by apply edge_steps_steps]. }
  eapply safe_bind
    with (P := fun s => rtc edge_step s1.1 s.1 /\ 2 <= Graph.depth s1.1).
  { destruct (edge_steps_layers _ _ H2) as [Hl2 _].
    assert (Hd2 : Graph.depth s2.1 = Graph.depth s1.1).
    { unfold Graph.depth. by rewrite Hl2. }
    destruct (decide (Graph.depth s2.1 = 1)) as [Hone|Hmore].
    - destruct s2 as [g2 rng2].
      assert (Hv2 : has_vertex g2 0 = true).
      { apply (has_vertex_steps s1.1 g2);
          [by apply reachable_wf|by apply edge_steps_steps|done]. }
      by rewrite (yellow_phase_single_layer g2 rng2 Hr2 Hv2 Hone).
    - eapply safe_mono; [by apply generate_yellow_edges_safe|].
      intros s3 H3. split; [by etrans|].
      assert (Hp := depth_positive _ _ Hr1 Hv1). lia. }
  intros s3 [H3 Hlow].
  eapply safe_bind with (P := fun s => rtc edge_step s1.1 s.1).
  { eapply safe_mono; [apply generate_red_edges_safe|].
    - apply (reachable_steps s1.1); [done|by apply edge_steps_steps].
    - intros s4 H4. by etrans. }
  intros s4 H4. simpl. split; [|lia]. intros _. exists s1.1.
  split; [done|]. split; [lia|done].
Qed.

Lemma generate_steps (root g1 g : Graph.t) :
  rtc child_step root g1 -> rtc edge_step g1 g -> rtc generator_step root g.
Proof.
  intros Hc He.
  etrans; [by apply child_steps_generator|by apply edge_steps_generator].
Qed.

(** X13. With a uniform sampler that stays in its range, generate() never
    trips an assertion, never throws std::out_of_range and never throws
    the logic error of get_edge_color: every failure is undefined
    behaviour of the program, such as a signed overflow or a Bernoulli
    parameter outside [0, 1]; otherwise it returns a graph built by
    add_vertex and add_edge calls, from the single root vertex when the
    target depth is positive. *)
Theorem generate_fails_only_undefined (params : Params.t) (rng : RNG) :
  safe (generate bernoulli_distribution uniform_int_distribution params rng)
       (fun s => reachable s.1 /\
                 (0 < Params.depth params ->
                  rtc step (built [AddVertex]) s.1)).
Proof.
  eapply safe_mono; [apply generate_safe|].
  intros s [Hpos Hle].
  destruct (decide (0 < Params.depth params)) as [Hd|Hd].
  - destruct (Hpos Hd) as (g1 & Hc & _ & He).
    assert (Hs := generator_steps_steps _ _ (generate_steps _ _ _ Hc He)).
    split; [|done].
    eapply reachable_steps; [apply built_reachable|done].
  - rewrite Hle by lia. split; [apply rtc_refl|lia].
Qed.

(** X17. With a uniform sampler that stays in its range, every graph that
    generate() returns for a positive target depth is a layered tree with
    cross edges: the root 0 has depth 1, every other vertex has a depth
    above 1, and the ends of every stored edge have the depth difference
    of its colour: +1 for Grey and Yellow, +2 for Red, and a Green edge
    is a self-loop. *)
Theorem generated_graph_is_layered
        (params : Params.t) (rng rng' : RNG) (g : Graph.t) :
  0 < Params.depth params ->
  generate bernoulli_distribution uniform_int_distribution params rng
  = Ok (g, rng') ->
  vertex_depth g 0 = Ok 1 /\
  (forall v d, vertex_depth g v = Ok d -> v <> 0 -> 1 < d) /\
  (forall e, e ∈ get_edges g ->
     exists df dt,
       vertex_depth g (Edge.from_vertex_id_ e) = Ok df /\
       vertex_depth g (Edge.to_vertex_id_ e) = Ok dt /\
       match Edge.color_ e with
       | Edge.Grey | Edge.Yellow => dt = df + 1
       | Edge.Red => dt = df + 2
       | Edge.Green => Edge.from_vertex_id_ e = Edge.to_vertex_id_ e
       end).
Proof.
  intros Hpos Hgen. assert (Hsafe := generate_safe params rng).
  rewrite Hgen in Hsafe. simpl in Hsafe. destruct Hsafe as [Hs _].
  destruct (Hs Hpos) as (g1 & Hc & _ & Hx).
  destruct (tree_inv_steps _ _ (built_reachable _) tree_inv_root
              (generate_steps _ _ _ Hc Hx)) as [Hroot Hbelow Hedges].
  unfold vertex_depth. split; [by apply map_at_Ok|]. split.
  - intros v d Hd. apply map_at_Ok in Hd. by apply Hbelow.
  - intros e He. destruct (Hedges e He) as (df & dt & Hdf & Hdt & Hrel).
    exists df, dt. by rewrite !map_at_Ok.
Qed.

(** X19. With a uniform sampler that stays in its range, and whatever the
    Bernoulli sampler answers, a graph that generate() returns for a
    positive target depth has at least one and at most target depth + 1
    layers: depth() lies in that range, so does the depth of every
    vertex, and get_vertices_with_depth is empty beyond it. *)
Theorem generated_depth_bounded
        (params : Params.t) (rng rng' : RNG) (g : Graph.t) :
  0 < Params.depth params ->
  generate bernoulli_distribution uniform_int_distribution params rng
  = Ok (g, rng') ->
  1 <= Graph.depth g <= Params.depth params + 1 /\
  (forall v d, vertex_depth g v = Ok d ->
               1 <= d <= Params.depth params + 1) /\
  (forall d, Params.depth params + 1 < d ->
             get_vertices_with_depth g d = Ok []).
Proof.
  intros Hpos Hgen. assert (Hsafe := generate_safe params rng).
  rewrite Hgen in Hsafe. simpl in Hsafe. destruct Hsafe as [Hs _].
  destruct (Hs Hpos) as (g1 & Hc & Hb & He).
  assert (Hg1 : reachable g1).
  { eapply reachable_steps; [apply built_reachable|].
    by apply child_steps_steps. }
  assert (Hg : reachable g).
  { eapply reachable_steps; [exact Hg1|by apply edge_steps_steps]. }
  destruct (edge_steps_layers _ _ He) as [Hl _].
  assert (Hd : Graph.depth g = Graph.depth g1).
  { unfold Graph.depth. by rewrite Hl. }
  assert (Htree : tree_inv g).
  { apply (tree_inv_steps (built [AddVertex])); [apply built_reachable| |].
    - apply tree_inv_root.
    - by apply generate_steps with g1. }
  destruct (reachable_depth_range g 0 _ Hg (tree_root _ Htree)) as [[_ H1] _].
  unfold kBaseDepth in H1.
  split; [lia|]. split.
  - intros v d Hv. unfold vertex_depth in Hv. apply map_at_Ok in Hv.
    destruct (reachable_depth_range g v d Hg Hv) as [[? ?] _]. lia.
  - intros d Hd'. rewrite get_vertices_with_depth_index. unfold map_index.
    destruct (reachable_keys_inv _ Hg) as [Kr _].
    destruct (depth_to_vertices_ g !! d) as [l|] eqn:E; [|done].
    exfalso. assert (His : is_Some (depth_to_vertices_ g !! d)) by eauto.
    apply Kr in His. rewrite <- (reachable_depth_eq_size _ Hg) in His. lia.
Qed.

(** With no trial slots the grey phase leaves the root alone: the first
    layer runs no trial and the second layer stops the loop. *)
Lemma grey_phase_without_trials (depth count : Z) (rng : RNG) :
  0 < depth -> count <= 0 ->
  generate_grey_edges bernoulli_distribution (Params.mk depth count)
                      (built [AddVertex], rng)
  = Ok (built [AddVertex], rng).
Proof.
  intros Hd Hc. unfold generate_grey_edges.
  change (Params.depth (Params.mk depth count)) with depth.
  rewrite seqZ_cons by lia. cbn [generate_grey_edges_loop].
  change (get_vertices_with_depth (built [AddVertex], rng).1 kBaseDepth)
    with (Ok [0]).
  change (Graph.depth (built [AddVertex], rng).1) with 1.
  change (Params.new_vertices_count (Params.mk depth count)) with count.
  replace (Z.to_nat count) with 0%nat by lia.
  change (int_checked (kBaseDepth + 1)) with (Ok 2).
  change (1 =? kBaseDepth) with true.
  cbn [bind negb for_each repeat_n].
  destruct (decide (0 < Z.pred depth)) as [Hlt|Hge].
  - rewrite seqZ_cons by lia. cbn [generate_grey_edges_loop].
    change (get_vertices_with_depth (built [AddVertex], rng).1 (Z.succ kBaseDepth))
      with (Ok (@nil Z)).
    change (Graph.depth (built [AddVertex], rng).1
            =? Z.succ kBaseDepth) with false.
    reflexivity.
  - rewrite seqZ_nil by lia. reflexivity.
Qed.

Lemma root_self_loop :
  add_edge (built [AddVertex]) 0 0 = Ok (0, built [AddVertex; AddEdge 0 0]).
Proof. by vm_compute. Qed.

(** The probability of the green trial is inside [0, 1]. *)
Lemma green_probability_in_range :
  SFleb double_zero kProbabilityGreen && SFleb kProbabilityGreen double_one
  = true.
Proof. by vm_compute. Qed.

(** The green phase on the root alone: one trial. *)
Lemma green_phase_on_root (rng : RNG) :
  generate_green_edges bernoulli_distribution (built [AddVertex], rng)
  = (let (success, rng') := bernoulli_distribution kProbabilityGreen rng in
     if success then Ok (built [AddVertex; AddEdge 0 0], rng')
     else Ok (built [AddVertex], rng')).
Proof.
  unfold generate_green_edges.
  change (get_vertices (built [AddVertex], rng).1) with [Vertex.mk 0].
  cbn [for_each]. unfold try_generate_green_edge, check_probability.
  rewrite green_probability_in_range. cbn [bind].
  change (Vertex.id_ (Vertex.mk 0)) with 0.
  destruct (bernoulli_distribution kProbabilityGreen rng) as [[] rng'];
    [|reflexivity].
  rewrite root_self_loop. reflexivity.
Qed.

(** With target depth 1 the first grey trial of the root has the NaN
    probability. *)
Lemma grey_phase_single_layer_undefined (count : Z) (rng : RNG) :
  0 < count ->
  generate_grey_edges bernoulli_distribution (Params.mk 1 count)
                      (built [AddVertex], rng)
  = Err UndefinedBehaviour.
Proof.
  intros Hc. unfold generate_grey_edges.
  change (seqZ kBaseDepth (Params.depth (Params.mk 1 count))) with [1].
  cbn [generate_grey_edges_loop].
  change (get_vertices_with_depth (built [AddVertex], rng).1 1) with (Ok [0]).
  change (Graph.depth (built [AddVertex], rng).1) with 1.
  change (Params.new_vertices_count (Params.mk 1 count)) with count.
  cbn [bind Z.eqb Pos.eqb negb for_each].
  destruct (Z.to_nat count) as [|n] eqn:E; [lia|]. cbn [repeat_n].
  change (try_generate_grey_edge bernoulli_distribution (Params.mk 1 count)
            (built [AddVertex], rng) 1 0)
    with (Err (A := Graph.t * RNG) UndefinedBehaviour).
  reflexivity.
Qed.

(** X14. generate() needs two layers. With target depth 1, or with a
    positive target depth and no trial slots (new_vertices_count <= 0),
    every run is undefined behaviour, whatever the samplers answer: a
    single layer makes the probability 1.0 - 0.0 / 0 = NaN, which the
    grey phase (target depth 1) or the yellow phase (root alone) hands to
    the Bernoulli distribution. *)
Theorem generate_single_layer_undefined (params : Params.t) (rng : RNG) :
  Params.depth params = 1 \/
  (0 < Params.depth params /\ Params.new_vertices_count params <= 0) ->
  generate bernoulli_distribution uniform_int_distribution params rng
  = Err UndefinedBehaviour.
Proof.
  destruct params as [depth count].
  change (Params.depth (Params.mk depth count)) with depth.
  change (Params.new_vertices_count (Params.mk depth count)) with count.
  intros Hcase.
  assert (Hpos : 0 < depth) by lia.
  unfold generate.
  change (Params.depth (Params.mk depth count)) with depth.
  destruct (Z.gtb_spec depth 0) as [_|?]; [|lia].
  rewrite root_graph. cbn [bind].
  destruct (decide (count <= 0)) as [Hc|Hc].
  - rewrite grey_phase_without_trials by done. cbn [bind].
    rewrite green_phase_on_root.
    destruct (bernoulli_distribution kProbabilityGreen rng) as [[] rng1];
      cbn [bind].
    + rewrite yellow_phase_single_layer;
        [reflexivity|apply built_reachable|by vm_compute|by vm_compute].
    + rewrite yellow_phase_single_layer;
        [reflexivity|apply built_reachable|by vm_compute|by vm_compute].
  - assert (depth = 1) as -> by lia.
    rewrite grey_phase_single_layer_undefined by lia. reflexivity.
Qed.


End GeneratorProperties.

Lemma generate_fails_only_undefined_witness :
  safe (GraphGenerator.generate scripted_bernoulli lowest_uniform
                                (GraphGenerator.Params.mk 3 1) chain_script)
       (fun s => reachable s.1 /\
                 (0 < 3 -> rtc step (built [AddVertex]) s.1)).
Proof.
  apply (generate_fails_only_undefined scripted_bernoulli lowest_uniform).
  intros lo hi rng H. simpl. lia.
Defined.

Lemma generated_graph_is_layered_witness :
  exists g,
    GraphGenerator.generate scripted_bernoulli lowest_uniform
                            (GraphGenerator.Params.mk 3 1) chain_script
    = Ok (g, []) /\
    Graph.vertex_depth g 0 = Ok 1.
Proof.
  eexists. split; [by vm_compute|].
  eapply (generated_graph_is_layered scripted_bernoulli lowest_uniform)
    with (params := GraphGenerator.Params.mk 3 1) (rng := chain_script)
         (rng' := []).
  - intros lo hi rng H. simpl. lia.
  - simpl. lia.
  - by vm_compute.
Defined.

Lemma generated_depth_bounded_witness :
  exists g,
    GraphGenerator.generate scripted_bernoulli lowest_uniform
                            (GraphGenerator.Params.mk 3 1) chain_script
    = Ok (g, []) /\
    1 <= Graph.depth g <= 3 + 1.
Proof.
  eexists. split; [by vm_compute|].
  refine (proj1 (generated_depth_bounded scripted_bernoulli lowest_uniform _
                   (GraphGenerator.Params.mk 3 1) chain_script [] _ _ _)).
  - intros lo hi rng H. simpl. lia.
  - simpl. lia.
  - by vm_compute.
Defined.

Lemma generate_single_layer_undefined_witness :
  GraphGenerator.generate scripted_bernoulli lowest_uniform
                          (GraphGenerator.Params.mk 5 0) chain_script
  = Err UndefinedBehaviour.
Proof.
  apply (generate_single_layer_undefined scripted_bernoulli lowest_uniform
           (GraphGenerator.Params.mk 5 0) chain_script).
  right. simpl. lia.
Defined.


(** ** Properties of the serializer *)

Section PrintingProperties.
Import Graph printing.json.

Lemma lit_comma : lit "," = [comma].
Proof. reflexivity. Qed.

Lemma drop_trailing_comma_snoc (text : list Ascii.ascii) :
  drop_trailing_comma (text ++ lit ",") = Ok text.
Proof.
  unfold drop_trailing_comma, back. rewrite lit_comma, last_snoc. simpl.
  unfold pop_back. destruct (text ++ [comma]) eqn:E.
  - by destruct text.
  - rewrite <- E. by rewrite List.removelast_last.
Qed.

Lemma drop_trailing_comma_bracket (text : list Ascii.ascii) :
  drop_trailing_comma (text ++ lit ":[") = Ok (text ++ lit ":[").
Proof.
  unfold drop_trailing_comma, back.
  change (lit ":[") with ([Ascii.ascii_of_nat 58] ++ [Ascii.ascii_of_nat 91]).
  rewrite app_assoc, last_snoc. reflexivity.
Qed.

(** Appending every item followed by a comma. *)
Lemma fold_left_commas {A : Type} (f : A -> list Ascii.ascii)
      (l : list A) (text : list Ascii.ascii) :
  fold_left (fun r x => r ++ (f x ++ lit ",")) l text =
  text ++ match l with
          | [] => []
          | _ :: _ => comma_separated (f <$> l) ++ lit ","
          end.
Proof.
  revert text. induction l as [|x l IH]; intros text; simpl.
  - by rewrite app_nil_r.
  - rewrite IH. destruct l as [|y l]; simpl.
    + by rewrite app_nil_r.
    + by rewrite <- !app_assoc.
Qed.

Lemma for_each_commas {A : Type} (p : A -> result (list Ascii.ascii))
      (f : A -> list Ascii.ascii) (l : list A) (text : list Ascii.ascii) :
  (forall x, x ∈ l -> p x = Ok (f x)) ->
  for_each (fun r x => let* v := p x in Ok (r ++ (v ++ lit ","))) l text =
  Ok (text ++ match l with
              | [] => []
              | _ :: _ => comma_separated (f <$> l) ++ lit ","
              end).
Proof.
  revert text. induction l as [|x l IH]; intros text Hp; simpl.
  - by rewrite app_nil_r.
  - rewrite (Hp x) by apply list_elem_of_here. simpl.
    rewrite IH by (intros y Hy; apply Hp; by apply list_elem_of_further).
    destruct l as [|y l]; simpl.
    + by rewrite app_nil_r.
    + by rewrite <- !app_assoc.
Qed.

(** print_vertex on a vertex with an adjacency list and a depth. *)
Lemma print_vertex_Ok (g : Graph.t) (id : Z) (l : list Z) (d : Z) :
  adjacency_list_ g !! id = Some l ->
  vertex_depths_ g !! id = Some d ->
  print_vertex (Vertex.mk id) g = Ok (json_vertex id l d).
Proof.
  intros Hl Hd. unfold print_vertex, connected_edges_ids, vertex_depth, map_at.
  simpl. rewrite (proj2 (has_vertex_true g id)) by eauto.
  rewrite Hl, Hd. simpl. rewrite fold_left_commas.
  unfold json_vertex. destruct l as [|x l].
  - simpl. by rewrite <- !app_assoc.
  - cbn [length Nat.eqb negb].
    rewrite (app_assoc _ (comma_separated _) (lit ",")).
    unfold pop_back at 1.
    destruct (_ ++ lit ",") as [|c r] eqn:E.
    { apply (f_equal length) in E. rewrite !length_app in E. simpl in E. lia. }
    rewrite <- E, lit_comma, List.removelast_last. simpl.
    by rewrite <- !app_assoc.
Qed.

(** X15. print_vertex of a vertex of a built graph returns the JSON object
    with the vertex id, the ids of its adjacency list separated by commas
    (no trailing comma), and its depth; for an id that is not a vertex it
    throws std::out_of_range. *)
Theorem print_vertex_of_vertex (g : Graph.t) (id : VertexId) :
  reachable g ->
  (has_vertex g id = true ->
   exists l d,
     connected_edges_ids g id = Ok l /\ vertex_depth g id = Ok d /\
     print_vertex (Vertex.mk id) g = Ok (json_vertex id l d)) /\
  (has_vertex g id = false ->
   print_vertex (Vertex.mk id) g = Err OutOfRange).
Proof.
  intros Hg. assert (Hwf := reachable_wf _ Hg). split; intros Hv.
  - apply has_vertex_true in Hv as Hs. destruct Hs as [l Hl].
    destruct (proj2 (wf_dom _ Hwf id)) as [d Hd]; [eauto|].
    exists l, d. unfold connected_edges_ids, vertex_depth, map_at.
    rewrite Hv, Hl, Hd. simpl. repeat split. by apply print_vertex_Ok.
  - apply has_vertex_false in Hv as Hn.
    assert (Hd : vertex_depths_ g !! id = None).
    { apply eq_None_not_Some. rewrite (wf_dom _ Hwf), Hn. by intros [? ?]. }
    unfold print_vertex, connected_edges_ids, vertex_depth, map_at. simpl.
    rewrite Hv, Hd. reflexivity.
Qed.

Lemma print_vertex_of_vertex_witness :
  let g := built [AddVertex; AddVertex; AddEdge 0 1; AddEdge 1 1] in
  (exists l d, print_vertex (Vertex.mk 1) g = Ok (json_vertex 1 l d)) /\
  print_vertex (Vertex.mk 2) g = Err OutOfRange.
Proof.
  intros g. destruct (print_vertex_of_vertex g 1 (built_reachable _)) as [H1 _].
  destruct (print_vertex_of_vertex g 2 (built_reachable _)) as [_ H2].
  split.
  - destruct H1 as (l & d & _ & _ & H); [by vm_compute|]. by exists l, d.
  - apply H2. by vm_compute.
Defined.

(** X16. print_graph of a built graph never fails, and its text is the
    depth followed by the vertex objects and the edge objects, each list
    separated by commas with no trailing comma. *)
Theorem print_graph_comma_separated (g : Graph.t) :
  reachable g ->
  exists vertex_objects,
    Forall2 (fun vertex object =>
               exists l d,
                 connected_edges_ids g (Vertex.id_ vertex) = Ok l /\
                 vertex_depth g (Vertex.id_ vertex) = Ok d /\
                 object = json_vertex (Vertex.id_ vertex) l d)
            (get_vertices g) vertex_objects /\
    print_graph g =
    Ok (lit "{" ++ dquote ++ lit "depth" ++ dquote ++ lit ":" ++
        to_string (Graph.depth g) ++ lit "," ++
        dquote ++ lit "vertices" ++ dquote ++ lit ":[" ++
        comma_separated vertex_objects ++
        lit "]," ++ dquote ++ lit "edges" ++ dquote ++ lit ":[" ++
        comma_separated (print_edge <$> get_edges g) ++
        lit "]}" ++ newline).
Proof.
  intros Hg. assert (Hwf := reachable_wf _ Hg).
  set (object := fun vertex : Vertex.t =>
         json_vertex (Vertex.id_ vertex)
                     (map_index (adjacency_list_ g) (Vertex.id_ vertex))
                     (default 0 (vertex_depths_ g !! Vertex.id_ vertex))).
  assert (Hobj : forall vertex, vertex ∈ get_vertices g ->
             exists l d,
               adjacency_list_ g !! Vertex.id_ vertex = Some l /\
               vertex_depths_ g !! Vertex.id_ vertex = Some d /\
               object vertex = json_vertex (Vertex.id_ vertex) l d).
  { intros vertex Hin. apply (vertices_known _ _ Hg) in Hin.
    apply has_vertex_true in Hin as [l Hl].
    destruct (proj2 (wf_dom _ Hwf (Vertex.id_ vertex))) as [d Hd]; [eauto|].
    exists l, d. unfold object, map_index. by rewrite Hl, Hd. }
  exists (object <$> get_vertices g). split.
  - apply Forall2_fmap_r, Forall_Forall2_diag, Forall_forall.
    intros vertex Hin. destruct (Hobj vertex Hin) as (l & d & Hl & Hd & Heq).
    exists l, d. unfold connected_edges_ids, vertex_depth, map_at.
    rewrite (proj2 (has_vertex_true g _)) by eauto. by rewrite Hl, Hd.
  - unfold print_graph.
    rewrite (for_each_commas (fun vertex => print_vertex vertex g) object).
    2:{ intros [id] Hin. destruct (Hobj _ Hin) as (l & d & Hl & Hd & Heq).
        rewrite Heq. by apply print_vertex_Ok. }
    cbn [bind app].
    assert (Hedges : forall text : list Ascii.ascii,
               (let* result :=
                  drop_trailing_comma
                    (fold_left
                       (fun result edge => result ++ (print_edge edge ++ lit ","))
                       (get_edges g)
                       (text ++ (lit "]," ++ dquote ++ lit "edges" ++ dquote ++
                                 lit ":[")))
                in Ok (result ++ (lit "]}" ++ newline)))
               = Ok (text ++ lit "]," ++ dquote ++ lit "edges" ++ dquote ++
                     lit ":[" ++ comma_separated (print_edge <$> get_edges g) ++
                     lit "]}" ++ newline)).
    { intros text. rewrite fold_left_commas.
      destruct (get_edges g) as [|e es].
      - rewrite app_nil_r, !app_assoc, drop_trailing_comma_bracket.
        cbn [bind fmap list_fmap comma_separated].
        by rewrite <- !app_assoc.
      - rewrite !app_assoc, drop_trailing_comma_snoc. cbn [bind].
        by rewrite <- !app_assoc. }
    destruct (get_vertices g) as [|v vs].
    + rewrite app_nil_r, !app_assoc, drop_trailing_comma_bracket. cbn [bind].
      rewrite Hedges. cbn [fmap list_fmap comma_separated].
      by rewrite <- !app_assoc.
    + rewrite !app_assoc, drop_trailing_comma_snoc. cbn [bind].
      rewrite Hedges. by rewrite <- !app_assoc.
Qed.

Lemma print_graph_comma_separated_witness :
  exists text,
    print_graph (built [AddVertex; AddVertex; AddEdge 0 1; AddEdge 1 1])
    = Ok text.
Proof.
  destruct (print_graph_comma_separated
              (built [AddVertex; AddVertex; AddEdge 0 1; AddEdge 1 1])
              (built_reachable _)) as (objects & _ & H).
  eexists. exact H.
Defined.

End PrintingProperties.
